(** * pg_rman restore.c: a shallow embedding and its properties

    The development follows [restore.c] of pg_rman 1.1.2.  Part I embeds the
    data the file works on and its functions; Part II states and proves
    the properties of the restore orchestrator.

    Conventions.
    - A C [uint32] is a [Z]; the casts the source performs are written out.
    - A [parray] is a [list], index 0 first.
    - [elog] with an error code ends the process: functions that can call it
      return a [res], and the state reached at that point is kept.
    - The directories the program works on ($PGDATA, $ARCLOG_PATH, the
      restore work area, ...) are separate trees keyed by the path below
      their root. *)

From Stdlib Require Import ZArith String Ascii List Bool Lia OrderedTypeEx.
From stdpp Require Import base option list gmap strings sorting.

Local Open Scope string_scope.
Local Open Scope Z_scope.

(* ===================================================================== *)
(** * Part I: the program                                                 *)
(* ===================================================================== *)

(** ** Error codes and outcomes *)

(** How the process ends before its time: the codes [restore.c] hands to
    [elog], and [SIGSEGV] for the dereference of the null pointer
    [parray_get] returns past the end of an array. *)
Inductive elevel :=
| SIGSEGV
| ERROR_SYSTEM
| ERROR_ARGS
| ERROR_INTERRUPTED
| ERROR_NO_BACKUP
| ERROR_CORRUPTED
| ERROR_ALREADY_RUNNING
| ERROR_PG_INCOMPATIBLE
| ERROR_PG_RUNNING
| EXIT_NOT_SUPPORTED.

#[global] Instance elevel_eq_dec : EqDecision elevel.
Proof. solve_decision. Defined.

(** Outcome of a step: a value, the process ended by [elog], or a loop
    that was still running when the step budget of the model ran out. *)
Inductive res (A : Type) :=
| Ok (a : A)
| Fatal (e : elevel)
| OutOfFuel.
Arguments Ok {A} a.
Arguments Fatal {A} e.
Arguments OutOfFuel {A}.

(** ** Log positions *)

Definition UINT32_MAX : Z := 4294967295.

(** [(uint32) x] *)
Definition to_uint32 (x : Z) : Z := x mod 4294967296.

Definition is_uint32 (x : Z) : Prop := 0 <= x <= UINT32_MAX.

(** [XLogRecPtr] of PostgreSQL (access/xlogdefs.h) *)
Record XLogRecPtr := mkLSN { xlogid : Z; xrecoff : Z }.

(** [XLByteLT(a, b)] of PostgreSQL (access/xlogdefs.h) *)
Definition XLByteLT (a b : XLogRecPtr) : bool :=
  (xlogid a <? xlogid b) || ((xlogid a =? xlogid b) && (xrecoff a <? xrecoff b)).

(** ** Catalog entries *)

(** Modelled from the spec: the header pg_rman.h is not part of the sources;
    [backup_mode] is an ordered enum, archive-only < INCREMENTAL < FULL. *)
Inductive BackupMode :=
| BACKUP_MODE_INVALID
| BACKUP_MODE_ARCHIVE
| BACKUP_MODE_INCREMENTAL
| BACKUP_MODE_FULL.

Definition mode_rank (m : BackupMode) : Z :=
  match m with
  | BACKUP_MODE_INVALID => 0
  | BACKUP_MODE_ARCHIVE => 1
  | BACKUP_MODE_INCREMENTAL => 2
  | BACKUP_MODE_FULL => 3
  end.

(** [m1 < m2] on the enum *)
Definition mode_lt (m1 m2 : BackupMode) : bool := mode_rank m1 <? mode_rank m2.

(** Modelled from the spec: [status] is an enum OK, DONE, ERROR, RUNNING,
    CORRUPT, ...; the source only tests it for equality. *)
Inductive BackupStatus :=
| BACKUP_STATUS_INVALID
| BACKUP_STATUS_OK
| BACKUP_STATUS_RUNNING
| BACKUP_STATUS_ERROR
| BACKUP_STATUS_DELETING
| BACKUP_STATUS_DELETED
| BACKUP_STATUS_DONE
| BACKUP_STATUS_CORRUPT.

#[global] Instance BackupStatus_eq_dec : EqDecision BackupStatus.
Proof. solve_decision. Defined.

(** [a != b] on the enum *)
Definition status_ne (a b : BackupStatus) : bool := negb (bool_decide (a = b)).

(** File kinds, as the [S_ISDIR]/[S_ISREG] tests on [pgFile.mode] see them. *)
Inductive fkind := KDir | KReg | KOther.

#[global] Instance fkind_eq_dec : EqDecision fkind.
Proof. solve_decision. Defined.

(** [pgFile]: one line of a backup's file list, or one entry of a directory
    listing.  [BYTES_INVALID] is the reserved [write_size] of an entry that
    is recorded but whose content was not captured. *)
Record pgFile := mkFile {
  path : string;
  mode : fkind;
  size : Z;
  write_size : Z
}.

#[global] Instance pgFile_eq_dec : EqDecision pgFile.
Proof. solve_decision. Defined.

Definition BYTES_INVALID : Z := -1.

(** One line of a file list: the path is relative to the root the list is
    read under ([dir_read_file_list] prepends the root). *)
Definition S_ISDIR (f : pgFile) : bool := match mode f with KDir => true | _ => false end.
Definition S_ISREG (f : pgFile) : bool := match mode f with KReg => true | _ => false end.

(** [pgBackup]: the fields [restore.c] reads.  [have_database] and
    [have_arclog] stand for the macros [HAVE_DATABASE] and [HAVE_ARCLOG] of
    the absent header; the last three fields are the parts of the backup
    that live on disk and are reached through [pgBackupGetPath]: the
    directories mkdirs.sh creates and the two file lists. *)
Record pgBackup := mkBackup {
  start_time : Z;
  backup_mode : BackupMode;
  status : BackupStatus;
  tli : Z;
  start_lsn : XLogRecPtr;
  stop_lsn : XLogRecPtr;
  block_size : Z;
  wal_block_size : Z;
  compress_data : bool;
  have_database : bool;
  have_arclog : bool;
  mkdirs_sh : list string;
  database_file_list : list pgFile;
  arclog_file_list : list pgFile
}.

(** [backup->status = s] *)
Definition set_status (s : BackupStatus) (b : pgBackup) : pgBackup :=
  mkBackup (start_time b) (backup_mode b) s (tli b) (start_lsn b) (stop_lsn b)
           (block_size b) (wal_block_size b) (compress_data b)
           (have_database b) (have_arclog b)
           (mkdirs_sh b) (database_file_list b) (arclog_file_list b).

(** ** Timelines *)

(** [pgTimeLine] *)
Record pgTimeLine := mkTimeLine { tl_tli : Z; tl_end : XLogRecPtr }.

(** [satisfy_timeline] (restore.c:809-821) *)
Fixpoint satisfy_timeline (timelines : list pgTimeLine) (backup : pgBackup) : bool :=
  match timelines with
  | [] => false
  | timeline :: rest =>
      if (tli backup =? tl_tli timeline) && XLByteLT (stop_lsn backup) (tl_end timeline)
      then true
      else satisfy_timeline rest backup
  end.

(** ** Search for the base backup *)

(** The loop of [do_restore] at restore.c:140-161, started at index [i] with
    [rest] the catalog from [i] on.  [have_libz] says whether the build
    defines [HAVE_LIBZ]; without it the guard of lines 148-156 is compiled
    in.  The value is the [goto base_backup_found] with [base_index] and
    [base_backup]. *)
Fixpoint find_base_backup (have_libz : bool) (timelines : list pgTimeLine)
    (i : nat) (rest : list pgBackup) : res (nat * pgBackup) :=
  match rest with
  | [] => Fatal ERROR_NO_BACKUP
  | base_backup :: rest' =>
      if mode_lt (backup_mode base_backup) BACKUP_MODE_FULL
         || status_ne (status base_backup) BACKUP_STATUS_OK
      then find_base_backup have_libz timelines (S i) rest'
      else if negb have_libz
              && (compress_data base_backup
                  && (have_database base_backup || have_arclog base_backup))
      then Fatal EXIT_NOT_SUPPORTED
      else if satisfy_timeline timelines base_backup
      then Ok (i, base_backup)
      else find_base_backup have_libz timelines (S i) rest'
  end.

(** ** C strings *)

(** [isspace], C locale: space, \t, \n, \v, \f, \r.  [IsSpace] of the absent
    header is [isspace] on the unsigned char. *)
Definition IsSpace (c : ascii) : bool :=
  let n := N_of_ascii c in
  (n =? 32)%N || ((9 <=? n)%N && (n <=? 13)%N).

(** The C string held by a buffer: the bytes before the first NUL. *)
Fixpoint c_str (buf : string) : string :=
  match buf with
  | EmptyString => EmptyString
  | String c rest => if (N_of_ascii c =? 0)%N then EmptyString else String c (c_str rest)
  end.

(** The scan [for (ptr = s; ptr[0]; ptr++)] that stops at the first
    character that is not [IsSpace]. *)
Fixpoint skip_space (s : string) : string :=
  match s with
  | EmptyString => EmptyString
  | String c rest => if IsSpace c then skip_space rest else s
  end.

(** [ptr[0] == 0 || ptr[0] == '#'] *)
Definition at_end_or_comment (ptr : string) : bool :=
  match ptr with
  | EmptyString => true
  | String c _ => (N_of_ascii c =? 35)%N
  end.

(** [p + n] on a string: the text from offset [n] on. *)
Fixpoint string_drop (n : nat) (s : string) : string :=
  match n, s with
  | O, _ => s
  | S n', String _ rest => string_drop n' rest
  | S _, EmptyString => EmptyString
  end.

(** [join_path_components(head, tail)] for a non-empty [head] and a plain
    relative [tail]. *)
Definition join_path_components (head tail : string) : string :=
  head ++ "/" ++ tail.

(** [file->path + strlen(root) + 1]: the path below [root]. *)
Definition rel_path (root : string) (p : string) : string :=
  string_drop (String.length root + 1) p.

(** One hexadecimal digit, upper case. *)
Definition hex_digit (d : Z) : ascii :=
  if d <? 10 then ascii_of_N (Z.to_N (48 + d)) else ascii_of_N (Z.to_N (55 + d)).

(** The [n] low hexadecimal digits of [x], most significant first. *)
Fixpoint hex_digits (n : nat) (x : Z) : string :=
  match n with
  | O => EmptyString
  | S n' => hex_digits n' (x / 16) ++ String (hex_digit (x mod 16)) EmptyString
  end.

(** [sprintf("%08X", x)] for a [uint32] [x]. *)
Definition hex8 (x : Z) : string := hex_digits 8 x.

(** [fgets(buf, size, fd)] on the unread rest of a text stream: the chunk
    read (at most [size - 1] characters, ending after the first newline) and
    what is left; [None] at end of file. *)
Fixpoint fgets_chunk (room : nat) (s : string) : string * string :=
  match room, s with
  | O, _ => (EmptyString, s)
  | _, EmptyString => (EmptyString, EmptyString)
  | S room', String c rest =>
      if (N_of_ascii c =? 10)%N then (String c EmptyString, rest)
      else let '(chunk, unread) := fgets_chunk room' rest in (String c chunk, unread)
  end.

Definition fgets (size : nat) (s : string) : option (string * string) :=
  match s with
  | EmptyString => None
  | _ => Some (fgets_chunk (size - 1) s)
  end.

(** The chunks successive [fgets] calls return until end of file.  Each
    call consumes a character, so [fuel] = length of the stream is enough. *)
Fixpoint fgets_all (fuel : nat) (size : nat) (s : string) : list string :=
  match fuel with
  | O => []
  | S fuel' =>
      match fgets size s with
      | None => []
      | Some (chunk, unread) => chunk :: fgets_all fuel' size unread
      end
  end.

(** [MAXPGPATH] of PostgreSQL (pg_config_manual.h) *)
Definition MAXPGPATH : nat := 1024.

(** ** File trees *)

(** What a path of a tree holds. *)
Inductive node :=
| Dir
| Reg (data : string)
| Lnk (target : string).

#[global] Instance node_eq_dec : EqDecision node.
Proof. solve_decision. Defined.

(** A directory tree: the entries below a root, keyed by relative path. *)
Abbreviation tree := (gmap string node).

Definition node_kind (n : node) : fkind :=
  match n with Dir => KDir | Reg _ => KReg | Lnk _ => KOther end.

Definition node_size (n : node) : Z :=
  match n with Reg d => Z.of_nat (String.length d) | _ => 0 end.

(** [k'] lies below the directory [k]. *)
Definition is_below (k k' : string) : bool := String.prefix (k ++ "/") k'.

Definition has_children (k : string) (t : tree) : bool :=
  bool_decide (map_Exists (fun k' _ => is_below k k' = true) t).

(** ** Collaborators outside restore.c *)

(** [CompressionMode] of the absent header, as [copy_file] is called here. *)
Inductive CompressionMode := NO_COMPRESSION | DECOMPRESSION.

(** What [restore.c] uses and does not define: constants of the PostgreSQL
    build, libc's [strtoul], and functions of pg_rman's other files.  Each
    is a parameter of the development.
    - [strtoul s]: [None] when no conversion is done (then [endptr == ptr]),
      else the [unsigned long] value and the text from [endptr] on.
    - [xlog_logfname2lsn s]: the end position a WAL file name stands for,
      [None] when the name does not parse.
    - [restore_data_file_out from compress old]: the content
      [restore_data_file] leaves in the destination file, from the stored
      file [from] and what the destination held.
    - [copy_file_out from m]: the content [copy_file] writes.
    - [pgdata_exclude k]: the listing of $PGDATA for the deletion pass
      leaves the entry [k] out.
    - [pgBackupValidate backup]: the status [pgBackupValidate(backup, true)]
      leaves in the catalog entry; it changes no other field. *)
Class Externals := {
  BLCKSZ : Z;
  XLOG_BLCKSZ : Z;
  XLogSegSize : Z;
  PROGRAM_VERSION : string;
  pgBackupGetPath : pgBackup -> string -> string;
  strtoul : string -> option (Z * string);
  xlog_logfname2lsn : string -> option XLogRecPtr;
  restore_data_file_out : string -> bool -> option node -> string;
  copy_file_out : string -> CompressionMode -> string;
  pgdata_exclude : string -> bool;
  pgBackupValidate : pgBackup -> BackupStatus
}.

(** Sub-directories and files of a backup, as handed to [pgBackupGetPath]. *)
Definition DATABASE_DIR : string := "database".
Definition ARCLOG_DIR : string := "arclog".
Definition DATABASE_FILE_LIST : string := "file_database.txt".
Definition ARCLOG_FILE_LIST : string := "file_arclog.txt".
Definition PG_XLOG_DIR : string := "pg_xlog".

(** The program's global settings.  [have_libz] is the build option
    [HAVE_LIBZ].  [interrupted] is the flag the signal handler sets; a run
    is modelled with the flag at one value throughout. *)
Record config := mkConfig {
  pgdata : option string;
  arclog_path : option string;
  srvlog_path : option string;
  backup_path : string;
  check : bool;
  debug : bool;
  interrupted : bool;
  have_libz : bool
}.

(** The string behind a setting that was checked not to be NULL. *)
Definition the (s : option string) : string := default "" s.

(** ** Steps that can end the process *)

(** A step over a state [S]: the outcome and the state reached; after
    [Fatal] it is the state the process leaves behind. *)
Definition M (S A : Type) : Type := S -> res A * S.

#[global] Instance M_ret {S} : MRet (M S) := fun A (a : A) s => (Ok a, s).

#[global] Instance M_bind {S} : MBind (M S) := fun A B (k : A -> M S B) (m : M S A) s =>
  match m s with
  | (Ok a, s') => k a s'
  | (Fatal e, s') => (Fatal e, s')
  | (OutOfFuel, s') => (OutOfFuel, s')
  end.

(** [elog(e, ...)] with an error code: the process ends here. *)
Definition elog {S A} (e : elevel) : M S A := fun s => (Fatal e, s).

Definition get {S} : M S S := fun s => (Ok s, s).
Definition modify {S} (f : S -> S) : M S unit := fun s => (Ok tt, f s).

(** [for] over the elements of an array, in order. *)
Fixpoint forM {S A} (l : list A) (body : A -> M S unit) : M S unit :=
  match l with
  | [] => mret tt
  | x :: rest => body x ;; forM rest body
  end.

(** ** Sorting and searching file lists *)

(** Modelled from the spec: [pgFileComparePathDesc] orders by path,
    descending; the sign of [-strcmp(f1->path, f2->path)]. *)
Definition pgFileComparePathDesc (f1 f2 : pgFile) : comparison :=
  String.compare (path f2) (path f1).

(** [f1] may stand before [f2] in an array sorted by the comparator. *)
Definition path_desc (f1 f2 : pgFile) : Prop :=
  pgFileComparePathDesc f1 f2 <> Gt.

#[global] Instance path_desc_dec : RelDecision path_desc.
Proof. intros f1 f2. unfold path_desc. destruct (pgFileComparePathDesc f1 f2); [left|left|right]; congruence. Defined.

(** [parray_qsort(files, pgFileComparePathDesc)]: libc's [qsort] leaves the
    array sorted by the comparator. *)
Definition parray_qsort (files : list pgFile) : list pgFile :=
  merge_sort path_desc files.

(** libc's [bsearch] on the slice [lo, hi) of a sorted array: probe the
    middle, go left on a negative comparison and right on a positive one. *)
Fixpoint bsearch (fuel : nat) (key : pgFile) (files : list pgFile) (lo hi : nat)
    : option pgFile :=
  match fuel with
  | O => None
  | S fuel' =>
      if (lo <? hi)%nat then
        let idx := ((lo + hi) / 2)%nat in
        match files !! idx with
        | None => None
        | Some p =>
            match pgFileComparePathDesc key p with
            | Lt => bsearch fuel' key files lo idx
            | Gt => bsearch fuel' key files (S idx) hi
            | Eq => Some p
            end
        end
      else None
  end.

(** [parray_bsearch(files, key, pgFileComparePathDesc)] *)
Definition parray_bsearch (files : list pgFile) (key : pgFile) : option pgFile :=
  bsearch (length files) key files 0 (length files).

(** ** System calls on a tree *)

(** Outcome of [fopen(path, "rt")]: a stream, [errno == ENOENT], or another
    error. *)
Inductive fopen_result :=
| FOpened (content : string)
| FENOENT
| FError.

Section Program.
Context `{Externals}.

(** [fopen(root/name, "rt")] on a tree.  A link reads as the stored file it
    points to; a directory opens and reads nothing. *)
Definition fopen_rt (t : tree) (name : string) : fopen_result :=
  match t !! name with
  | None => FENOENT
  | Some (Reg data) => FOpened data
  | Some (Lnk target) => FOpened (copy_file_out target NO_COMPRESSION)
  | Some Dir => FOpened EmptyString
  end.

(** Outcome of [remove(path)]. *)
Inductive remove_result :=
| Removed (t : tree)
| RENOENT
| RError.

(** [remove(root/k)]: unlink a file or link, [rmdir] a directory (fails
    while it has entries). *)
Definition sys_remove (k : string) (t : tree) : remove_result :=
  match t !! k with
  | None => RENOENT
  | Some Dir => if has_children k t then RError else Removed (delete k t)
  | Some _ => Removed (delete k t)
  end.

(** Modelled from the spec: [pgFileDelete] removes the entry [file] names
    below [root]; an entry already gone is not an error, a directory that is
    not empty is. *)
Definition pgFileDelete (root : string) (file : pgFile) : M tree unit := fun t =>
  match sys_remove (rel_path root (path file)) t with
  | Removed t' => (Ok tt, t')
  | RENOENT => (Ok tt, t)
  | RError => (Fatal ERROR_SYSTEM, t)
  end.

(** Modelled from the spec: [dir_read_file_list(root, list_path)] reads the
    lines of a file list and roots each path at [root]. *)
Definition dir_read_file_list (root : string) (lines : list pgFile) : list pgFile :=
  map (fun f => mkFile (join_path_components root (path f)) (mode f) (size f) (write_size f))
      lines.

(** Modelled from the spec: [dir_list_file(files, root, exclude, _, false)]
    lists the entries below [root], those of the exclusion set left out;
    the root itself is not listed.  The order is the directory's. *)
Definition dir_list_file (t : tree) (root : string) (exclude : string -> bool)
    : list pgFile :=
  map (fun kn : string * node =>
         mkFile (join_path_components root kn.1) (node_kind kn.2) (node_size kn.2) 0)
      (map_to_list (filter (fun kn : string * node => exclude kn.1 = false) t)).

Definition no_exclude (k : string) : bool := false.

(** Modelled from the spec: mkdirs.sh, run in $PGDATA, creates the
    directories the backup recorded; a directory that exists is left alone,
    any other entry in its place makes the script fail. *)
Definition mkdirs_step (d : string) : M tree unit := fun t =>
  match t !! d with
  | None => (Ok tt, <[d := Dir]> t)
  | Some Dir => (Ok tt, t)
  | Some _ => (Fatal ERROR_SYSTEM, t)
  end.

Definition run_mkdirs (dirs : list string) : M tree unit := forM dirs mkdirs_step.

(** ** [restore_database] (restore.c:288-456) *)

Section RestoreDatabase.
Variable cfg : config.

(** Lines 358-365: drop the entries that were not backed up. *)
Definition remove_not_backed_up (files : list pgFile) : list pgFile :=
  List.filter (fun file => negb (write_size file =? BYTES_INVALID)) files.

(** Lines 368-407, the body for one file. *)
Definition restore_file (backup : pgBackup) (file : pgFile) : M tree unit :=
  let from_root := pgBackupGetPath backup DATABASE_DIR in
  if interrupted cfg then elog ERROR_INTERRUPTED
  else if S_ISDIR file then mret tt
  else if write_size file =? BYTES_INVALID then mret tt
  else if check cfg then mret tt
  else
    let k := rel_path from_root (path file) in
    modify (fun t : tree =>
      <[k := Reg (restore_data_file_out (path file) (compress_data backup) (t !! k))]> t).

(** Lines 427-438, the body for one listed entry. *)
Definition delete_unlisted (files : list pgFile) (file : pgFile) : M tree unit :=
  match parray_bsearch files file with
  | None => pgFileDelete (the (pgdata cfg)) file
  | Some _ => mret tt
  end.

(** Lines 409-442: delete what is in $PGDATA and not in the file list. *)
Definition delete_pass (backup : pgBackup) : M tree unit :=
  let files := parray_qsort (dir_read_file_list (the (pgdata cfg)) (database_file_list backup)) in
  t ← get;
  let files_now := parray_qsort (dir_list_file t (the (pgdata cfg)) pgdata_exclude) in
  forM files_now (delete_unlisted files).

(** Lines 444-448: remove postmaster.pid. *)
Definition remove_postmaster_pid : M tree unit := fun t =>
  match sys_remove "postmaster.pid" t with
  | Removed t' => (Ok tt, t')
  | RENOENT => (Ok tt, t)
  | RError => (Fatal ERROR_SYSTEM, t)
  end.

(** The whole function, on the tree of $PGDATA.  [pgBackupValidate] writes
    the status of the catalog entry and not the tree: the callers record it
    ([validated] below).  The working-directory calls around mkdirs.sh leave
    no trace in the tree. *)
Definition restore_database (backup : pgBackup) : M tree unit :=
  if negb (block_size backup =? BLCKSZ) then elog ERROR_PG_INCOMPATIBLE
  else if negb (wal_block_size backup =? XLOG_BLCKSZ) then elog ERROR_PG_INCOMPATIBLE
  else
    (if check cfg then mret tt else run_mkdirs (mkdirs_sh backup));;
    let files := remove_not_backed_up
                   (dir_read_file_list (pgBackupGetPath backup DATABASE_DIR)
                                       (database_file_list backup)) in
    forM files (restore_file backup);;
    (if check cfg then mret tt else delete_pass backup);;
    remove_postmaster_pid.

End RestoreDatabase.
(** ** [restore_archive_logs] (restore.c:462-543) *)

(** [strstr(path, ".history") == path + strlen(path) - strlen(".history")]:
    the first occurrence of the suffix, compared with the place where the
    suffix would start.  A null pointer equals no such place. *)
Definition is_history_file (p : string) : bool :=
  match String.index 0 ".history" p with
  | Some off => Z.of_nat off =? Z.of_nat (String.length p) - Z.of_nat (String.length ".history")
  | None => false
  end.

(** [symlink(target, root/k)]: fails when the name exists. *)
Definition sys_symlink (target k : string) : M tree unit := fun t =>
  match t !! k with
  | None => (Ok tt, <[k := Lnk target]> t)
  | Some _ => (Fatal ERROR_SYSTEM, t)
  end.

Section RestoreArchiveLogs.
Variable cfg : config.

(** Lines 482-539, the body for one file, on the tree of $ARCLOG_PATH. *)
Definition restore_archive_file (backup : pgBackup) (file : pgFile) : M tree unit :=
  let base_path := pgBackupGetPath backup ARCLOG_DIR in
  if interrupted cfg then elog ERROR_INTERRUPTED
  else
    let k := rel_path base_path (path file) in
    if write_size file =? BYTES_INVALID then mret tt
    else if is_history_file (path file) then mret tt
    else if check cfg then mret tt
    else if compress_data backup then
      modify (fun t : tree => <[k := Reg (copy_file_out (path file) DECOMPRESSION)]> t)
    else fun t =>
      match sys_remove k t with
      | RError => (Fatal ERROR_SYSTEM, t)
      | Removed t' => sys_symlink (path file) k t'
      | RENOENT => sys_symlink (path file) k t
      end.

Definition restore_archive_logs (backup : pgBackup) : M tree unit :=
  let files := dir_read_file_list (pgBackupGetPath backup ARCLOG_DIR)
                                  (arclog_file_list backup) in
  forM files (restore_archive_file backup).

End RestoreArchiveLogs.

(** ** [search_next_wal] (restore.c:922-971) *)

(** [XLogSegsPerFile] of PostgreSQL (access/xlog_internal.h) *)
Definition XLogSegsPerFile : Z := UINT32_MAX / XLogSegSize.

(** [XLogFileName(fname, tli, log, seg)] of PostgreSQL: three times
    [%08X]. *)
Definition XLogFileName (tli log seg : Z) : string :=
  hex8 tli ++ hex8 log ++ hex8 seg.

(** [NextLogSeg(logId, logSeg)] of PostgreSQL, on [uint32] values. *)
Definition NextLogSeg (logId logSeg : Z) : Z * Z :=
  if to_uint32 (XLogSegsPerFile - 1) <=? logSeg
  then (to_uint32 (logId + 1), 0)
  else (logId, to_uint32 (logSeg + 1)).

(** What the function reads and writes through its pointers, and the
    standard output. *)
Record wal_search := mkSearch {
  needId : Z;
  needSeg : Z;
  timelines : list pgTimeLine;
  stdout : list string
}.

Definition printf (s : string) (st : wal_search) : wal_search :=
  mkSearch (needId st) (needSeg st) (timelines st) (stdout st ++ [s]).

(** [stat(dir/name, &st) == 0] *)
Definition stat_ok (dir : tree) (name : string) : bool :=
  bool_decide (is_Some (dir !! name)).

(** Lines 936-945: the first timeline, from index [i] on, whose file for the
    needed segment exists, with the file name. *)
Fixpoint first_wal (dir : tree) (id seg : Z) (i : nat) (tls : list pgTimeLine)
    : option (nat * string) :=
  match tls with
  | [] => None
  | timeline :: rest =>
      let xlogfname := XLogFileName (tl_tli timeline) id seg in
      if stat_ok dir xlogfname then Some (i, xlogfname)
      else first_wal dir id seg (S i) rest
  end.

(** Lines 965-966:
    [for (j = i + 1; j < parray_num(timelines); j++) parray_remove(timelines, i + 1);] *)
Fixpoint delete_old_tli_loop (fuel i j : nat) (tls : list pgTimeLine) : list pgTimeLine :=
  match fuel with
  | O => tls
  | S fuel' =>
      if (j <? length tls)%nat
      then delete_old_tli_loop fuel' i (S j) (delete (S i) tls)
      else tls
  end.

Definition delete_old_tli (i : nat) (tls : list pgTimeLine) : list pgTimeLine :=
  delete_old_tli_loop (length tls) i (S i) tls.

Definition nl : string := String (ascii_of_N 10) EmptyString.

(** The [for (;;)] loop with its locals [count] and [pre_xlogfname]. *)
Fixpoint search_next_wal_loop (fuel : nat) (dir : tree) (count : nat)
    (pre_xlogfname : string) : M wal_search unit :=
  match fuel with
  | O => fun st => (OutOfFuel, st)
  | S fuel' => fun st =>
      match first_wal dir (needId st) (needSeg st) 0 (timelines st) with
      | None =>
          if (count =? 1)%nat then (Ok tt, printf nl st)
          else if (1 <? count)%nat then (Ok tt, printf (" - " ++ pre_xlogfname ++ nl) st)
          else (Ok tt, st)
      | Some (i, xlogfname) =>
          let count' := S count in
          let st1 := if (count' =? 1)%nat then printf xlogfname st else st in
          let next := NextLogSeg (needId st1) (needSeg st1) in
          search_next_wal_loop fuel' dir count' xlogfname
            (mkSearch next.1 next.2 (delete_old_tli i (timelines st1)) (stdout st1))
      end
  end.

Definition search_next_wal (fuel : nat) (dir : tree) : M wal_search unit :=
  search_next_wal_loop fuel dir 0 EmptyString.
(** ** [readTimeLineHistory] (restore.c:693-807) *)

(** Lines 730-778, the body for one chunk [fline] read by [fgets].  The
    state is [result] and [last_timeline]; [parray_insert(result, 0, _)]
    puts the new record first. *)
Definition parse_history_line (fline : string)
    (st : list pgTimeLine * option pgTimeLine)
    : res (list pgTimeLine * option pgTimeLine) :=
  let ptr := skip_space (c_str fline) in
  if at_end_or_comment ptr then Ok st
  else
    match strtoul ptr with
    | None => Fatal ERROR_CORRUPTED
    | Some (v, endptr) =>
        let tli := to_uint32 v in
        if match st.2 with
           | Some last_timeline => tli <=? tl_tli last_timeline
           | None => false
           end
        then Fatal ERROR_CORRUPTED
        else
          let ptr' := skip_space endptr in
          if at_end_or_comment ptr' then Fatal ERROR_CORRUPTED
          else
            match xlog_logfname2lsn ptr' with
            | None => Fatal ERROR_CORRUPTED
            | Some end_lsn =>
                let timeline := mkTimeLine tli end_lsn in
                Ok (timeline :: st.1, Some timeline)
            end
    end.

(** The [while] loop over the chunks of the file. *)
Fixpoint parse_history_lines (chunks : list string)
    (st : list pgTimeLine * option pgTimeLine)
    : res (list pgTimeLine * option pgTimeLine) :=
  match chunks with
  | [] => Ok st
  | fline :: rest =>
      match parse_history_line fline st with
      | Ok st' => parse_history_lines rest st'
      | Fatal e => Fatal e
      | OutOfFuel => OutOfFuel
      end
  end.

(** The chunks [fgets(fline, sizeof(fline), fd)] yields on a stream. *)
Definition history_chunks (content : string) : list string :=
  fgets_all (String.length content) MAXPGPATH content.

(** Lines 727-806, with [fd] the stream that was opened, if any.  The end
    of the target timeline is [(uint32) -1] in both fields. *)
Definition parse_history (fd : option string) (targetTLI : Z) : res (list pgTimeLine) :=
  let chunks := match fd with Some content => history_chunks content | None => [] end in
  match parse_history_lines chunks ([], None) with
  | Ok (result, last_timeline) =>
      if match last_timeline with
         | Some last => targetTLI <=? tl_tli last
         | None => false
         end
      then Fatal ERROR_CORRUPTED
      else Ok (mkTimeLine targetTLI (mkLSN (to_uint32 (-1)) (to_uint32 (-1))) :: result)
  | Fatal e => Fatal e
  | OutOfFuel => OutOfFuel
  end.

(** Lines 705-725 and the rest: [first] is the outcome of opening the
    history file in $ARCLOG_PATH, [second] in the restore work directory. *)
Definition readTimeLineHistory_from (first second : fopen_result) (targetTLI : Z)
    : res (list pgTimeLine) :=
  match first with
  | FOpened content => parse_history (Some content) targetTLI
  | FError => Fatal ERROR_SYSTEM
  | FENOENT =>
      match second with
      | FOpened content => parse_history (Some content) targetTLI
      | FError => Fatal ERROR_SYSTEM
      | FENOENT => parse_history None targetTLI
      end
  end.

Definition history_file_name (targetTLI : Z) : string := hex8 targetTLI ++ ".history".

(** The function on the two trees it reads. *)
Definition readTimeLineHistory (arclog work_xlog : tree) (targetTLI : Z)
    : res (list pgTimeLine) :=
  readTimeLineHistory_from (fopen_rt arclog (history_file_name targetTLI))
                           (fopen_rt work_xlog (history_file_name targetTLI))
                           targetTLI.

(** ** [get_fullbackup_timeline] (restore.c:880-911) *)

(** The catalog entry after [pgBackupValidate(backup, true)]. *)
Definition validated (backup : pgBackup) : pgBackup :=
  set_status (pgBackupValidate backup) backup.

(** The loop validates the full backups that are DONE as it passes them, so
    the function also returns the catalog as it leaves it. *)
Fixpoint get_fullbackup_timeline (backups : list pgBackup) : res Z * list pgBackup :=
  match backups with
  | [] => (Fatal ERROR_NO_BACKUP, [])
  | base_backup :: rest =>
      if negb (mode_lt (backup_mode base_backup) BACKUP_MODE_FULL) then
        let base_backup' :=
          if bool_decide (status base_backup = BACKUP_STATUS_DONE)
          then validated base_backup else base_backup in
        if bool_decide (status base_backup' = BACKUP_STATUS_OK)
        then (Ok (tli base_backup'), base_backup' :: rest)
        else let '(r, rest') := get_fullbackup_timeline rest in (r, base_backup' :: rest')
      else let '(r, rest') := get_fullbackup_timeline rest in (r, base_backup :: rest')
  end.

(** ** The incremental backups (restore.c:176-198) *)

(** The loop [for (i = base_index - 1; i >= 0; i--)], entered with [n] =
    [i + 1], over any state [W] the call [restore_database(backup)] works
    on.  [restore] is what the call does to that state; in the catalog it
    leaves the entry validated.  The value is [last_restored_index] and the
    catalog. *)
Fixpoint restore_incrementals {W : Type} (restore : pgBackup -> M W unit)
    (tls : list pgTimeLine) (base_backup : pgBackup)
    (n : nat) (last_restored_index : nat) (backups : list pgBackup)
    : M W (nat * list pgBackup) :=
  match n with
  | O => mret (last_restored_index, backups)
  | S i =>
      match backups !! i with
      | None => elog SIGSEGV
      | Some backup =>
          if status_ne (status backup) BACKUP_STATUS_OK
             || negb (tli backup =? tli base_backup)
          then restore_incrementals restore tls base_backup i last_restored_index backups
          else if mode_lt (backup_mode backup) BACKUP_MODE_INCREMENTAL
          then restore_incrementals restore tls base_backup i last_restored_index backups
          else if negb (satisfy_timeline tls backup)
          then restore_incrementals restore tls base_backup i last_restored_index backups
          else
            restore backup;;
            restore_incrementals restore tls base_backup i i
                                 (<[i := validated backup]> backups)
      end
  end.

(** ** Copies between trees *)

(** The entry a copy leaves: a directory is created, a file is copied, a
    link is read through to the stored file it points to. *)
Definition copied_node (n : node) : node :=
  match n with
  | Dir => Dir
  | Reg data => Reg data
  | Lnk target => Reg (copy_file_out target NO_COMPRESSION)
  end.

(** Modelled from the spec: [dir_copy_files(from, to)] creates the
    directories of [from] in [to] and copies its files, replacing files of
    the same name; in check mode it changes nothing. *)
Definition dir_copy_files (chk : bool) (src dst : tree) : tree :=
  if chk then dst
  else union_with (fun new old => match new with Dir => Some old | _ => Some new end)
                  (copied_node <$> src) dst.

(** The entries of [t] below the directory [d], keyed by their path below
    [d]. *)
Definition subtree (d : string) (t : tree) : tree :=
  list_to_map
    (omap (fun kn : string * node =>
             if is_below d kn.1 then Some (rel_path d kn.1, kn.2) else None)
          (map_to_list t)).

(** The entries of [t], keyed as entries of the directory [d]. *)
Definition under (d : string) (t : tree) : tree :=
  list_to_map (map (fun kn : string * node => (join_path_components d kn.1, kn.2))
                   (map_to_list t)).

(** ** The state of a run *)

(** The trees [do_restore] changes, and the standard output of
    [search_next_wal].  Progress messages printed under [verbose] are not
    part of the model. *)
Record world := mkWorld {
  w_pgdata : tree;
  w_arclog : tree;
  w_work_xlog : tree;
  w_work_srvlog : tree;
  w_stdout : list string
}.

(** What a run finds and only reads: the answers of [catalog_lock],
    [is_pg_running], [catalog_get_backup_list] (index 0 is the last backup)
    and [get_current_timeline], the server log directory, and the
    directory of timeline history files kept under $BACKUP_PATH. *)
Record inputs := mkInputs {
  in_catalog_lock : Z;
  in_pg_running : bool;
  in_backups : list pgBackup;
  in_cur_tli : Z;
  in_srvlog : tree;
  in_timeline_history : tree
}.

Definition on_pgdata {A} (m : M tree A) : M world A := fun w =>
  let '(r, t) := m (w_pgdata w) in
  (r, mkWorld t (w_arclog w) (w_work_xlog w) (w_work_srvlog w) (w_stdout w)).

Definition on_arclog {A} (m : M tree A) : M world A := fun w =>
  let '(r, t) := m (w_arclog w) in
  (r, mkWorld (w_pgdata w) t (w_work_xlog w) (w_work_srvlog w) (w_stdout w)).

(** A pure step that can end the process. *)
Definition lift {S A} (r : res A) : M S A := fun s => (r, s).

(** ** [backup_online_files] and [restore_online_files] (restore.c:583-682) *)

Definition backup_online_files (cfg : config) (inp : inputs) (re_recovery : bool)
    : M world unit := fun w =>
  let files_exist := negb (bool_decide (w_work_xlog w = ∅)) in
  if files_exist && negb re_recovery then (Ok tt, w)
  else
    (Ok tt,
     mkWorld (w_pgdata w) (w_arclog w)
             (dir_copy_files (check cfg) (subtree PG_XLOG_DIR (w_pgdata w)) (w_work_xlog w))
             (dir_copy_files (check cfg) (in_srvlog inp) (w_work_srvlog w))
             (w_stdout w)).

Definition restore_online_files (cfg : config) : M world unit := fun w =>
  (Ok tt,
   mkWorld (dir_copy_files (check cfg) (under PG_XLOG_DIR (w_work_xlog w)) (w_pgdata w))
           (w_arclog w) (w_work_xlog w) (w_work_srvlog w) (w_stdout w)).

(** ** [create_recovery_conf] (restore.c:545-581) *)

(** [sprintf("%u", x)] for a [uint32] [x]. *)
Fixpoint dec_digits (fuel : nat) (x : Z) (acc : string) : string :=
  match fuel with
  | O => acc
  | S fuel' =>
      let acc' := String (ascii_of_N (Z.to_N (48 + x mod 10))) acc in
      if x / 10 =? 0 then acc' else dec_digits fuel' (x / 10) acc'
  end.

Definition dec (x : Z) : string := dec_digits 10 x EmptyString.

Definition recovery_conf (cfg : config) (target_time target_xid target_inclusive : option string)
    (target_tli : Z) : string :=
  "# recovery.conf generated by pg_rman " ++ PROGRAM_VERSION ++ nl
  ++ "restore_command = 'cp " ++ the (arclog_path cfg) ++ "/%f %p'" ++ nl
  ++ match target_time with
     | Some s => "recovery_target_time = '" ++ s ++ "'" ++ nl
     | None => EmptyString
     end
  ++ match target_xid with
     | Some s => "recovery_target_xid = '" ++ s ++ "'" ++ nl
     | None => EmptyString
     end
  ++ match target_inclusive with
     | Some s => "recovery_target_inclusive = '" ++ s ++ "'" ++ nl
     | None => EmptyString
     end
  ++ "recovery_target_timeline = '" ++ dec target_tli ++ "'" ++ nl.

(** [fopen(path, "wt")] fails on a directory. *)
Definition create_recovery_conf (cfg : config)
    (target_time target_xid target_inclusive : option string) (target_tli : Z)
    : M tree unit := fun t =>
  if check cfg then (Ok tt, t)
  else
    match t !! "recovery.conf" with
    | Some Dir => (Fatal ERROR_SYSTEM, t)
    | _ => (Ok tt, <["recovery.conf" :=
                      Reg (recovery_conf cfg target_time target_xid target_inclusive target_tli)]> t)
    end.

(** ** [do_restore] (restore.c:34-283) *)

(** Lines 107-125: clear the restore destination, leaf first. *)
Definition clear_destination (cfg : config) : M tree unit :=
  t ← get;
  let files := parray_qsort (dir_list_file t (the (pgdata cfg)) no_exclude) in
  forM files (pgFileDelete (the (pgdata cfg))).

(** The archive directory of a backup, as [stat] sees it: the files its
    list records as backed up. *)
Definition backup_arclog_dir (backup : pgBackup) : tree :=
  list_to_map
    (map (fun f : pgFile =>
            (path f,
             match mode f with
             | KDir => Dir
             | _ => Reg (copy_file_out
                           (join_path_components (pgBackupGetPath backup ARCLOG_DIR) (path f))
                           NO_COMPRESSION)
             end))
         (List.filter (fun f => negb (write_size f =? BYTES_INVALID))
                      (arclog_file_list backup))).

(** The locals [needId], [needSeg] and the array [timelines], which
    [search_next_wal] updates in place. *)
Definition wal_locals : Type := Z * Z * list pgTimeLine.

(** [search_next_wal(path, &needId, &needSeg, timelines)] in a run. *)
Definition search_wal (fuel : nat) (dir : tree) (loc : wal_locals) : M world wal_locals :=
  fun w =>
    let '(r, st) := search_next_wal fuel dir (mkSearch loc.1.1 loc.1.2 loc.2 (w_stdout w)) in
    let w' := mkWorld (w_pgdata w) (w_arclog w) (w_work_xlog w) (w_work_srvlog w) (stdout st) in
    match r with
    | Ok _ => (Ok (needId st, needSeg st, timelines st), w')
    | Fatal e => (Fatal e, w')
    | OutOfFuel => (OutOfFuel, w')
    end.

(** Lines 216-240: the loop [for (i = last_restored_index; i >= 0; i--)],
    entered with [n] = [i + 1]. *)
Fixpoint restore_archives (fuel : nat) (cfg : config) (backups : list pgBackup)
    (n : nat) (loc : wal_locals) : M world wal_locals :=
  match n with
  | O => mret loc
  | S i =>
      match backups !! i with
      | None => elog SIGSEGV
      | Some backup =>
          if status_ne (status backup) BACKUP_STATUS_OK
          then restore_archives fuel cfg backups i loc
          else if negb (have_arclog backup)
          then restore_archives fuel cfg backups i loc
          else if negb (satisfy_timeline loc.2 backup)
          then restore_archives fuel cfg backups i loc
          else
            on_arclog (restore_archive_logs cfg backup);;
            loc' ← (if check cfg then search_wal fuel (backup_arclog_dir backup) loc
                    else mret loc);
            restore_archives fuel cfg backups i loc'
      end
  end.

(** Lines 208-214: the segment the check starts from. *)
Definition first_needed (cfg : config) (backups : list pgBackup)
    (last_restored_index : nat) (tls : list pgTimeLine) : M world wal_locals :=
  if check cfg then
    match backups !! last_restored_index with
    | None => elog SIGSEGV
    | Some backup =>
        mret (xlogid (start_lsn backup), xrecoff (start_lsn backup) / XLogSegSize, tls)
    end
  else mret (0, 0, tls).

(** The whole function.  [fuel] bounds each run of the loop of
    [search_next_wal], which only check mode enters. *)
Definition do_restore (fuel : nat) (cfg : config) (inp : inputs)
    (target_time target_xid target_inclusive : option string) (target_tli : Z)
    : M world Z :=
  if bool_decide (pgdata cfg = None) then elog ERROR_ARGS
  else if bool_decide (arclog_path cfg = None) then elog ERROR_ARGS
  else if bool_decide (srvlog_path cfg = None) then elog ERROR_ARGS
  else if in_catalog_lock inp =? -1 then elog ERROR_SYSTEM
  else if in_catalog_lock inp =? 1 then elog ERROR_ALREADY_RUNNING
  else if in_pg_running inp then elog ERROR_PG_RUNNING
  else
    let cur_tli := in_cur_tli inp in
    let looked := get_fullbackup_timeline (in_backups inp) in
    let backups := looked.2 in
    backup_tli ← lift looked.1;
    let target_tli :=
      if target_tli =? 0
      then (if negb (cur_tli =? 0) then cur_tli else backup_tli)
      else target_tli in
    backup_online_files cfg inp (negb (cur_tli =? 0) && negb (cur_tli =? backup_tli));;
    (if check cfg then mret tt else on_pgdata (clear_destination cfg));;
    on_arclog (modify (dir_copy_files (check cfg) (in_timeline_history inp)));;
    w ← get;
    tls ← lift (readTimeLineHistory (w_arclog w) (w_work_xlog w) target_tli);
    found ← lift (find_base_backup (have_libz cfg) tls 0 backups);
    let base_index := found.1 in
    let base_backup := found.2 in
    on_pgdata (restore_database cfg base_backup);;
    restored ←
      restore_incrementals (fun backup => on_pgdata (restore_database cfg backup))
                           tls base_backup base_index base_index
                           (<[base_index := validated base_backup]> backups);
    let last_restored_index := restored.1 in
    let backups := restored.2 in
    loc ← first_needed cfg backups last_restored_index tls;
    loc ← restore_archives fuel cfg backups (S last_restored_index) loc;
    restore_online_files cfg;;
    (if check cfg then
       w1 ← get;
       loc ← search_wal fuel (w_arclog w1) loc;
       w2 ← get;
       search_wal fuel (subtree PG_XLOG_DIR (w_pgdata w2)) loc;;
       mret tt
     else mret tt);;
    on_pgdata (create_recovery_conf cfg target_time target_xid target_inclusive target_tli);;
    mret 0.

End Program.

(** ** The properties in the words of the specification *)

(** [a] lies strictly before [b] in the log. *)
Definition lsn_lt (a b : XLogRecPtr) : Prop :=
  xlogid a < xlogid b \/ (xlogid a = xlogid b /\ xrecoff a < xrecoff b).

(** Timeline satisfaction: some entry of the chain has the backup's [tli]
    and an end boundary strictly greater than its [stop_lsn]. *)
Definition timeline_satisfied (tls : list pgTimeLine) (backup : pgBackup) : Prop :=
  exists timeline, timeline ∈ tls /\ tli backup = tl_tli timeline
                   /\ lsn_lt (stop_lsn backup) (tl_end timeline).

(** A candidate for the base: mode FULL (or above), status OK. *)
Definition full_and_ok (backup : pgBackup) : Prop :=
  mode_rank BACKUP_MODE_FULL <= mode_rank (backup_mode backup)
  /\ status backup = BACKUP_STATUS_OK.

(** The build cannot read the backup: it is compressed, it carries database
    or archive files, and [HAVE_LIBZ] is not defined. *)
Definition needs_missing_zlib (have_libz : bool) (backup : pgBackup) : Prop :=
  have_libz = false /\ compress_data backup = true
  /\ (have_database backup = true \/ have_arclog backup = true).

(** An incremental to restore on top of [base_backup]. *)
Definition incremental_match (tls : list pgTimeLine) (base_backup backup : pgBackup) : bool :=
  negb (mode_lt (backup_mode backup) BACKUP_MODE_INCREMENTAL)
  && bool_decide (status backup = BACKUP_STATUS_OK)
  && (tli backup =? tli base_backup)
  && satisfy_timeline tls backup.

(** The positions [b-1, b-2, ..., 0], in that order. *)
Definition positions_below (b : nat) : list nat := rev (seq 0 b).

(** The incrementals selected above the base at position [b]: walking
    [b-1, ..., 0], the entries that match, with their positions. *)
Definition selected_incrementals (tls : list pgTimeLine) (backups : list pgBackup)
    (base_backup : pgBackup) (b : nat) : list (nat * pgBackup) :=
  omap (fun i => match backups !! i with
                 | Some backup =>
                     if incremental_match tls base_backup backup then Some (i, backup) else None
                 | None => None
                 end)
       (positions_below b).

(** The catalog after the selected entries were restored: each of them
    validated. *)
Definition catalog_after `{Externals} (sel : list (nat * pgBackup))
    (backups : list pgBackup) : list pgBackup :=
  foldl (fun acc ib => <[ib.1 := validated ib.2]> acc) backups sel.

(** The last restored index: the position of the last selected incremental,
    [b] when there is none. *)
Definition last_restored (sel : list (nat * pgBackup)) (b : nat) : nat :=
  match last sel with
  | Some ib => ib.1
  | None => b
  end.

(** ** History files in the words of the specification *)

Section HistoryWords.
Context `{Externals}.

(** What one chunk read by [fgets] holds: a blank or comment line, a record
    [<tli> <end-WAL-filename>], or something else, with the timeline id
    when one was read. *)
Inductive line_kind :=
| Skipped
| Malformed (id : option Z)
| Record (tli : Z) (end_lsn : XLogRecPtr).

Definition classify_line (fline : string) : line_kind :=
  let ptr := skip_space (c_str fline) in
  if at_end_or_comment ptr then Skipped
  else
    match strtoul ptr with
    | None => Malformed None
    | Some (v, endptr) =>
        let ptr' := skip_space endptr in
        if at_end_or_comment ptr' then Malformed (Some (to_uint32 v))
        else
          match xlog_logfname2lsn ptr' with
          | None => Malformed (Some (to_uint32 v))
          | Some end_lsn => Record (to_uint32 v) end_lsn
          end
    end.

Definition is_skipped (k : line_kind) : bool :=
  match k with Skipped => true | _ => false end.

Definition is_malformed (k : line_kind) : bool :=
  match k with Malformed _ => true | _ => false end.

(** The lines of a history file that are neither blank nor comments. *)
Definition history_lines (content : string) : list line_kind :=
  List.filter (fun k => negb (is_skipped k)) (map classify_line (history_chunks content)).

(** The timeline records among the lines. *)
Definition records_of (ks : list line_kind) : list pgTimeLine :=
  omap (fun k => match k with
                 | Record t e => Some (mkTimeLine t e)
                 | _ => None
                 end) ks.

(** The timeline ids read from the lines, in the order of the file. *)
Definition ids_of (ks : list line_kind) : list Z :=
  omap (fun k => match k with
                 | Record t _ => Some t
                 | Malformed id => id
                 | Skipped => None
                 end) ks.

(** The resolver's step on a classified line, and its loop. *)
Definition step_line (k : line_kind) (st : list pgTimeLine * option pgTimeLine)
    : res (list pgTimeLine * option pgTimeLine) :=
  match k with
  | Skipped => Ok st
  | Malformed _ => Fatal ERROR_CORRUPTED
  | Record t e =>
      if match st.2 with
         | Some last_timeline => t <=? tl_tli last_timeline
         | None => false
         end
      then Fatal ERROR_CORRUPTED
      else Ok (mkTimeLine t e :: st.1, Some (mkTimeLine t e))
  end.

Fixpoint run_lines (ks : list line_kind) (st : list pgTimeLine * option pgTimeLine)
    : res (list pgTimeLine * option pgTimeLine) :=
  match ks with
  | [] => Ok st
  | k :: rest =>
      match step_line k st with
      | Ok st' => run_lines rest st'
      | Fatal e => Fatal e
      | OutOfFuel => OutOfFuel
      end
  end.

(** The history file the resolver reads, if any: the one in $ARCLOG_PATH,
    else the one in the restore work directory. *)
Definition opened_history (first second : fopen_result) : option (option string) :=
  match first with
  | FOpened content => Some (Some content)
  | FError => None
  | FENOENT =>
      match second with
      | FOpened content => Some (Some content)
      | FError => None
      | FENOENT => Some None
      end
  end.

End HistoryWords.

(** ** The file synchronizer in the words of the specification *)

(** The entry is copied by [restore_database]: its content was captured and
    it is not a directory. *)
Definition is_copied (e : pgFile) : bool :=
  negb (write_size e =? BYTES_INVALID) && negb (S_ISDIR e).

(** The paths, below $PGDATA, of the files a backup's restore copies. *)
Definition copied_keys (backup : pgBackup) : list string :=
  path <$> List.filter is_copied (database_file_list backup).

(** The paths, below $PGDATA, a backup's file list names, captured or not. *)
Definition manifest_keys (backup : pgBackup) : list string :=
  path <$> database_file_list backup.

Section SynchronizerWords.
Context `{Externals}.

(** The deletion pass of a backup's restore deletes the path when it finds
    it: the listing does not leave it out and the file list does not name
    it. *)
Definition deletable (backup : pgBackup) (k : string) : Prop :=
  pgdata_exclude k = false /\ k ∉ manifest_keys backup.

(** No path is both a directory mkdirs.sh creates and a file the restore
    copies. *)
Definition dirs_apart_from_files (backup : pgBackup) : Prop :=
  forall k, k ∈ mkdirs_sh backup -> k ∉ copied_keys backup.

(** The restores [do_restore] runs on $PGDATA for a chain, the base first:
    one call of [restore_database] for each entry. *)
Definition restore_chain (cfg : config) (chain : list pgBackup) : M tree unit :=
  forM chain (restore_database cfg).

(** [restore_database] with the deletion pass left out. *)
Definition restore_without_pass (cfg : config) (backup : pgBackup) : M tree unit :=
  if negb (block_size backup =? BLCKSZ) then elog ERROR_PG_INCOMPATIBLE
  else if negb (wal_block_size backup =? XLOG_BLCKSZ) then elog ERROR_PG_INCOMPATIBLE
  else
    (if check cfg then mret tt else run_mkdirs (mkdirs_sh backup));;
    forM (remove_not_backed_up
            (dir_read_file_list (pgBackupGetPath backup DATABASE_DIR)
                                (database_file_list backup)))
         (restore_file cfg backup);;
    remove_postmaster_pid.

(** A synchronizer that reconciles once per restore: every entry of the
    chain is applied, then one deletion pass runs against the file list of
    the last entry. *)
Definition restore_chain_reconcile_once (cfg : config) (chain : list pgBackup)
    : M tree unit :=
  forM chain (restore_without_pass cfg);;
  match last chain with
  | Some backup => if check cfg then mret tt else delete_pass cfg backup
  | None => mret tt
  end.

End SynchronizerWords.

(** ** The order of the destructive steps in the words of the specification *)

(** The step can end the process only with a code in [P]. *)
Definition fails_only {S A} (P : elevel -> Prop) (m : M S A) : Prop :=
  forall s e s', m s = (Fatal e, s') -> P e.

(** The ways the restore proper can end the process, once the base backup
    is chosen. *)
Definition late_error (e : elevel) : Prop :=
  e = ERROR_PG_INCOMPATIBLE \/ e = ERROR_SYSTEM \/ e = ERROR_INTERRUPTED \/ e = SIGSEGV.

(** [backup_online_files] finds an earlier copy of the online WAL in the
    restore work area and keeps it instead of copying again. *)
Definition snapshot_reused (inp : inputs) (backup_tli : Z) (w : world) : bool :=
  negb (bool_decide (w_work_xlog w = ∅))
  && negb (negb (in_cur_tli inp =? 0) && negb (in_cur_tli inp =? backup_tli)).

(** ** The continuity check in the words of the specification *)

Section ContinuityWords.
Context `{Externals}.




End ContinuityWords.

(** The end boundary of the target timeline. *)
Definition max_lsn : XLogRecPtr := mkLSN UINT32_MAX UINT32_MAX.

(** Two neighbours of a list of timeline ids that do not increase. *)
Definition not_increasing (ids : list Z) : Prop :=
  exists l1 a b l2, ids = (l1 ++ a :: b :: l2)%list /\ b <= a.

(** ** An instance of the collaborators *)

(** The value of a digit in bases up to 36. *)
Definition digit_val (c : ascii) : option Z :=
  let n := Z.of_N (N_of_ascii c) in
  if (48 <=? n) && (n <=? 57) then Some (n - 48)
  else if (97 <=? n) && (n <=? 122) then Some (n - 87)
  else if (65 <=? n) && (n <=? 90) then Some (n - 55)
  else None.

Fixpoint read_digits (base : Z) (s : string) (acc : Z) (any : bool) : Z * string * bool :=
  match s with
  | EmptyString => (acc, s, any)
  | String c rest =>
      match digit_val c with
      | Some d => if d <? base then read_digits base rest (acc * base + d) true
                  else (acc, s, any)
      | None => (acc, s, any)
      end
  end.

Definition ULONG_MAX : Z := 18446744073709551615.

Definition is_hex_digit (c : ascii) : bool :=
  match digit_val c with Some d => d <? 16 | None => false end.

(** libc's [strtoul(s, &endptr, 0)] with a 64-bit [unsigned long]: white
    space, an optional sign, the base read off the prefix, the digits. *)
Definition strtoul_c (s : string) : option (Z * string) :=
  let s1 := skip_space s in
  let '(neg, s2) :=
    match s1 with
    | String c r => if (N_of_ascii c =? 45)%N then (true, r)
                    else if (N_of_ascii c =? 43)%N then (false, r)
                    else (false, s1)
    | EmptyString => (false, s1)
    end in
  let '(base, s3) :=
    match s2 with
    | String c0 (String x (String h r)) =>
        if (N_of_ascii c0 =? 48)%N then
          if ((N_of_ascii x =? 120)%N || (N_of_ascii x =? 88)%N) && is_hex_digit h
          then (16, String h r) else (8, s2)
        else (10, s2)
    | String c0 _ => if (N_of_ascii c0 =? 48)%N then (8, s2) else (10, s2)
    | EmptyString => (10, s2)
    end in
  let '(v, rest, any) := read_digits base s3 0 false in
  if any then
    Some (if ULONG_MAX <? v then ULONG_MAX
          else if neg then (ULONG_MAX + 1 - v) mod (ULONG_MAX + 1)
          else v, rest)
  else None.

(** [n] hexadecimal digits at the head of [s]. *)
Fixpoint read_hex (n : nat) (s : string) (acc : Z) : option (Z * string) :=
  match n with
  | O => Some (acc, s)
  | S n' =>
      match s with
      | EmptyString => None
      | String c rest =>
          match digit_val c with
          | Some d => if d <? 16 then read_hex n' rest (acc * 16 + d) else None
          | None => None
          end
      end
  end.

(** Modelled from the spec: a WAL file name is converted into an end
    position by the WAL naming convention, eight hexadecimal digits each for
    the timeline, the log id and the segment; the segment counts units of
    the segment size, here 16 MB. *)
Definition xlog_logfname2lsn_c (s : string) : option XLogRecPtr :=
  match read_hex 8 s 0 with
  | Some (_, s1) =>
      match read_hex 8 s1 0 with
      | Some (log, s2) =>
          match read_hex 8 s2 0 with
          | Some (seg, _) => Some (mkLSN log (to_uint32 (seg * 16777216)))
          | None => None
          end
      | None => None
      end
  | None => None
  end.

(** The collaborators used to run the model on examples, for a catalog kept
    under [backup_root]: files are copied whole, the contents of pg_xlog are
    left out of the deletion pass, every backup validates. *)
Definition externals_at (backup_root : string) : Externals := {|
  BLCKSZ := 8192;
  XLOG_BLCKSZ := 8192;
  XLogSegSize := 16777216;
  PROGRAM_VERSION := "1.1.2";
  pgBackupGetPath := fun backup sub =>
    backup_root ++ "/" ++ dec (start_time backup) ++ "/" ++ sub;
  strtoul := strtoul_c;
  xlog_logfname2lsn := xlog_logfname2lsn_c;
  restore_data_file_out := fun from _ _ => "copy of " ++ from;
  copy_file_out := fun from _ => "copy of " ++ from;
  pgdata_exclude := fun k => is_below PG_XLOG_DIR k;
  pgBackupValidate := fun backup =>
    match status backup with
    | BACKUP_STATUS_DONE => BACKUP_STATUS_OK
    | s => s
    end
|}.

#[local] Instance sample_externals : Externals := externals_at "/backup".

(** ** Sample data *)

(** A catalog entry with the given mode, status, timeline and stop
    position; nothing compressed, no files. *)
Definition sample_backup (m : BackupMode) (s : BackupStatus) (t stop : Z) : pgBackup :=
  mkBackup 0 m s t (mkLSN 0 0) (mkLSN 0 stop) 8192 8192 false true true [] [] [].

(** The catalog [FULL@tli1 stop=10 OK, INCR@tli1 stop=20 OK, FULL@tli1
    stop=5 OK], newest first, and a chain admitting timeline 1 up to 25. *)
Definition example_catalog : list pgBackup :=
  [ sample_backup BACKUP_MODE_FULL BACKUP_STATUS_OK 1 10;
    sample_backup BACKUP_MODE_INCREMENTAL BACKUP_STATUS_OK 1 20;
    sample_backup BACKUP_MODE_FULL BACKUP_STATUS_OK 1 5 ].

Definition example_chain : list pgTimeLine := [ mkTimeLine 1 (mkLSN 0 25) ].

(** A full backup that is compressed and carries database files. *)
Definition compressed_full : pgBackup :=
  mkBackup 0 BACKUP_MODE_FULL BACKUP_STATUS_OK 1 (mkLSN 0 0) (mkLSN 0 10)
           8192 8192 true true true [] [] [].

(** A catalog with the base at position 2, an incremental that failed at
    position 1 and a good one at position 0. *)
Definition example_catalog_incr : list pgBackup :=
  [ sample_backup BACKUP_MODE_INCREMENTAL BACKUP_STATUS_OK 1 20;
    sample_backup BACKUP_MODE_INCREMENTAL BACKUP_STATUS_ERROR 1 15;
    sample_backup BACKUP_MODE_FULL BACKUP_STATUS_OK 1 10 ].

(** A restore action that only records the stop position of the backup it
    is called with. *)
Definition record_restore (backup : pgBackup) : M (list Z) unit :=
  fun log => (Ok tt, (log ++ [xrecoff (stop_lsn backup)])%list).

Definition tab : string := String (ascii_of_N 9) EmptyString.

(** A history file with a comment, the records of timelines 1 and 2 and a
    blank line. *)
Definition example_history : string :=
  "# history of timeline 3" ++ nl
  ++ "1" ++ tab ++ "000000010000000000000005" ++ tab ++ "no recovery target specified" ++ nl
  ++ nl
  ++ "2" ++ tab ++ "00000002000000000000000A" ++ nl.

(** A history file whose ids go down. *)
Definition corrupted_history : string :=
  "2" ++ tab ++ "00000002000000000000000A" ++ nl
  ++ "1" ++ tab ++ "000000010000000000000005" ++ nl.



(** Settings of a run that restores for real, with every path set. *)
Definition sample_config : config :=
  mkConfig (Some "/pgdata") (Some "/arclog") (Some "/srvlog") "/backup"
           false false false true.

(** A full backup of the files base/1 and base/3. *)
Definition sample_full : pgBackup :=
  mkBackup 1 BACKUP_MODE_FULL BACKUP_STATUS_OK 1 (mkLSN 0 0) (mkLSN 0 10)
           8192 8192 false true true
           ["base"]
           [ mkFile "base" KDir 0 BYTES_INVALID;
             mkFile "base/1" KReg 10 10;
             mkFile "base/3" KReg 10 10 ]
           [].

(** An incremental backup taken after base/3 was dropped and base/2
    created: base/1 is listed as unchanged, base/2 is captured. *)
Definition sample_incr : pgBackup :=
  mkBackup 2 BACKUP_MODE_INCREMENTAL BACKUP_STATUS_OK 1 (mkLSN 0 0) (mkLSN 0 20)
           8192 8192 false true true
           ["base"]
           [ mkFile "base" KDir 0 BYTES_INVALID;
             mkFile "base/1" KReg 10 BYTES_INVALID;
             mkFile "base/2" KReg 10 10 ]
           [].

(** A destination as the full backup leaves it, with one more file in
    pg_xlog. *)
Definition sample_pgdata : tree :=
  {[ "base" := Dir;
     "base/1" := Reg "copy of /backup/1/database/base/1";
     "base/3" := Reg "copy of /backup/1/database/base/3";
     "pg_xlog/000000010000000000000001" := Reg "wal" ]}.

(** An incremental whose list also names base/9, as not captured. *)
Definition sample_incr_more : pgBackup :=
  mkBackup 2 BACKUP_MODE_INCREMENTAL BACKUP_STATUS_OK 1 (mkLSN 0 0) (mkLSN 0 20)
           8192 8192 false true true
           ["base"]
           [ mkFile "base" KDir 0 BYTES_INVALID;
             mkFile "base/1" KReg 10 BYTES_INVALID;
             mkFile "base/2" KReg 10 10;
             mkFile "base/9" KReg 10 BYTES_INVALID ]
           [].

(** A destination that holds base/9 and nothing else. *)
Definition sample_pgdata_stale : tree := {[ "base/9" := Reg "stale" ]}.

(** A backup of archived WAL: the history file of timeline 2 and one
    segment, both captured, not compressed. *)
Definition sample_archive : pgBackup :=
  mkBackup 3 BACKUP_MODE_ARCHIVE BACKUP_STATUS_OK 2 (mkLSN 0 0) (mkLSN 0 30)
           8192 8192 false false true
           [] []
           [ mkFile "00000002.history" KReg 40 40;
             mkFile "000000020000000000000001" KReg 16777216 16777216 ].

(** What a run finds: the lock is free, the server is stopped, the catalog
    holds the sample full backup, the cluster is on timeline 1 and the
    history file of timeline 1 kept under $BACKUP_PATH has ids that go
    down. *)
Definition sample_inputs_corrupted : inputs :=
  mkInputs 0 false [sample_full] 1 ∅ {[ "00000001.history" := Reg corrupted_history ]}.

(** A cluster with a live WAL segment, and a restore work area that holds
    the copy an earlier run made. *)
Definition sample_world_live : world :=
  mkWorld {[ "base" := Dir;
             "base/1" := Reg "data";
             "pg_xlog/000000010000000000000007" := Reg "live wal" ]}
          ∅
          {[ "000000010000000000000003" := Reg "saved earlier" ]}
          ∅
          [].

(** The same cluster with an empty restore work area. *)
Definition sample_world_fresh : world :=
  mkWorld {[ "base" := Dir;
             "base/1" := Reg "data";
             "pg_xlog/000000010000000000000007" := Reg "live wal" ]}
          ∅ ∅ ∅ [].

(* ===================================================================== *)
(** * Words for further properties of the code                            *)
(* ===================================================================== *)

Section CatalogWords.
Context `{Externals}.

(** A full backup at which the scan of [get_fullbackup_timeline] stops: its
    status is OK, or it is DONE and validation finds it OK. *)
Definition usable_full (backup : pgBackup) : bool :=
  negb (mode_lt (backup_mode backup) BACKUP_MODE_FULL)
  && (bool_decide (status backup = BACKUP_STATUS_OK)
      || (bool_decide (status backup = BACKUP_STATUS_DONE)
          && bool_decide (pgBackupValidate backup = BACKUP_STATUS_OK))).

(** What the scan leaves of an entry it passes: a full backup that is DONE
    has been validated, any other entry is as it was. *)
Definition passed (backup : pgBackup) : pgBackup :=
  if negb (mode_lt (backup_mode backup) BACKUP_MODE_FULL)
     && bool_decide (status backup = BACKUP_STATUS_DONE)
  then validated backup else backup.

End CatalogWords.

(** The sample settings in check mode. *)
Definition sample_config_check : config :=
  mkConfig (Some "/pgdata") (Some "/arclog") (Some "/srvlog") "/backup"
           true false false true.

Section ArchiveWords.
Context `{Externals}.

(** The entry of a backup's list of archived WAL that [restore_archive_logs]
    puts into $ARCLOG_PATH: its content was captured, and the test of lines
    508-509 on its stored path does not take it for a history file. *)
Definition is_archived (backup : pgBackup) (e : pgFile) : bool :=
  negb (write_size e =? BYTES_INVALID)
  && negb (is_history_file
             (join_path_components (pgBackupGetPath backup ARCLOG_DIR) (path e))).

(** The names, below $ARCLOG_PATH, of these entries. *)
Definition archived_keys (backup : pgBackup) : list string :=
  path <$> List.filter (is_archived backup) (arclog_file_list backup).

(** What [restore_archive_logs] puts at the name [k]: the decompressed file
    when the backup is compressed, else a link to the stored file. *)
Definition archived_node (backup : pgBackup) (k : string) : node :=
  let stored := join_path_components (pgBackupGetPath backup ARCLOG_DIR) k in
  if compress_data backup then Reg (copy_file_out stored DECOMPRESSION) else Lnk stored.

End ArchiveWords.

(** ** The archived WAL of the chain in words *)

(** A backup whose archived WAL the loop of lines 216-240 restores: its
    status is OK, it carries archived WAL, and the chain admits it.  Its
    mode and its timeline are not asked for. *)
Definition archive_match (tls : list pgTimeLine) (backup : pgBackup) : bool :=
  bool_decide (status backup = BACKUP_STATUS_OK)
  && have_arclog backup
  && satisfy_timeline tls backup.

(** The backups selected among the positions [n-1, ..., 0], in that
    order. *)
Definition selected_archives (tls : list pgTimeLine) (backups : list pgBackup) (n : nat)
    : list pgBackup :=
  omap (fun i => match backups !! i with
                 | Some backup => if archive_match tls backup then Some backup else None
                 | None => None
                 end)
       (positions_below n).

(** ** What a step leaves alone *)

(** Whatever its outcome, the step takes a state to one related by [R]. *)
Definition preserves {S A} (R : S -> S -> Prop) (m : M S A) : Prop :=
  forall s r s', m s = (r, s') -> R s s'.

(** From [w] to [w'] nothing was written but, possibly, postmaster.pid
    removed from $PGDATA; the standard output is not looked at. *)
Definition nothing_but_pid (w w' : world) : Prop :=
  (w_pgdata w' = w_pgdata w \/ w_pgdata w' = delete "postmaster.pid" (w_pgdata w))
  /\ w_arclog w' = w_arclog w
  /\ w_work_xlog w' = w_work_xlog w
  /\ w_work_srvlog w' = w_work_srvlog w.

(** What a run finds: the lock is free, the server is stopped, the catalog
    holds the sample incremental above the sample full backup, the cluster
    is on timeline 1, and there is no history file. *)
Definition sample_inputs : inputs :=
  mkInputs 0 false [sample_incr; sample_full] 1 ∅ ∅.

(** A stopped cluster that still has its postmaster.pid. *)
Definition sample_world_stopped : world :=
  mkWorld {[ "base" := Dir;
             "base/1" := Reg "data";
             "postmaster.pid" := Reg "4242";
             "pg_xlog/000000010000000000000007" := Reg "live wal" ]}
          ∅ ∅ ∅ [].

(** ** The target of the recovery in words *)

(** The timeline the recovery is aimed at: the one asked for; when none is
    asked for (0), the one the cluster is on; when that is not known (0),
    the one of the latest full backup. *)
Definition resolved_target (target_tli cur_tli backup_tli : Z) : Z :=
  if decide (target_tli <> 0) then target_tli
  else if decide (cur_tli <> 0) then cur_tli
  else backup_tli.

(** From [w] to [w'] the restore work area was not written. *)
Definition same_work_area (w w' : world) : Prop :=
  w_work_xlog w' = w_work_xlog w /\ w_work_srvlog w' = w_work_srvlog w.

(** ** The ways a run ends, in words *)

(** The step can return [a]. *)
Definition returns {S A} (m : M S A) (a : A) : Prop :=
  exists s s', m s = (Ok a, s').

(** The ways a restore or a copy of archived WAL ends the process. *)
Definition stop_error (e : elevel) : Prop :=
  e = ERROR_PG_INCOMPATIBLE \/ e = ERROR_SYSTEM \/ e = ERROR_INTERRUPTED.

(** The ways [do_restore] ends the process once it has the lock and knows
    the server is stopped. *)
Definition restore_error (e : elevel) : Prop :=
  e = ERROR_NO_BACKUP \/ e = ERROR_CORRUPTED \/ e = EXIT_NOT_SUPPORTED \/ stop_error e.

(** The three paths every run needs are set. *)
Definition paths_set (cfg : config) : Prop :=
  pgdata cfg <> None /\ arclog_path cfg <> None /\ srvlog_path cfg <> None.


(* ===================================================================== *)
(** * Part II: properties                                                 *)
(* ===================================================================== *)

(** ** Outcomes *)

Lemma bind_ok {S A B} (m : M S A) (k : A -> M S B) s a s' :
  m s = (Ok a, s') -> (m ≫= k) s = k a s'.
Proof. intros Hm. unfold mbind, M_bind. by rewrite Hm. Qed.

Lemma bind_fatal {S A B} (m : M S A) (k : A -> M S B) s e s' :
  m s = (Fatal e, s') -> (m ≫= k) s = (Fatal e, s').
Proof. intros Hm. unfold mbind, M_bind. by rewrite Hm. Qed.

Lemma bind_inv_ok {S A B} (m : M S A) (k : A -> M S B) s b s2 :
  (m ≫= k) s = (Ok b, s2) ->
  exists a s1, m s = (Ok a, s1) /\ k a s1 = (Ok b, s2).
Proof.
  unfold mbind, M_bind. destruct (m s) as [[a|e|] s1]; intros Hk; try discriminate.
  by exists a, s1.
Qed.

Lemma forM_app {S A} (l1 l2 : list A) (body : A -> M S unit) s :
  forM (l1 ++ l2) body s = (forM l1 body;; forM l2 body) s.
Proof.
  revert s. induction l1 as [|x l1 IH]; intros s; simpl.
  - reflexivity.
  - unfold mbind, M_bind. destruct (body x s) as [[[]|e|] s1]; try reflexivity.
    apply IH.
Qed.

(** ** Timeline satisfaction *)

Lemma XLByteLT_spec a b : XLByteLT a b = true <-> lsn_lt a b.
Proof.
  unfold XLByteLT, lsn_lt.
  rewrite orb_true_iff, andb_true_iff, !Z.ltb_lt, Z.eqb_eq. tauto.
Qed.

Lemma satisfy_timeline_spec tls backup :
  satisfy_timeline tls backup = true <-> timeline_satisfied tls backup.
Proof.
  unfold timeline_satisfied. induction tls as [|t tls IH]; simpl.
  - split; [discriminate|]. intros (t & Hin & _). by apply elem_of_nil in Hin.
  - destruct (tli backup =? tl_tli t) eqn:Htli; simpl.
    + destruct (XLByteLT (stop_lsn backup) (tl_end t)) eqn:Hlt.
      * split; [|done]. intros _. exists t. split; [left|].
        split; [by apply Z.eqb_eq | by apply XLByteLT_spec].
      * rewrite IH. split.
        -- intros (t' & Hin & Ht'). exists t'. split; [by right | done].
        -- intros (t' & Hin & Ht1 & Ht2). apply elem_of_cons in Hin as [->|Hin].
           ++ apply XLByteLT_spec in Ht2. congruence.
           ++ by exists t'.
    + rewrite IH. split.
      * intros (t' & Hin & Ht'). exists t'. split; [by right | done].
      * intros (t' & Hin & Ht1 & Ht2). apply elem_of_cons in Hin as [->|Hin].
        -- apply Z.eqb_neq in Htli. congruence.
        -- by exists t'.
Qed.

(** ** The base backup *)

Lemma full_and_ok_spec backup :
  mode_lt (backup_mode backup) BACKUP_MODE_FULL
  || status_ne (status backup) BACKUP_STATUS_OK = false
  <-> full_and_ok backup.
Proof.
  unfold full_and_ok, mode_lt, status_ne.
  rewrite orb_false_iff, Z.ltb_ge, negb_false_iff, bool_decide_eq_true. tauto.
Qed.

Lemma needs_missing_zlib_spec have_libz backup :
  negb have_libz && (compress_data backup && (have_database backup || have_arclog backup))
  = true <-> needs_missing_zlib have_libz backup.
Proof.
  unfold needs_missing_zlib.
  rewrite !andb_true_iff, orb_true_iff, negb_true_iff. tauto.
Qed.

(** What the scan from position [i0] returns, read off the entries it
    passes. *)
Lemma find_base_backup_from have_libz tls rest : forall i0,
  match find_base_backup have_libz tls i0 rest with
  | Ok (i, b) =>
      exists j, i = (i0 + j)%nat /\ rest !! j = Some b
        /\ full_and_ok b /\ timeline_satisfied tls b /\ ~ needs_missing_zlib have_libz b
        /\ forall j' b', (j' < j)%nat -> rest !! j' = Some b' -> full_and_ok b' ->
             ~ timeline_satisfied tls b' /\ ~ needs_missing_zlib have_libz b'
  | Fatal e =>
      (e = EXIT_NOT_SUPPORTED /\
       exists j b, rest !! j = Some b /\ full_and_ok b /\ needs_missing_zlib have_libz b
         /\ forall j' b', (j' < j)%nat -> rest !! j' = Some b' -> full_and_ok b' ->
              ~ timeline_satisfied tls b' /\ ~ needs_missing_zlib have_libz b')
      \/ (e = ERROR_NO_BACKUP /\
          forall j b, rest !! j = Some b -> full_and_ok b ->
            ~ timeline_satisfied tls b /\ ~ needs_missing_zlib have_libz b)
  | OutOfFuel => False
  end.
Proof.
  assert (Hshift : forall (P : pgBackup -> Prop) (b : pgBackup) (rest : list pgBackup) j,
            (full_and_ok b -> P b) ->
            (forall j' b', (j' < j)%nat -> rest !! j' = Some b' -> full_and_ok b' -> P b') ->
            forall j' b', (j' < S j)%nat -> (b :: rest) !! j' = Some b' -> full_and_ok b' -> P b').
  { intros P b0 l j Hb Hbefore [|j'] b' Hlt Hl Hfo; simpl in Hl.
    - simplify_eq. by apply Hb.
    - apply (Hbefore j'); [lia|done..]. }
  assert (Hshift_all : forall (P : pgBackup -> Prop) (b : pgBackup) (rest : list pgBackup),
            (full_and_ok b -> P b) ->
            (forall j b', rest !! j = Some b' -> full_and_ok b' -> P b') ->
            forall j b', (b :: rest) !! j = Some b' -> full_and_ok b' -> P b').
  { intros P b0 l Hb Hall [|j] b' Hl Hfo; simpl in Hl.
    - simplify_eq. by apply Hb.
    - by apply (Hall j). }
  induction rest as [|b rest IH]; intros i0; simpl.
  - right. split; [done|]. intros j b Hj. by rewrite lookup_nil in Hj.
  - assert (Hrec : (full_and_ok b ->
                    ~ timeline_satisfied tls b /\ ~ needs_missing_zlib have_libz b) ->
              match find_base_backup have_libz tls (S i0) rest with
              | Ok (i, b0) =>
                  exists j, i = (i0 + j)%nat /\ (b :: rest) !! j = Some b0
                    /\ full_and_ok b0 /\ timeline_satisfied tls b0
                    /\ ~ needs_missing_zlib have_libz b0
                    /\ forall j' b', (j' < j)%nat -> (b :: rest) !! j' = Some b' ->
                         full_and_ok b' ->
                         ~ timeline_satisfied tls b' /\ ~ needs_missing_zlib have_libz b'
              | Fatal e =>
                  (e = EXIT_NOT_SUPPORTED /\
                   exists j b0, (b :: rest) !! j = Some b0 /\ full_and_ok b0
                     /\ needs_missing_zlib have_libz b0
                     /\ forall j' b', (j' < j)%nat -> (b :: rest) !! j' = Some b' ->
                          full_and_ok b' ->
                          ~ timeline_satisfied tls b' /\ ~ needs_missing_zlib have_libz b')
                  \/ (e = ERROR_NO_BACKUP /\
                      forall j b0, (b :: rest) !! j = Some b0 -> full_and_ok b0 ->
                        ~ timeline_satisfied tls b0 /\ ~ needs_missing_zlib have_libz b0)
              | OutOfFuel => False
              end).
    { intros Hb. specialize (IH (S i0)).
      destruct (find_base_backup have_libz tls (S i0) rest) as [[i b0]|e|]; [| |done].
      - destruct IH as (j & -> & Hj & Hf & Hs & Hz & Hbefore).
        exists (S j). split; [lia|]. split; [done|]. split; [done|]. split; [done|].
        split; [done|]. by apply Hshift.
      - destruct IH as [(-> & j & b0 & Hj & Hf & Hz & Hbefore)|(-> & Hall)].
        + left. split; [done|]. exists (S j), b0. split; [done|]. split; [done|].
          split; [done|]. by apply Hshift.
        + right. split; [done|]. by apply Hshift_all. }
    destruct (mode_lt (backup_mode b) BACKUP_MODE_FULL
              || status_ne (status b) BACKUP_STATUS_OK) eqn:Hcand.
    { apply Hrec. intros Hfo. apply full_and_ok_spec in Hfo. congruence. }
    apply full_and_ok_spec in Hcand.
    destruct (negb have_libz && (compress_data b && (have_database b || have_arclog b)))
      eqn:Hz.
    { left. split; [done|]. exists 0%nat, b. apply needs_missing_zlib_spec in Hz.
      split; [done|]. split; [done|]. split; [done|]. intros j' b' Hlt. lia. }
    assert (Hnz : ~ needs_missing_zlib have_libz b).
    { rewrite <- needs_missing_zlib_spec. congruence. }
    destruct (satisfy_timeline tls b) eqn:Hsat.
    { exists 0%nat. apply satisfy_timeline_spec in Hsat.
      split; [lia|]. split; [done|]. split; [done|]. split; [done|]. split; [done|].
      intros j' b' Hlt. lia. }
    apply Hrec. intros _. split; [|done].
    rewrite <- satisfy_timeline_spec. congruence.
Qed.

(** C1, as amended.  Scanning the catalog from index 0 upward,
    [find_base_backup] skips every entry whose mode is below FULL or whose
    status is not OK.  Among the remaining entries, the first one that is
    timeline-satisfied (some chain entry has its [tli] and an end boundary
    strictly greater than its [stop_lsn]) or that the build cannot read
    (compressed, with database or archive files, in a build without
    [HAVE_LIBZ]) decides: the former is accepted as base, the latter ends
    the restore with the not-supported error; when there is no such entry
    the restore fails with the no-usable-backup error.  For the catalog
    [FULL@tli1 stop=10 OK, INCR@tli1 stop=20 OK, FULL@tli1 stop=5 OK], not
    compressed, and a chain admitting timeline 1 up to 25, the FULL with
    stop=10 at index 0 is chosen in either build. *)
Theorem base_backup_selection (have_libz : bool) (tls : list pgTimeLine)
    (backups : list pgBackup) :
  match find_base_backup have_libz tls 0 backups with
  | Ok (i, b) =>
      backups !! i = Some b
      /\ full_and_ok b /\ timeline_satisfied tls b /\ ~ needs_missing_zlib have_libz b
      /\ forall j b', (j < i)%nat -> backups !! j = Some b' -> full_and_ok b' ->
           ~ timeline_satisfied tls b' /\ ~ needs_missing_zlib have_libz b'
  | Fatal e =>
      (e = EXIT_NOT_SUPPORTED /\
       exists i b, backups !! i = Some b /\ full_and_ok b /\ needs_missing_zlib have_libz b
         /\ forall j b', (j < i)%nat -> backups !! j = Some b' -> full_and_ok b' ->
              ~ timeline_satisfied tls b' /\ ~ needs_missing_zlib have_libz b')
      \/ (e = ERROR_NO_BACKUP /\
          forall i b, backups !! i = Some b -> full_and_ok b ->
            ~ timeline_satisfied tls b /\ ~ needs_missing_zlib have_libz b)
  | OutOfFuel => False
  end
  /\ find_base_backup have_libz example_chain 0 example_catalog
     = Ok (0%nat, sample_backup BACKUP_MODE_FULL BACKUP_STATUS_OK 1 10).
Proof.
  split.
  - pose proof (find_base_backup_from have_libz tls backups 0) as Hfrom.
    destruct (find_base_backup have_libz tls 0 backups) as [[i b]|e|]; [|done..].
    destruct Hfrom as (j & -> & Hrest). exact Hrest.
  - by destruct have_libz.
Qed.

(** C1 as stated fails in a build without [HAVE_LIBZ]: the only entry of
    the catalog is a full backup, OK and timeline-satisfied, yet it is not
    accepted, and the restore does not end with the no-usable-backup error
    either: the entry is compressed and the guard of lines 148-156 ends the
    restore with the not-supported error. *)
Lemma base_backup_selection_without_zlib :
  [compressed_full] !! 0%nat = Some compressed_full
  /\ full_and_ok compressed_full
  /\ timeline_satisfied example_chain compressed_full
  /\ find_base_backup false example_chain 0 [compressed_full] = Fatal EXIT_NOT_SUPPORTED.
Proof.
  split; [done|]. split; [by split|]. split; [|done].
  by apply satisfy_timeline_spec.
Qed.

(** ** The incremental backups *)

Lemma positions_below_S b : positions_below (S b) = b :: positions_below b.
Proof. unfold positions_below. by rewrite seq_S, rev_app_distr. Qed.

Lemma elem_of_positions_below b i : i ∈ positions_below b <-> (i < b)%nat.
Proof.
  unfold positions_below. rewrite list_elem_of_In, <- in_rev, in_seq. lia.
Qed.

Lemma incremental_match_spec tls base_backup backup :
  incremental_match tls base_backup backup = true <->
  mode_rank BACKUP_MODE_INCREMENTAL <= mode_rank (backup_mode backup)
  /\ status backup = BACKUP_STATUS_OK
  /\ tli backup = tli base_backup
  /\ timeline_satisfied tls backup.
Proof.
  unfold incremental_match, mode_lt.
  rewrite !andb_true_iff, negb_true_iff, Z.ltb_ge, bool_decide_eq_true, Z.eqb_eq,
    satisfy_timeline_spec. tauto.
Qed.

(** The three tests of the loop body skip exactly the entries that do not
    match. *)
Lemma incremental_match_tests tls base_backup backup :
  incremental_match tls base_backup backup
  = negb (status_ne (status backup) BACKUP_STATUS_OK || negb (tli backup =? tli base_backup))
    && negb (mode_lt (backup_mode backup) BACKUP_MODE_INCREMENTAL)
    && negb (negb (satisfy_timeline tls backup)).
Proof.
  unfold incremental_match, status_ne.
  destruct (mode_lt _ _), (bool_decide _), (tli backup =? tli base_backup),
    (satisfy_timeline tls backup); reflexivity.
Qed.

Lemma last_restored_cons ib sel b : last_restored (ib :: sel) b = last_restored sel ib.1.
Proof. unfold last_restored. rewrite last_cons. by destruct (last sel). Qed.

Lemma selected_incrementals_S tls backups base_backup b :
  selected_incrementals tls backups base_backup (S b)
  = match backups !! b with
    | Some backup =>
        if incremental_match tls base_backup backup
        then (b, backup) :: selected_incrementals tls backups base_backup b
        else selected_incrementals tls backups base_backup b
    | None => selected_incrementals tls backups base_backup b
    end.
Proof.
  unfold selected_incrementals. rewrite positions_below_S. simpl.
  destruct (backups !! b) as [backup|]; [|done].
  by destruct (incremental_match tls base_backup backup).
Qed.

(** The selection reads the catalog below the base only. *)
Lemma selected_incrementals_ext tls (l1 l2 : list pgBackup) base_backup b :
  (forall j, (j < b)%nat -> l1 !! j = l2 !! j) ->
  selected_incrementals tls l1 base_backup b = selected_incrementals tls l2 base_backup b.
Proof.
  induction b as [|b IH]; intros Hsame; [done|].
  rewrite !selected_incrementals_S.
  rewrite IH by (intros j Hj; apply Hsame; lia).
  by rewrite (Hsame b) by lia.
Qed.

(** The loop is the sequence of restores of the selected entries. *)
Lemma restore_incrementals_run `{Externals} {W} (restore : pgBackup -> M W unit)
    tls base_backup :
  forall n last_restored_index backups w, (n <= length backups)%nat ->
  restore_incrementals restore tls base_backup n last_restored_index backups w
  = (forM (selected_incrementals tls backups base_backup n).*2 restore;;
     mret (last_restored (selected_incrementals tls backups base_backup n)
                         last_restored_index,
           catalog_after (selected_incrementals tls backups base_backup n) backups)) w.
Proof.
  induction n as [|i IH]; intros lri backups w Hn.
  - reflexivity.
  - simpl. rewrite selected_incrementals_S.
    destruct (lookup_lt_is_Some_2 backups i) as [backup Hi]; [lia|]. rewrite Hi.
    rewrite (incremental_match_tests tls base_backup backup).
    destruct (status_ne (status backup) BACKUP_STATUS_OK
              || negb (tli backup =? tli base_backup)); simpl; [apply IH; lia|].
    destruct (mode_lt (backup_mode backup) BACKUP_MODE_INCREMENTAL); simpl; [apply IH; lia|].
    destruct (satisfy_timeline tls backup); simpl; [|apply IH; lia].
    rewrite last_restored_cons. simpl.
    rewrite <- (selected_incrementals_ext tls (<[i := validated backup]> backups) backups)
      by (intros j Hj; apply list_lookup_insert_ne; lia).
    unfold mbind, M_bind in IH |- *.
    destruct (restore backup w) as [[[]|e|] w1]; try reflexivity.
    apply IH. rewrite length_insert. lia.
Qed.

Lemma elem_of_selected_incrementals tls backups base_backup b i x :
  (i, x) ∈ selected_incrementals tls backups base_backup b <->
  (i < b)%nat /\ backups !! i = Some x /\ incremental_match tls base_backup x = true.
Proof.
  unfold selected_incrementals. rewrite list_elem_of_omap. split.
  - intros (j & Hj & Hsel). apply elem_of_positions_below in Hj.
    destruct (backups !! j) as [y|] eqn:Hy; [|done].
    destruct (incremental_match tls base_backup y) eqn:Hm; [|done].
    by simplify_eq.
  - intros (Hlt & Hi & Hm). exists i. split; [by apply elem_of_positions_below|].
    by rewrite Hi, Hm.
Qed.

(** The selected positions come in descending order. *)
Lemma selected_incrementals_descending tls backups base_backup b :
  StronglySorted (fun i j => (j < i)%nat)
                 (selected_incrementals tls backups base_backup b).*1
  /\ Forall (fun i => (i < b)%nat) (selected_incrementals tls backups base_backup b).*1.
Proof.
  induction b as [|b [IHs IHf]].
  - split; constructor.
  - rewrite selected_incrementals_S.
    assert (Hweak : Forall (fun i => (i < S b)%nat)
                      (selected_incrementals tls backups base_backup b).*1).
    { eapply Forall_impl; [exact IHf|]. simpl. lia. }
    destruct (backups !! b) as [backup|]; [|done].
    destruct (incremental_match tls base_backup backup); [|done].
    simpl. split; constructor; try done. lia.
Qed.

Lemma last_of_descending (l : list nat) m :
  StronglySorted (fun i j => (j < i)%nat) l -> last l = Some m ->
  forall i, i ∈ l -> (m <= i)%nat.
Proof.
  induction 1 as [|x l Hs IH Hall]; intros Hlast i Hi.
  - by apply elem_of_nil in Hi.
  - rewrite last_cons in Hlast. destruct (last l) as [y|] eqn:Hy.
    + simplify_eq. apply elem_of_cons in Hi as [->|Hi]; [|by apply IH].
      assert (Hm : m ∈ l) by (by apply last_Some_elem_of).
      rewrite Forall_forall in Hall. specialize (Hall m Hm). lia.
    + apply last_None in Hy. subst l. simplify_eq.
      apply elem_of_cons in Hi as [->|Hi]; [lia|]. by apply elem_of_nil in Hi.
Qed.

Lemma last_restored_fst sel b :
  last_restored sel b = default b (last sel.*1).
Proof. unfold last_restored. rewrite fmap_last. by destruct (last sel). Qed.

(** C2.  With the base backup at catalog position [b], the loop walks the
    positions [b-1, b-2, ..., 0] in that order and calls [restore_database]
    on exactly the entries whose mode is INCREMENTAL or above, whose status
    is OK, whose [tli] is the base backup's and which are
    timeline-satisfied; every other entry is passed over without error.
    The last restored index ends as the smallest matching position, or [b]
    when nothing matched.  An entry whose status is not OK is never
    selected. *)
Theorem incremental_selection `{Externals} {W : Type} (restore : pgBackup -> M W unit)
    (tls : list pgTimeLine) (backups : list pgBackup) (base_backup : pgBackup) (b : nat) :
  backups !! b = Some base_backup ->
  let sel := selected_incrementals tls backups base_backup b in
  (forall w, restore_incrementals restore tls base_backup b b backups w
             = (forM sel.*2 restore;;
                mret (last_restored sel b, catalog_after sel backups)) w)
  /\ (forall i x, (i, x) ∈ sel <->
        (i < b)%nat /\ backups !! i = Some x
        /\ mode_rank BACKUP_MODE_INCREMENTAL <= mode_rank (backup_mode x)
        /\ status x = BACKUP_STATUS_OK
        /\ tli x = tli base_backup
        /\ timeline_satisfied tls x)
  /\ StronglySorted (fun i j => (j < i)%nat) sel.*1
  /\ (sel = [] -> last_restored sel b = b)
  /\ (sel <> [] -> last_restored sel b ∈ sel.*1)
  /\ (forall i, i ∈ sel.*1 -> (last_restored sel b <= i)%nat)
  /\ (forall i x, status x <> BACKUP_STATUS_OK -> (i, x) ∉ sel).
Proof.
  intros Hb sel.
  assert (Hmem : forall i x, (i, x) ∈ sel <->
            (i < b)%nat /\ backups !! i = Some x
            /\ mode_rank BACKUP_MODE_INCREMENTAL <= mode_rank (backup_mode x)
            /\ status x = BACKUP_STATUS_OK
            /\ tli x = tli base_backup
            /\ timeline_satisfied tls x).
  { intros i x. unfold sel. rewrite elem_of_selected_incrementals, incremental_match_spec.
    tauto. }
  destruct (selected_incrementals_descending tls backups base_backup b) as [Hsorted _].
  split; [|split; [exact Hmem|split; [exact Hsorted|]]].
  - intros w. apply restore_incrementals_run.
    apply lookup_lt_Some in Hb. lia.
  - split; [by intros ->|]. split; [|split].
    + intros Hne. rewrite last_restored_fst.
      destruct (last sel.*1) as [m|] eqn:Hlast.
      * simpl. by apply last_Some_elem_of.
      * apply last_None in Hlast. by apply fmap_nil_inv in Hlast.
    + intros i Hi. rewrite last_restored_fst.
      destruct (last sel.*1) as [m|] eqn:Hlast; simpl.
      * by apply (last_of_descending sel.*1).
      * apply last_None in Hlast. rewrite Hlast in Hi. by apply elem_of_nil in Hi.
    + intros i x Hst Hin. apply Hmem in Hin. tauto.
Qed.

(** The statement of C2 at the sample catalog: the base at position 2, the
    failed incremental at position 1 passed over, the one at position 0
    restored. *)
Lemma incremental_selection_witness :
  example_catalog_incr !! 2%nat
  = Some (sample_backup BACKUP_MODE_FULL BACKUP_STATUS_OK 1 10)
  /\ restore_incrementals record_restore example_chain
       (sample_backup BACKUP_MODE_FULL BACKUP_STATUS_OK 1 10) 2 2 example_catalog_incr []
     = (Ok (0%nat, example_catalog_incr), [20]).
Proof.
  split; [reflexivity|].
  pose proof (incremental_selection record_restore example_chain example_catalog_incr
                (sample_backup BACKUP_MODE_FULL BACKUP_STATUS_OK 1 10) 2 eq_refl) as Hsel.
  destruct Hsel as [Hrun _]. rewrite Hrun. reflexivity.
Defined.

(** ** Timeline history *)

Section History.
Context `{Externals}.

Lemma parse_history_line_step fline st :
  parse_history_line fline st = step_line (classify_line fline) st.
Proof.
  unfold parse_history_line, classify_line, step_line.
  destruct (at_end_or_comment (skip_space (c_str fline))); [done|].
  destruct (strtoul (skip_space (c_str fline))) as [[v endptr]|]; [|done].
  destruct (at_end_or_comment (skip_space endptr)).
  { by destruct st.2 as [l|]; [destruct (to_uint32 v <=? tl_tli l)|]. }
  destruct (xlog_logfname2lsn (skip_space endptr)) as [e|]; [done|].
  by destruct st.2 as [l|]; [destruct (to_uint32 v <=? tl_tli l)|].
Qed.

Lemma parse_history_lines_run chunks st :
  parse_history_lines chunks st = run_lines (map classify_line chunks) st.
Proof.
  revert st. induction chunks as [|fline chunks IH]; intros st; simpl; [done|].
  rewrite parse_history_line_step.
  by destruct (step_line (classify_line fline) st) as [st'|e|].
Qed.

(** Blank lines and comments do not count. *)
Lemma run_lines_filter ks st :
  run_lines ks st = run_lines (List.filter (fun k => negb (is_skipped k)) ks) st.
Proof.
  revert st. induction ks as [|k ks IH]; intros st; simpl; [done|].
  destruct k; simpl; [apply IH| |]; try done.
  destruct (match st.2 with Some l => tli0 <=? tl_tli l | None => false end); [done|].
  apply IH.
Qed.

Lemma parse_history_lines_history content st :
  parse_history_lines (history_chunks content) st = run_lines (history_lines content) st.
Proof. unfold history_lines. by rewrite parse_history_lines_run, run_lines_filter. Qed.

Definition desc (a b : Z) : Prop := b < a.

(** What the loop leaves when it ends: the records in reverse order on top
    of what was there, ids descending from the head. *)
Lemma run_lines_inv ks : forall st,
  st.2 = head st.1 -> Sorted desc (map tl_tli st.1) ->
  match run_lines ks st with
  | Ok st' =>
      st'.2 = head st'.1 /\ Sorted desc (map tl_tli st'.1)
      /\ st'.1 = (rev (records_of ks) ++ st.1)%list
      /\ Forall (fun k => is_malformed k = false) ks
  | Fatal e => e = ERROR_CORRUPTED
  | OutOfFuel => False
  end.
Proof.
  induction ks as [|k ks IH]; intros [r l] Hl Hs; simpl in *.
  - by repeat split.
  - destruct k as [|id|t e]; simpl.
    + specialize (IH (r, l) Hl Hs). simpl in IH.
      destruct (run_lines ks (r, l)) as [st'|e|]; [|done..].
      destruct IH as (? & ? & ? & ?). repeat split; try done. by constructor.
    + done.
    + destruct (match l with Some lt => t <=? tl_tli lt | None => false end) eqn:Hchk; [done|].
      assert (Hs' : Sorted desc (map tl_tli (mkTimeLine t e :: r))).
      { simpl. constructor; [done|]. subst l. destruct r as [|x r]; simpl; constructor.
        unfold desc. simpl in Hchk. lia. }
      specialize (IH (mkTimeLine t e :: r, Some (mkTimeLine t e)) eq_refl Hs'). simpl in IH.
      destruct (run_lines ks _) as [st'|e'|]; [|done..].
      destruct IH as (? & ? & Heq & ?). repeat split; try done.
      * rewrite Heq. by rewrite <- app_assoc.
      * by constructor.
Qed.

Lemma Sorted_desc_not_increasing (ids : list Z) :
  Sorted desc (rev ids) -> ~ not_increasing ids.
Proof.
  intros Hs (l1 & a & b & l2 & -> & Hle).
  apply Sorted_StronglySorted in Hs; [|intros x y z; unfold desc; lia].
  rewrite rev_app_distr in Hs. simpl in Hs. rewrite <- !app_assoc in Hs. simpl in Hs.
  apply StronglySorted_app_1_r in Hs.
  apply StronglySorted_inv in Hs as [_ Hall].
  rewrite Forall_forall in Hall. specialize (Hall a). unfold desc in Hall.
  assert (a < b); [|lia]. apply Hall. left.
Qed.

(** The resolver on a file that was opened: a chain, or the
    corrupted-history error. *)
Lemma parse_history_inv content targetTLI :
  match parse_history (Some content) targetTLI with
  | Ok chain =>
      chain = mkTimeLine targetTLI max_lsn :: rev (records_of (history_lines content))
      /\ Forall (fun k => is_malformed k = false) (history_lines content)
      /\ Sorted desc (map tl_tli chain)
  | Fatal e => e = ERROR_CORRUPTED
  | OutOfFuel => False
  end.
Proof.
  unfold parse_history. rewrite parse_history_lines_history.
  pose proof (run_lines_inv (history_lines content) ([], None) eq_refl) as Hinv.
  simpl in Hinv. specialize (Hinv (Sorted_nil _)).
  destruct (run_lines (history_lines content) ([], None)) as [[r l]|e|]; [|done..].
  simpl in Hinv. destruct Hinv as (Hl & Hs & Hr & Hwf). rewrite app_nil_r in Hr.
  destruct (match l with Some lt => targetTLI <=? tl_tli lt | None => false end) eqn:Hchk;
    [done|].
  split; [by rewrite Hr|]. split; [done|].
  simpl. constructor; [done|]. subst l. destruct r as [|x r]; simpl; constructor.
  unfold desc. simpl in Hchk. lia.
Qed.

Lemma ids_of_records ks :
  Forall (fun k => is_malformed k = false) ks -> ids_of ks = map tl_tli (records_of ks).
Proof.
  induction 1 as [|k ks Hk _ IH]; [done|].
  destruct k; simpl in *; [done|done|]. by rewrite IH.
Qed.

Lemma max_lsn_eq : mkLSN (to_uint32 (-1)) (to_uint32 (-1)) = max_lsn.
Proof. reflexivity. Qed.

(** C4.  For every history file whose lines, blank lines and comments
    aside, are the records (1, X) and (2, Y), found in $ARCLOG_PATH or else
    in the restore work directory, resolving timeline 3 yields a chain of
    exactly 3 entries whose ids, read from the root, are 1 < 2 < 3; the
    pairs (1, X) and (2, Y) are kept and are what [satisfy_timeline] tests
    against; the entry of the target has the largest end position there is,
    above every other position.  When there is no history file in either
    place the result is not an error but the chain of the target alone,
    with that end. *)
Theorem timeline_chain_build (first second : fopen_result) (content : string)
    (X Y : XLogRecPtr) :
  opened_history first second = Some (Some content) ->
  history_lines content = [Record 1 X; Record 2 Y] ->
  let chain := [mkTimeLine 3 max_lsn; mkTimeLine 2 Y; mkTimeLine 1 X] in
  readTimeLineHistory_from first second 3 = Ok chain
  /\ length chain = 3%nat
  /\ rev (map tl_tli chain) = [1; 2; 3]
  /\ (forall backup, satisfy_timeline chain backup = true <->
        (tli backup = 3 /\ lsn_lt (stop_lsn backup) max_lsn)
        \/ (tli backup = 2 /\ lsn_lt (stop_lsn backup) Y)
        \/ (tli backup = 1 /\ lsn_lt (stop_lsn backup) X))
  /\ (forall lsn, is_uint32 (xlogid lsn) -> is_uint32 (xrecoff lsn) -> lsn <> max_lsn ->
        lsn_lt lsn max_lsn)
  /\ (forall targetTLI,
        readTimeLineHistory_from FENOENT FENOENT targetTLI
        = Ok [mkTimeLine targetTLI max_lsn]).
Proof.
  intros Hopen Hlines chain.
  assert (Hparse : parse_history (Some content) 3 = Ok chain).
  { unfold parse_history. rewrite parse_history_lines_history, Hlines. reflexivity. }
  split.
  { unfold readTimeLineHistory_from.
    destruct first as [c| |]; simpl in Hopen; [by simplify_eq| |done].
    destruct second as [c| |]; simpl in Hopen; [by simplify_eq|done..]. }
  split; [done|]. split; [done|]. split; [|split].
  - intros backup. rewrite satisfy_timeline_spec. unfold timeline_satisfied, chain. split.
    + intros (t & Hin & Ht & Hlt).
      apply elem_of_cons in Hin as [->|Hin]; [by left|].
      apply elem_of_cons in Hin as [->|Hin]; [by right; left|].
      apply elem_of_cons in Hin as [->|Hin]; [by right; right|].
      by apply elem_of_nil in Hin.
    + intros [[Ht Hlt]|[[Ht Hlt]|[Ht Hlt]]].
      * exists (mkTimeLine 3 max_lsn). split; [|done]. set_solver.
      * exists (mkTimeLine 2 Y). split; [|done]. set_solver.
      * exists (mkTimeLine 1 X). split; [|done]. set_solver.
  - intros [i o] Hi Ho Hne. unfold lsn_lt, is_uint32, max_lsn in *. simpl in *.
    destruct (decide (i = UINT32_MAX)) as [->|Hi']; [|left; lia].
    right. split; [done|].
    destruct (decide (o = UINT32_MAX)) as [->|Ho']; [done|lia].
  - intros targetTLI. reflexivity.
Qed.

Lemma opened_history_run first second content targetTLI :
  opened_history first second = Some (Some content) ->
  readTimeLineHistory_from first second targetTLI = parse_history (Some content) targetTLI.
Proof.
  unfold readTimeLineHistory_from.
  destruct first as [c| |]; simpl; intros Hopen; [by simplify_eq| |done].
  destruct second as [c| |]; simpl in Hopen; [by simplify_eq|done..].
Qed.

(** C5.  For every history file that was opened and holds a line whose
    timeline id is not strictly greater than the id of the line read before
    it, and likewise whenever the target timeline id is not strictly
    greater than the id of the last line, the resolver ends with the
    corrupted-history error and returns no chain. *)
Theorem corrupted_history_rejected (first second : fopen_result) (content : string)
    (targetTLI : Z) :
  opened_history first second = Some (Some content) ->
  not_increasing (ids_of (history_lines content) ++ [targetTLI]) ->
  readTimeLineHistory_from first second targetTLI = Fatal ERROR_CORRUPTED.
Proof.
  intros Hopen Hbad. rewrite (opened_history_run _ _ content); [|done].
  pose proof (parse_history_inv content targetTLI) as Hinv.
  destruct (parse_history (Some content) targetTLI) as [chain|e|]; [|by subst|done].
  destruct Hinv as (-> & Hwf & Hs). exfalso.
  apply (Sorted_desc_not_increasing (ids_of (history_lines content) ++ [targetTLI])); [|done].
  rewrite ids_of_records by done.
  rewrite rev_app_distr. simpl. simpl in Hs. by rewrite map_rev in Hs.
Qed.

End History.

(** C4 at the sample file: a comment, the records of timelines 1 and 2, a
    blank line. *)
Lemma timeline_chain_build_witness :
  opened_history (FOpened example_history) FENOENT = Some (Some example_history)
  /\ history_lines example_history
     = [Record 1 (mkLSN 0 83886080); Record 2 (mkLSN 0 167772160)]
  /\ readTimeLineHistory_from (FOpened example_history) FENOENT 3
     = Ok [mkTimeLine 3 max_lsn; mkTimeLine 2 (mkLSN 0 167772160);
           mkTimeLine 1 (mkLSN 0 83886080)].
Proof.
  split; [reflexivity|]. split; [vm_compute; reflexivity|].
  apply (timeline_chain_build (FOpened example_history) FENOENT example_history
           (mkLSN 0 83886080) (mkLSN 0 167772160)).
  - reflexivity.
  - vm_compute; reflexivity.
Defined.

(** C5 at the sample file whose ids go 2, 1. *)
Lemma corrupted_history_rejected_witness :
  opened_history FENOENT (FOpened corrupted_history) = Some (Some corrupted_history)
  /\ not_increasing (ids_of (history_lines corrupted_history) ++ [3])
  /\ readTimeLineHistory_from FENOENT (FOpened corrupted_history) 3 = Fatal ERROR_CORRUPTED.
Proof.
  assert (Hbad : not_increasing (ids_of (history_lines corrupted_history) ++ [3])).
  { exists [], 2, 1, [3]. split; [vm_compute; reflexivity|lia]. }
  split; [reflexivity|]. split; [exact Hbad|].
  apply (corrupted_history_rejected FENOENT (FOpened corrupted_history) corrupted_history 3).
  - reflexivity.
  - exact Hbad.
Defined.

(** ** The continuity check *)

Section Continuity.
Context `{Externals}.






Lemma delete_old_tli_loop_S fuel i j tls :
  delete_old_tli_loop (S fuel) i j tls
  = if (j <? length tls)%nat
    then delete_old_tli_loop fuel i (S j) (delete (S i) tls)
    else tls.
Proof. reflexivity. Qed.

Lemma delete_old_tli_loop_spec i : forall fuel j (tls : list pgTimeLine),
  (i < j)%nat -> (length tls - j <= fuel)%nat ->
  delete_old_tli_loop fuel i j tls
  = (take (S i) tls ++ drop (S i + (length tls - j + 1) / 2) tls)%list.
Proof.
  assert (Hdone : forall j (tls : list pgTimeLine), (length tls <= j)%nat ->
            tls = (take (S i) tls ++ drop (S i + (length tls - j + 1) / 2) tls)%list).
  { intros j tls Hj. replace (length tls - j + 1)%nat with 1%nat by lia.
    change (1 / 2)%nat with 0%nat. by rewrite Nat.add_0_r, take_drop. }
  induction fuel as [|fuel IH]; intros j tls Hij Hfuel.
  - apply Hdone. lia.
  - rewrite delete_old_tli_loop_S. destruct (j <? length tls)%nat eqn:Hlt.
    + apply Nat.ltb_lt in Hlt.
      assert (Hlen : length (delete (S i) tls) = (length tls - 1)%nat).
      { apply length_delete, lookup_lt_is_Some. lia. }
      rewrite IH by lia. rewrite Hlen.
      assert (Hhalf : ((length tls - j + 1) / 2
                       = (length tls - 1 - S j + 1) / 2 + 1)%nat).
      { destruct (decide (length tls - j = 1)%nat) as [Hone|Hmore].
        - replace (length tls - 1 - S j + 1)%nat with 1%nat by lia. by rewrite Hone.
        - replace (length tls - j + 1)%nat
            with (length tls - 1 - S j + 1 + 1 * 2)%nat by lia.
          by rewrite Nat.div_add. }
      rewrite Hhalf.
      rewrite delete_take_drop.
      rewrite take_app_length' by (rewrite length_take_le; lia).
      rewrite drop_app_add' by (rewrite length_take_le; lia).
      rewrite drop_drop. do 2 f_equal. lia.
    + apply Nat.ltb_ge in Hlt. by apply Hdone.
Qed.

(** What remains of the chain once a segment is found at entry [i]: the
    entries up to [i]; of the [k] older ones behind it the loop of lines
    965-966 removes the first [(k + 1) / 2] only, its bound shrinking while
    its index grows. *)
Lemma delete_old_tli_spec i tls :
  delete_old_tli i tls
  = (take (S i) tls ++ drop (S i + (length tls - i) / 2) tls)%list.
Proof.
  unfold delete_old_tli. rewrite delete_old_tli_loop_spec by lia.
  do 3 f_equal. destruct (decide (i < length tls)%nat); [f_equal; lia|].
  replace (length tls - S i + 1)%nat with 1%nat by lia.
  replace (length tls - i)%nat with 0%nat by lia. done.
Qed.




End Continuity.



(** ** Paths and their order *)

Lemma string_drop_app r s : string_drop (String.length r) (r ++ s) = s.
Proof. induction r as [|c r IH]; simpl; [by destruct s|done]. Qed.

Lemma rel_path_join root k : rel_path root (join_path_components root k) = k.
Proof.
  unfold rel_path, join_path_components.
  induction root as [|c r IH]; simpl; [done|exact IH].
Qed.

Lemma join_path_components_inj root k k' :
  join_path_components root k = join_path_components root k' -> k = k'.
Proof.
  intros Heq. rewrite <- (rel_path_join root k), <- (rel_path_join root k'). by rewrite Heq.
Qed.

Lemma ascii_compare_refl c : Ascii.compare c c = Eq.
Proof. unfold Ascii.compare. apply N.compare_refl. Qed.

Lemma string_compare_refl s : String.compare s s = Eq.
Proof. induction s as [|c s IH]; simpl; [done|]. by rewrite ascii_compare_refl. Qed.

Lemma string_compare_app r a b : String.compare (r ++ a) (r ++ b) = String.compare a b.
Proof.
  induction r as [|c r IH]; [done|].
  change (String c r ++ a) with (String c (r ++ a)).
  change (String c r ++ b) with (String c (r ++ b)).
  simpl. by rewrite ascii_compare_refl.
Qed.

Lemma string_compare_join root k k' :
  String.compare (join_path_components root k) (join_path_components root k')
  = String.compare k k'.
Proof. unfold join_path_components. by rewrite !string_compare_app. Qed.

Lemma string_compare_eq a b : String.compare a b = Eq <-> a = b.
Proof. apply String_as_OT.cmp_eq. Qed.

Lemma string_compare_gt_lt a b : String.compare a b = Gt <-> String.compare b a = Lt.
Proof. rewrite (String.compare_antisym b a). by destruct (String.compare a b). Qed.

Lemma string_compare_lt_trans a b c :
  String.compare a b = Lt -> String.compare b c = Lt -> String.compare a c = Lt.
Proof.
  intros H1 H2. apply String_as_OT.cmp_lt. eapply String_as_OT.lt_trans.
  - by apply String_as_OT.cmp_lt.
  - by apply String_as_OT.cmp_lt.
Qed.

(** [a <= b -> b <= c -> a <= c], with [<=] as "not greater". *)
Lemma string_compare_le_trans a b c :
  String.compare a b <> Gt -> String.compare b c <> Gt -> String.compare a c <> Gt.
Proof.
  intros H1 H2.
  destruct (String.compare a b) eqn:Hab; [|clear H1|done].
  - apply string_compare_eq in Hab. by subst.
  - destruct (String.compare b c) eqn:Hbc; [|clear H2|done].
    + apply string_compare_eq in Hbc. subst. by rewrite Hab.
    + by rewrite (string_compare_lt_trans a b c).
Qed.

(** A path below a directory sorts after the directory, hence before it
    in descending order. *)
Lemma prefix_compare_gt k s k' :
  s <> EmptyString -> String.prefix (k ++ s) k' = true -> String.compare k' k = Gt.
Proof.
  intros Hs. revert k'. induction k as [|c k IH]; intros k'.
  - change (EmptyString ++ s) with s.
    destruct s as [|c s]; [done|]. by destruct k' as [|c' k'].
  - change (String c k ++ s) with (String c (k ++ s)).
    destruct k' as [|c' k']; [done|]. simpl.
    destruct (ascii_dec c c') as [->|]; [|done].
    intros Hp. rewrite ascii_compare_refl. by apply IH.
Qed.

Lemma is_below_compare k k' : is_below k k' = true -> String.compare k' k = Gt.
Proof. unfold is_below. by apply prefix_compare_gt. Qed.

#[global] Instance path_desc_total : Total path_desc.
Proof.
  intros f1 f2. unfold path_desc, pgFileComparePathDesc.
  rewrite (String.compare_antisym (path f1) (path f2)).
  destruct (String.compare (path f2) (path f1)); simpl; [left|left|right]; done.
Qed.

#[global] Instance path_desc_trans : Transitive path_desc.
Proof.
  intros f1 f2 f3. unfold path_desc, pgFileComparePathDesc. intros H12 H23.
  by apply (string_compare_le_trans _ (path f2)).
Qed.

Lemma parray_qsort_sorted files : StronglySorted path_desc (parray_qsort files).
Proof. apply StronglySorted_merge_sort; apply _. Qed.

Lemma parray_qsort_elem_of files f : f ∈ parray_qsort files <-> f ∈ files.
Proof. unfold parray_qsort. by rewrite merge_sort_Permutation. Qed.

(** ** Binary search *)

Lemma StronglySorted_lookup {A} (R : relation A) (l : list A) :
  StronglySorted R l ->
  forall i j a b, (i < j)%nat -> l !! i = Some a -> l !! j = Some b -> R a b.
Proof.
  induction 1 as [|x l Hs IH Hall]; intros i j a b Hlt Hi Hj; [done|].
  destruct j as [|j]; [lia|]. simpl in Hj. destruct i as [|i]; simpl in Hi.
  - simplify_eq. rewrite Forall_forall in Hall. apply Hall.
    by apply list_elem_of_lookup_2 in Hj.
  - apply (IH i j); [lia|done..].
Qed.

Lemma pgFileComparePathDesc_eq f1 f2 :
  pgFileComparePathDesc f1 f2 = Eq <-> path f1 = path f2.
Proof. unfold pgFileComparePathDesc. rewrite string_compare_eq. naive_solver. Qed.

Lemma bsearch_S fuel key files lo hi :
  bsearch (S fuel) key files lo hi
  = if (lo <? hi)%nat then
      match files !! ((lo + hi) / 2)%nat with
      | None => None
      | Some p =>
          match pgFileComparePathDesc key p with
          | Lt => bsearch fuel key files lo ((lo + hi) / 2)%nat
          | Gt => bsearch fuel key files (S ((lo + hi) / 2)%nat) hi
          | Eq => Some p
          end
      end
    else None.
Proof. reflexivity. Qed.

(** What [bsearch] returns is an entry with the path of the key. *)
Lemma bsearch_sound fuel key files : forall lo hi p,
  bsearch fuel key files lo hi = Some p -> p ∈ files /\ path p = path key.
Proof.
  induction fuel as [|fuel IH]; intros lo hi p; [done|]. rewrite bsearch_S.
  destruct (lo <? hi)%nat; [|done].
  destruct (files !! ((lo + hi) / 2)%nat) as [q|] eqn:Hq; [|done].
  destruct (pgFileComparePathDesc key q) eqn:Hcmp.
  - intros ?; simplify_eq. split; [by apply list_elem_of_lookup_2 in Hq|].
    symmetry. by apply pgFileComparePathDesc_eq.
  - apply IH.
  - apply IH.
Qed.

(** On a sorted array it finds an entry with the path of the key whenever
    the slice holds one. *)
Lemma bsearch_complete key files :
  StronglySorted path_desc files ->
  forall fuel lo hi, (hi <= length files)%nat -> (hi - lo <= fuel)%nat ->
  (exists i f, (lo <= i < hi)%nat /\ files !! i = Some f /\ path f = path key) ->
  is_Some (bsearch fuel key files lo hi).
Proof.
  intros Hsorted. induction fuel as [|fuel IH]; intros lo hi Hhi Hfuel (i & f & Hi & Hf & Hp).
  { lia. }
  rewrite bsearch_S. destruct (lo <? hi)%nat eqn:Hlt; [|apply Nat.ltb_ge in Hlt; lia].
  apply Nat.ltb_lt in Hlt.
  assert (Hmid : (lo <= (lo + hi) / 2 < hi)%nat).
  { split; [apply Nat.div_le_lower_bound; lia|apply Nat.Div0.div_lt_upper_bound; lia]. }
  destruct (lookup_lt_is_Some_2 files ((lo + hi) / 2)%nat) as [q Hq]; [lia|].
  rewrite Hq. destruct (pgFileComparePathDesc key q) eqn:Hcmp; [done| |].
  - (* the key sorts before the probe: the entry is on the left *)
    apply IH; [lia|lia|]. exists i, f. split; [|done]. split; [lia|].
    destruct (decide (i < (lo + hi) / 2)%nat) as [|Hge]; [done|]. exfalso.
    assert (Hqf : path_desc q f \/ q = f).
    { destruct (decide (i = ((lo + hi) / 2)%nat)) as [->|]; [right; congruence|].
      left. apply (StronglySorted_lookup _ _ Hsorted ((lo + hi) / 2)%nat i); [lia|done..]. }
    unfold pgFileComparePathDesc in Hcmp.
    destruct Hqf as [Hqf| ->].
    + unfold path_desc, pgFileComparePathDesc in Hqf. rewrite Hp in Hqf.
      apply string_compare_gt_lt in Hcmp. done.
    + rewrite Hp, string_compare_refl in Hcmp. done.
  - (* the key sorts after the probe: the entry is on the right *)
    apply IH; [lia|lia|]. exists i, f. split; [|done]. split; [|lia].
    destruct (decide ((lo + hi) / 2 < i)%nat) as [|Hle]; [lia|]. exfalso.
    assert (Hfq : path_desc f q \/ q = f).
    { destruct (decide (i = ((lo + hi) / 2)%nat)) as [->|]; [right; congruence|].
      left. apply (StronglySorted_lookup _ _ Hsorted i ((lo + hi) / 2)%nat); [lia|done..]. }
    unfold pgFileComparePathDesc in Hcmp.
    destruct Hfq as [Hfq| ->].
    + unfold path_desc, pgFileComparePathDesc in Hfq. rewrite Hp in Hfq. done.
    + rewrite Hp, string_compare_refl in Hcmp. done.
Qed.

(** [parray_bsearch] on a sorted file list decides whether the list has an
    entry with the path of the key. *)
Lemma parray_bsearch_None files key :
  StronglySorted path_desc files ->
  parray_bsearch files key = None <-> forall f, f ∈ files -> path f <> path key.
Proof.
  intros Hsorted. unfold parray_bsearch. split.
  - intros Hnone f Hin Hp. apply list_elem_of_lookup in Hin as [i Hi].
    destruct (bsearch_complete key files Hsorted (length files) 0 (length files))
      as [p Hsome]; [lia|lia| |congruence].
    exists i, f. split; [|done]. apply lookup_lt_Some in Hi. lia.
  - intros Hall. destruct (bsearch _ key files 0 _) as [p|] eqn:Hb; [|done].
    apply bsearch_sound in Hb as [Hin Hp]. by destruct (Hall p Hin).
Qed.

(** ** The file synchronizer *)

Section Synchronizer.
Context `{Externals}.

Lemma elem_of_dir_list_file (t : tree) root exclude f :
  f ∈ dir_list_file t root exclude <->
  exists k n, t !! k = Some n /\ exclude k = false
              /\ f = mkFile (join_path_components root k) (node_kind n) (node_size n) 0.
Proof.
  unfold dir_list_file. rewrite list_elem_of_fmap. split.
  - intros ([k n] & -> & Hin). apply elem_of_map_to_list in Hin.
    apply map_lookup_filter_Some in Hin as [Hk Hex]. by exists k, n.
  - intros (k & n & Hk & Hex & ->). exists (k, n). split; [done|].
    apply elem_of_map_to_list, map_lookup_filter_Some. done.
Qed.

Lemma pgFileDelete_ok root file (t t' : tree) :
  pgFileDelete root file t = (Ok tt, t') -> t' = delete (rel_path root (path file)) t.
Proof.
  unfold pgFileDelete, sys_remove.
  destruct (t !! rel_path root (path file)) as [[| |]|] eqn:Hk.
  - destruct (has_children _ t); intros ?; by simplify_eq.
  - intros ?; by simplify_eq.
  - intros ?; by simplify_eq.
  - intros ?; simplify_eq. by rewrite delete_id.
Qed.

Lemma remove_postmaster_pid_ok (t t' : tree) :
  remove_postmaster_pid t = (Ok tt, t') -> t' = delete "postmaster.pid" t.
Proof.
  unfold remove_postmaster_pid, sys_remove.
  destruct (t !! "postmaster.pid") as [[| |]|] eqn:Hk.
  - destruct (has_children _ t); intros ?; by simplify_eq.
  - intros ?; by simplify_eq.
  - intros ?; by simplify_eq.
  - intros ?; simplify_eq. by rewrite delete_id.
Qed.

Lemma forM_nil_inv {S A} (body : A -> M S unit) s s' :
  forM [] body s = (Ok tt, s') -> s' = s.
Proof. intros [=]. done. Qed.

Lemma forM_cons_inv {S A} (body : A -> M S unit) x l s s' :
  forM (x :: l) body s = (Ok tt, s') ->
  exists s1, body x s = (Ok tt, s1) /\ forM l body s1 = (Ok tt, s').
Proof.
  simpl. intros Hrun. apply bind_inv_ok in Hrun as ([] & s1 & Hx & Hl). by exists s1.
Qed.

(** mkdirs.sh leaves a directory at each of its paths and nothing else
    changed. *)
Lemma run_mkdirs_ok dirs : forall (t t' : tree),
  run_mkdirs dirs t = (Ok tt, t') ->
  forall k, t' !! k = if decide (k ∈ dirs) then Some Dir else t !! k.
Proof.
  unfold run_mkdirs. induction dirs as [|d dirs IH]; intros t t' Hrun k.
  - apply forM_nil_inv in Hrun as ->. rewrite decide_False; [done|apply not_elem_of_nil].
  - apply forM_cons_inv in Hrun as (t1 & Hd & Hrest).
    rewrite (IH t1 t' Hrest k).
    assert (Ht1 : t1 !! k = if decide (k = d) then Some Dir else t !! k).
    { unfold mkdirs_step in Hd. destruct (t !! d) as [[| |]|] eqn:Htd; simplify_eq.
      - destruct (decide (k = d)) as [->|]; done.
      - rewrite lookup_insert. destruct (decide (d = k)), (decide (k = d)); by simplify_eq. }
    destruct (decide (k ∈ dirs)) as [Hin|Hnin].
    + rewrite decide_True; [done|by right].
    + rewrite Ht1. destruct (decide (k = d)) as [->|Hne].
      * rewrite decide_True; [done|by left].
      * rewrite decide_False; [done|]. intros Hin. apply elem_of_cons in Hin. tauto.
Qed.

(** The deletion loop removes the entries it does not find in the file
    list and leaves the others. *)
Lemma delete_loop_ok cfg files files_now : forall (t t' : tree),
  forM files_now (delete_unlisted cfg files) t = (Ok tt, t') ->
  forall k,
    t' !! k = if decide (Exists (fun f => rel_path (the (pgdata cfg)) (path f) = k
                                          /\ parray_bsearch files f = None) files_now)
              then None else t !! k.
Proof.
  induction files_now as [|f files_now IH]; intros t t' Hrun k.
  - apply forM_nil_inv in Hrun as ->. rewrite decide_False; [done|].
    by intros ?%Exists_nil.
  - apply forM_cons_inv in Hrun as (t1 & Hf & Hrest).
    rewrite (IH t1 t' Hrest k).
    assert (Ht1 : t1 !! k = if decide (rel_path (the (pgdata cfg)) (path f) = k
                                       /\ parray_bsearch files f = None)
                            then None else t !! k).
    { unfold delete_unlisted in Hf. destruct (parray_bsearch files f) as [p|] eqn:Hb.
      - apply (inj (pair (Ok tt))) in Hf. subst t1.
        rewrite decide_False; [done|]. by intros [_ ?].
      - apply pgFileDelete_ok in Hf as ->. rewrite lookup_delete.
        destruct (decide (rel_path (the (pgdata cfg)) (path f) = k)) as [Heq|Hne].
        + by rewrite decide_True.
        + rewrite decide_False; [done|]. by intros [? _]. }
    destruct (decide (Exists _ files_now)) as [Hex|Hnex].
    + rewrite decide_True; [done|]. by apply Exists_cons_tl.
    + rewrite Ht1. destruct (decide (_ /\ _)) as [Hhere|Hnhere].
      * rewrite decide_True; [done|]. by apply Exists_cons_hd.
      * rewrite decide_False; [done|]. intros [?|?]%Exists_cons; done.
Qed.

Lemma elem_of_dir_read_file_list root lines m :
  m ∈ dir_read_file_list root lines <->
  exists e, e ∈ lines
            /\ m = mkFile (join_path_components root (path e)) (mode e) (size e) (write_size e).
Proof.
  unfold dir_read_file_list. rewrite list_elem_of_In, in_map_iff.
  setoid_rewrite <- list_elem_of_In. split.
  - intros (e & <- & Hin). by exists e.
  - intros (e & Hin & ->). by exists e.
Qed.

(** The deletion pass removes the entries of $PGDATA that are listed (not
    in the exclusion set) and not named by the backup's file list, and
    leaves every other path as it was. *)
Lemma delete_pass_ok cfg backup (t t' : tree) :
  delete_pass cfg backup t = (Ok tt, t') ->
  forall k,
    t' !! k = if decide (pgdata_exclude k = false /\ k ∉ manifest_keys backup)
              then None else t !! k.
Proof.
  unfold delete_pass. intros Hrun k.
  change (forM (parray_qsort (dir_list_file t (the (pgdata cfg)) pgdata_exclude))
            (delete_unlisted cfg
               (parray_qsort (dir_read_file_list (the (pgdata cfg))
                                (database_file_list backup)))) t = (Ok tt, t')) in Hrun.
  rewrite (delete_loop_ok _ _ _ _ _ Hrun k). clear Hrun.
  set (root := the (pgdata cfg)).
  set (files := parray_qsort (dir_read_file_list root (database_file_list backup))).
  assert (Hsearch : forall f k0, path f = join_path_components root k0 ->
            parray_bsearch files f = None <-> k0 ∉ manifest_keys backup).
  { intros f k0 Hf. rewrite parray_bsearch_None by apply parray_qsort_sorted.
    unfold manifest_keys. rewrite list_elem_of_fmap. split.
    - intros Hall (e & -> & Hin).
      apply (Hall (mkFile (join_path_components root (path e)) (mode e) (size e)
                          (write_size e))); [|by rewrite Hf].
      apply parray_qsort_elem_of, elem_of_dir_read_file_list. by exists e.
    - intros Hnin m Hm Hp. apply parray_qsort_elem_of, elem_of_dir_read_file_list in Hm
        as (e & Hin & ->). simpl in Hp. rewrite Hf in Hp.
      apply join_path_components_inj in Hp. apply Hnin. by exists e. }
  destruct (decide (pgdata_exclude k = false /\ k ∉ manifest_keys backup)) as [[Hex Hnin]|Hkeep].
  - destruct (t !! k) as [n|] eqn:Hk; [|by destruct (decide _)].
    rewrite decide_True; [done|]. apply Exists_exists.
    exists (mkFile (join_path_components root k) (node_kind n) (node_size n) 0).
    split; [|split].
    + apply parray_qsort_elem_of, elem_of_dir_list_file. by exists k, n.
    + apply rel_path_join.
    + by apply (Hsearch _ k).
  - rewrite decide_False; [done|]. intros (f & Hin & Hk & Hb)%Exists_exists.
    apply parray_qsort_elem_of, elem_of_dir_list_file in Hin as (k0 & n & Hk0 & Hex & ->).
    simpl in Hk. rewrite rel_path_join in Hk. subst k0.
    apply Hkeep. split; [done|]. by apply (Hsearch _ k) in Hb.
Qed.

(** The copy loop, entry by entry. *)
Lemma restore_file_ok cfg backup e (t t' : tree) :
  check cfg = false ->
  restore_file cfg backup
    (mkFile (join_path_components (pgBackupGetPath backup DATABASE_DIR) (path e))
            (mode e) (size e) (write_size e)) t = (Ok tt, t') ->
  t' = if is_copied e
       then <[path e :=
               Reg (restore_data_file_out
                      (join_path_components (pgBackupGetPath backup DATABASE_DIR) (path e))
                      (compress_data backup) (t !! path e))]> t
       else t.
Proof.
  intros Hcheck. unfold restore_file, is_copied, S_ISDIR. simpl.
  destruct (interrupted cfg); [done|].
  destruct (mode e); simpl.
  - rewrite andb_false_r. by intros [=].
  - destruct (write_size e =? BYTES_INVALID); simpl; [by intros [=]|].
    rewrite Hcheck, rel_path_join. by intros [=].
  - destruct (write_size e =? BYTES_INVALID); simpl; [by intros [=]|].
    rewrite Hcheck, rel_path_join. by intros [=].
Qed.

Lemma remove_not_backed_up_cons root e lines :
  remove_not_backed_up (dir_read_file_list root (e :: lines))
  = if negb (write_size e =? BYTES_INVALID)
    then mkFile (join_path_components root (path e)) (mode e) (size e) (write_size e)
           :: remove_not_backed_up (dir_read_file_list root lines)
    else remove_not_backed_up (dir_read_file_list root lines).
Proof. reflexivity. Qed.

(** A path the backup does not copy is left alone by the copy loop. *)
Lemma copy_loop_other cfg backup k lines : forall (t t' : tree),
  check cfg = false ->
  forM (remove_not_backed_up
          (dir_read_file_list (pgBackupGetPath backup DATABASE_DIR) lines))
       (restore_file cfg backup) t = (Ok tt, t') ->
  k ∉ path <$> List.filter is_copied lines ->
  t' !! k = t !! k.
Proof.
  induction lines as [|e lines IH]; intros t t' Hcheck Hrun Hk.
  - by apply forM_nil_inv in Hrun as ->.
  - rewrite remove_not_backed_up_cons in Hrun. simpl in Hk.
    destruct (negb (write_size e =? BYTES_INVALID)) eqn:Hw.
    + apply forM_cons_inv in Hrun as (t1 & He & Hrest).
      apply restore_file_ok in He; [|done].
      destruct (is_copied e) eqn:Hc.
      * rewrite fmap_cons in Hk. apply not_elem_of_cons in Hk as [Hne Hk].
        rewrite (IH t1 t' Hcheck Hrest Hk). subst t1. by rewrite lookup_insert_ne.
      * subst t1. by apply IH.
    + apply IH; [done..|]. unfold is_copied in Hk. by rewrite Hw in Hk.
Qed.

(** In check mode the copy loop changes nothing. *)
Lemma copy_loop_check cfg backup files : forall (t t' : tree),
  check cfg = true ->
  forM files (restore_file cfg backup) t = (Ok tt, t') -> t' = t.
Proof.
  induction files as [|f files IH]; intros t t' Hcheck Hrun.
  - by apply forM_nil_inv in Hrun.
  - apply forM_cons_inv in Hrun as (t1 & Hf & Hrest).
    rewrite (IH t1 t' Hcheck Hrest). unfold restore_file in Hf.
    destruct (interrupted cfg); [done|]. destruct (S_ISDIR f); [by injection Hf|].
    destruct (write_size f =? BYTES_INVALID); [by injection Hf|].
    rewrite Hcheck in Hf. by injection Hf.
Qed.

(** The phases of a restore that went through. *)
Lemma restore_database_inv cfg backup (t t' : tree) :
  restore_database cfg backup t = (Ok tt, t') ->
  exists t1 t2 t3,
    (if check cfg then mret tt else run_mkdirs (mkdirs_sh backup)) t = (Ok tt, t1)
    /\ forM (remove_not_backed_up
               (dir_read_file_list (pgBackupGetPath backup DATABASE_DIR)
                                   (database_file_list backup)))
            (restore_file cfg backup) t1 = (Ok tt, t2)
    /\ (if check cfg then mret tt else delete_pass cfg backup) t2 = (Ok tt, t3)
    /\ remove_postmaster_pid t3 = (Ok tt, t').
Proof.
  unfold restore_database.
  destruct (negb (block_size backup =? BLCKSZ)); [done|].
  destruct (negb (wal_block_size backup =? XLOG_BLCKSZ)); [done|].
  intros Hrun.
  apply bind_inv_ok in Hrun as ([] & t1 & H1 & Hrun).
  apply bind_inv_ok in Hrun as ([] & t2 & H2 & Hrun).
  apply bind_inv_ok in Hrun as ([] & t3 & H3 & Hrun).
  by exists t1, t2, t3.
Qed.

(** mkdirs.sh goes through only if none of its paths holds a file. *)
Lemma run_mkdirs_present dirs k n : forall (t t' : tree),
  run_mkdirs dirs t = (Ok tt, t') -> k ∈ dirs -> t !! k = Some n -> n = Dir.
Proof.
  unfold run_mkdirs. induction dirs as [|d dirs IH]; intros t t' Hrun Hin Hk.
  - by apply elem_of_nil in Hin.
  - apply forM_cons_inv in Hrun as (t1 & Hd & Hrest). unfold mkdirs_step in Hd.
    destruct (decide (k = d)) as [->|Hne].
    + rewrite Hk in Hd. by destruct n.
    + apply elem_of_cons in Hin as [?|Hin]; [done|].
      apply (IH t1 t' Hrest Hin).
      destruct (t !! d) as [[| |]|]; simplify_eq; [done|].
      by rewrite lookup_insert_ne.
Qed.

(** C10.  The deletion pass of [restore_database] looks entries up in the
    backup's file list as it was read, entries recorded as not captured
    included.  So every path the list of the backup being applied names is
    left as it is by the pass.  Such an entry is not copied either: a file
    that is in the destination (restored by an earlier backup of the chain)
    and that the list names only as not captured is the same after the
    whole restore of the backup as before. *)
Theorem sentinel_entries_shielded (cfg : config) (backup : pgBackup) (e : pgFile)
    (t : tree) :
  check cfg = false ->
  e ∈ database_file_list backup ->
  (forall t', delete_pass cfg backup t = (Ok tt, t') -> t' !! path e = t !! path e)
  /\ (forall t', restore_database cfg backup t = (Ok tt, t') ->
        is_Some (t !! path e) ->
        path e ∉ copied_keys backup ->
        path e <> "postmaster.pid" ->
        t' !! path e = t !! path e).
Proof.
  intros Hcheck He.
  assert (Hkey : path e ∈ manifest_keys backup).
  { unfold manifest_keys. apply list_elem_of_fmap. by exists e. }
  assert (Hpass : forall t0 t', delete_pass cfg backup t0 = (Ok tt, t') ->
            t' !! path e = t0 !! path e).
  { intros t0 t' Hrun. rewrite (delete_pass_ok _ _ _ _ Hrun (path e)).
    rewrite decide_False; [done|]. by intros [_ ?]. }
  split; [apply Hpass|].
  intros t' Hrun [n Hn] Hcopied Hpid.
  apply restore_database_inv in Hrun as (t1 & t2 & t3 & H1 & H2 & H3 & H4).
  rewrite Hcheck in H1, H3.
  apply remove_postmaster_pid_ok in H4 as ->. rewrite lookup_delete_ne by done.
  rewrite (Hpass _ _ H3).
  rewrite (copy_loop_other _ _ _ _ _ _ Hcheck H2 Hcopied).
  rewrite (run_mkdirs_ok _ _ _ H1 (path e)).
  destruct (decide (path e ∈ mkdirs_sh backup)) as [Hin|]; [|done].
  rewrite Hn. f_equal. symmetry. by apply (run_mkdirs_present _ _ _ _ _ H1 Hin).
Qed.

End Synchronizer.

(** C10 at the sample incremental: base/1, restored by the full backup and
    listed by the incremental as not captured, is there after the pass and
    after the whole restore of the incremental. *)
Lemma sentinel_entries_shielded_witness :
  check sample_config = false
  /\ mkFile "base/1" KReg 10 BYTES_INVALID ∈ database_file_list sample_incr
  /\ (restore_database sample_config sample_incr sample_pgdata).2 !! "base/1"
     = Some (Reg "copy of /backup/1/database/base/1").
Proof.
  split; [reflexivity|].
  assert (Hin : mkFile "base/1" KReg 10 BYTES_INVALID ∈ database_file_list sample_incr).
  { apply list_elem_of_In. simpl. tauto. }
  split; [exact Hin|].
  destruct (sentinel_entries_shielded sample_config sample_incr
              (mkFile "base/1" KReg 10 BYTES_INVALID) sample_pgdata eq_refl Hin)
    as [_ Hrestore].
  rewrite (Hrestore (restore_database sample_config sample_incr sample_pgdata).2).
  - reflexivity.
  - vm_compute. reflexivity.
  - by eexists.
  - vm_compute. intros Hin'. repeat (apply elem_of_cons in Hin' as [?|Hin']; [done|]).
    by apply elem_of_nil in Hin'.
  - done.
Defined.

(** ** When the deletion pass goes through *)

Lemma has_children_true k (t : tree) :
  has_children k t = true <-> exists k' n, t !! k' = Some n /\ is_below k k' = true.
Proof.
  unfold has_children. rewrite bool_decide_eq_true. apply map_Exists_lookup.
Qed.

Section PassGoesThrough.
Context `{Externals}.

(** The binary search in the sorted file list of a backup finds an entry of
    $PGDATA exactly when the list names its path. *)
Lemma parray_bsearch_manifest cfg backup f k :
  path f = join_path_components (the (pgdata cfg)) k ->
  parray_bsearch
    (parray_qsort (dir_read_file_list (the (pgdata cfg)) (database_file_list backup))) f
  = None <-> k ∉ manifest_keys backup.
Proof.
  intros Hf. rewrite parray_bsearch_None by apply parray_qsort_sorted.
  unfold manifest_keys. rewrite list_elem_of_fmap. split.
  - intros Hall (e & -> & Hin).
    apply (Hall (mkFile (join_path_components (the (pgdata cfg)) (path e)) (mode e) (size e)
                        (write_size e))); [|by rewrite Hf].
    apply parray_qsort_elem_of, elem_of_dir_read_file_list. by exists e.
  - intros Hnin m Hm Hp. apply parray_qsort_elem_of, elem_of_dir_read_file_list in Hm
      as (e & Hin & ->). simpl in Hp. rewrite Hf in Hp.
    apply join_path_components_inj in Hp. apply Hnin. by exists e.
Qed.

(** The loop goes through when everything found below a directory it is to
    delete is to be deleted as well. *)
Lemma delete_loop_succeeds cfg backup files_now :
  StronglySorted path_desc files_now ->
  (forall f, f ∈ files_now ->
     exists k, path f = join_path_components (the (pgdata cfg)) k
               /\ pgdata_exclude k = false) ->
  forall t : tree,
    (forall k, is_Some (t !! k) -> deletable backup k ->
       exists f, f ∈ files_now /\ path f = join_path_components (the (pgdata cfg)) k) ->
    (forall k k', t !! k = Some Dir -> deletable backup k -> is_below k k' = true ->
       is_Some (t !! k') -> deletable backup k') ->
    exists t',
      forM files_now
        (delete_unlisted cfg
           (parray_qsort (dir_read_file_list (the (pgdata cfg))
                            (database_file_list backup)))) t = (Ok tt, t').
Proof.
  induction 1 as [|f files_now Hsorted IH Hfirst]; intros Hform t Hcover Hclosed.
  - by exists t.
  - destruct (Hform f) as (k & Hf & Hex); [by left|].
    assert (Hform' : forall f', f' ∈ files_now ->
              exists k', path f' = join_path_components (the (pgdata cfg)) k'
                         /\ pgdata_exclude k' = false).
    { intros f' Hin. apply Hform. by right. }
    simpl. unfold mbind, M_bind, delete_unlisted.
    destruct (parray_bsearch _ f) as [p|] eqn:Hb.
    + (* the list names the entry: it stays *)
      apply (IH Hform' t); [|done].
      intros k' Hk' Hdel. destruct (Hcover k' Hk' Hdel) as (f' & Hin & Hf').
      exists f'. split; [|done]. apply elem_of_cons in Hin as [->|Hin]; [|done].
      rewrite Hf in Hf'. apply join_path_components_inj in Hf'. subst k'.
      destruct Hdel as [_ Hdel].
      apply (parray_bsearch_manifest cfg backup f k Hf) in Hdel. congruence.
    + assert (Hdel : deletable backup k).
      { split; [done|]. by apply (parray_bsearch_manifest cfg backup f k Hf). }
      assert (Hnext : forall t1 : tree,
                (forall k', t1 !! k' = if decide (k' = k) then None else t !! k') ->
                exists t', forM files_now
                  (delete_unlisted cfg
                     (parray_qsort (dir_read_file_list (the (pgdata cfg))
                                      (database_file_list backup)))) t1 = (Ok tt, t')).
      { intros t1 Ht1. apply (IH Hform' t1).
        - intros k' Hk' Hdel'. rewrite Ht1 in Hk'.
          destruct (decide (k' = k)); [by destruct Hk'|].
          destruct (Hcover k' Hk' Hdel') as (f' & Hin & Hf').
          exists f'. split; [|done]. apply elem_of_cons in Hin as [->|Hin]; [|done].
          rewrite Hf in Hf'. by apply join_path_components_inj in Hf'.
        - intros k1 k2 Hk1 Hd1 Hbelow Hk2. rewrite Ht1 in Hk1, Hk2.
          destruct (decide (k1 = k)); [done|]. destruct (decide (k2 = k)); [by destruct Hk2|].
          by apply (Hclosed k1 k2). }
      unfold pgFileDelete, sys_remove. rewrite Hf, rel_path_join.
      assert (Hgone : exists t', forM files_now
                  (delete_unlisted cfg
                     (parray_qsort (dir_read_file_list (the (pgdata cfg))
                                      (database_file_list backup)))) (delete k t)
                = (Ok tt, t')).
      { apply Hnext. intros k'. rewrite lookup_delete.
        destruct (decide (k = k')), (decide (k' = k)); by simplify_eq. }
      destruct (t !! k) as [[| |]|] eqn:Hk; [|done..|].
      * destruct (has_children k t) eqn:Hch; [exfalso|done].
        apply has_children_true in Hch as (k' & n & Hk' & Hbelow).
        assert (Hd' : deletable backup k').
        { apply (Hclosed k k'); [done..|by eexists]. }
        destruct (Hcover k') as (f' & Hin & Hf'); [by eexists|done|].
        apply is_below_compare in Hbelow.
        apply elem_of_cons in Hin as [->|Hin].
        -- rewrite Hf in Hf'. apply join_path_components_inj in Hf'. subst k'.
           by rewrite string_compare_refl in Hbelow.
        -- rewrite Forall_forall in Hfirst. specialize (Hfirst f' Hin).
           unfold path_desc, pgFileComparePathDesc in Hfirst.
           by rewrite Hf, Hf', string_compare_join in Hfirst.
      * apply Hnext. intros k'. destruct (decide (k' = k)) as [->|]; done.
Qed.

(** A loop that went through met, below each directory it deleted, only
    entries it had deleted. *)
Lemma delete_loop_children cfg backup files_now :
  (forall f, f ∈ files_now ->
     exists k, path f = join_path_components (the (pgdata cfg)) k
               /\ pgdata_exclude k = false) ->
  forall t t' : tree,
    forM files_now
      (delete_unlisted cfg
         (parray_qsort (dir_read_file_list (the (pgdata cfg))
                          (database_file_list backup)))) t = (Ok tt, t') ->
    forall k k',
      (exists f, f ∈ files_now /\ path f = join_path_components (the (pgdata cfg)) k) ->
      deletable backup k -> t !! k = Some Dir -> is_below k k' = true ->
      is_Some (t !! k') -> deletable backup k'.
Proof.
  induction files_now as [|f0 files_now IH]; intros Hform t t' Hrun k k' Hin Hdel Hk Hbelow Hk'.
  { destruct Hin as (f & Hin & _). by apply elem_of_nil in Hin. }
  destruct (Hform f0) as (k0 & Hf0 & Hex0); [by left|].
  apply forM_cons_inv in Hrun as (t1 & Hhead & Hrest).
  unfold delete_unlisted in Hhead.
  destruct (parray_bsearch _ f0) as [p|] eqn:Hb.
  - (* the head stays *)
    apply (inj (pair (Ok tt))) in Hhead. subst t1.
    apply (IH (fun f' Hin' => Hform f' (list_elem_of_further _ _ _ Hin')) t t' Hrest k k');
      try done.
    destruct Hin as (f & Hin & Hf). exists f. split; [|done].
    apply elem_of_cons in Hin as [->|Hin]; [|done].
    rewrite Hf0 in Hf. apply join_path_components_inj in Hf. subst k0.
    destruct Hdel as [_ Hdel].
    apply (parray_bsearch_manifest cfg backup f0 k Hf0) in Hdel. congruence.
  - assert (Hdel0 : deletable backup k0).
    { split; [done|]. by apply (parray_bsearch_manifest cfg backup f0 k0 Hf0). }
    destruct (decide (k0 = k)) as [->|Hne].
    + (* the head is the directory: it was empty *)
      exfalso. unfold pgFileDelete, sys_remove in Hhead.
      rewrite Hf0, rel_path_join, Hk in Hhead.
      destruct (has_children k t) eqn:Hch; [done|].
      apply not_true_iff_false in Hch. apply Hch, has_children_true.
      destruct Hk' as [n Hn]. by exists k', n.
    + apply pgFileDelete_ok in Hhead. rewrite Hf0, rel_path_join in Hhead. subst t1.
      destruct (decide (k0 = k')) as [->|Hne'].
      * done.
      * apply (IH (fun f' Hin' => Hform f' (list_elem_of_further _ _ _ Hin'))
                  (delete k0 t) t' Hrest k k'); try done.
        -- destruct Hin as (f & Hin & Hf). exists f. split; [|done].
           apply elem_of_cons in Hin as [->|Hin]; [|done].
           rewrite Hf0 in Hf. by apply join_path_components_inj in Hf.
        -- by rewrite lookup_delete_ne.
        -- by rewrite lookup_delete_ne.
Qed.

(** The deletion pass goes through exactly when everything below a
    directory it is to delete is to be deleted as well. *)
Lemma delete_pass_succeeds cfg backup (t : tree) :
  (forall k k', t !! k = Some Dir -> deletable backup k -> is_below k k' = true ->
     is_Some (t !! k') -> deletable backup k') ->
  exists t', delete_pass cfg backup t = (Ok tt, t').
Proof.
  intros Hclosed. unfold delete_pass.
  change (exists t',
    forM (parray_qsort (dir_list_file t (the (pgdata cfg)) pgdata_exclude))
         (delete_unlisted cfg
            (parray_qsort (dir_read_file_list (the (pgdata cfg))
                             (database_file_list backup)))) t = (Ok tt, t')).
  apply delete_loop_succeeds; [apply parray_qsort_sorted| | |done].
  - intros f Hin. apply parray_qsort_elem_of, elem_of_dir_list_file in Hin
      as (k & n & _ & Hex & ->). by exists k.
  - intros k [n Hk] [Hex _].
    exists (mkFile (join_path_components (the (pgdata cfg)) k) (node_kind n) (node_size n) 0).
    split; [|done]. apply parray_qsort_elem_of, elem_of_dir_list_file. by exists k, n.
Qed.

Lemma delete_pass_children cfg backup (t t' : tree) :
  delete_pass cfg backup t = (Ok tt, t') ->
  forall k k', t !! k = Some Dir -> deletable backup k -> is_below k k' = true ->
    is_Some (t !! k') -> deletable backup k'.
Proof.
  unfold delete_pass. intros Hrun k k' Hk Hdel Hbelow Hk'.
  change (forM (parray_qsort (dir_list_file t (the (pgdata cfg)) pgdata_exclude))
            (delete_unlisted cfg
               (parray_qsort (dir_read_file_list (the (pgdata cfg))
                                (database_file_list backup)))) t = (Ok tt, t')) in Hrun.
  assert (Hform : forall f,
            f ∈ parray_qsort (dir_list_file t (the (pgdata cfg)) pgdata_exclude) ->
            exists k0, path f = join_path_components (the (pgdata cfg)) k0
                       /\ pgdata_exclude k0 = false).
  { intros f Hin. apply parray_qsort_elem_of, elem_of_dir_list_file in Hin
      as (k0 & n & _ & Hex & ->). by exists k0. }
  apply (delete_loop_children cfg backup _ Hform t t' Hrun k k'); try done.
  destruct Hdel as [Hex _].
  exists (mkFile (join_path_components (the (pgdata cfg)) k) (node_kind Dir) (node_size Dir) 0).
  split; [|done]. apply parray_qsort_elem_of, elem_of_dir_list_file. by exists k, Dir.
Qed.

(** mkdirs.sh goes through when none of its paths holds something other
    than a directory. *)
Lemma run_mkdirs_succeeds dirs : forall t : tree,
  (forall d, d ∈ dirs -> t !! d = None \/ t !! d = Some Dir) ->
  exists t', run_mkdirs dirs t = (Ok tt, t').
Proof.
  unfold run_mkdirs. induction dirs as [|d dirs IH]; intros t Hfree.
  - by exists t.
  - simpl. unfold mbind, M_bind, mkdirs_step at 1.
    assert (Hrest : forall d', d' ∈ dirs ->
              <[d := Dir]> t !! d' = None \/ <[d := Dir]> t !! d' = Some Dir).
    { intros d' Hin. destruct (decide (d' = d)) as [->|Hne].
      - right. apply lookup_insert_eq.
      - rewrite lookup_insert_ne by done. apply Hfree. by right. }
    destruct (Hfree d) as [Hd|Hd]; [by left| |]; rewrite Hd.
    + by apply IH.
    + apply IH. intros d' Hin. apply Hfree. by right.
Qed.

(** Whether the copy loop goes through does not depend on the
    destination. *)
Lemma copy_loop_succeeds cfg backup files : forall (t t' : tree),
  forM files (restore_file cfg backup) t = (Ok tt, t') ->
  forall s : tree, exists s', forM files (restore_file cfg backup) s = (Ok tt, s').
Proof.
  induction files as [|f files IH]; intros t t' Hrun s.
  - by exists s.
  - apply forM_cons_inv in Hrun as (t1 & Hf & Hrest).
    simpl. unfold mbind, M_bind.
    assert (Hstep : exists s1, restore_file cfg backup f s = (Ok tt, s1)).
    { unfold restore_file in Hf |- *. destruct (interrupted cfg); [done|].
      destruct (S_ISDIR f); [by eexists|].
      destruct (write_size f =? BYTES_INVALID); [by eexists|].
      destruct (check cfg); by eexists. }
    destruct Hstep as [s1 ->]. by apply (IH t1 t').
Qed.

(** Removing postmaster.pid fails only on a directory that is not
    empty. *)
Lemma remove_postmaster_pid_succeeds (t : tree) :
  (t !! "postmaster.pid" = Some Dir -> has_children "postmaster.pid" t = false) ->
  exists t', remove_postmaster_pid t = (Ok tt, t').
Proof.
  unfold remove_postmaster_pid, sys_remove. intros Hempty.
  destruct (t !! "postmaster.pid") as [[| |]|]; try by eexists.
  rewrite Hempty by done. by eexists.
Qed.

Lemma remove_postmaster_pid_empty (t t' : tree) :
  remove_postmaster_pid t = (Ok tt, t') ->
  t !! "postmaster.pid" = Some Dir -> has_children "postmaster.pid" t = false.
Proof.
  unfold remove_postmaster_pid, sys_remove. intros Hrun Hdir. rewrite Hdir in Hrun.
  by destruct (has_children "postmaster.pid" t).
Qed.

End PassGoesThrough.

(** ** Running the synchronizer again *)

Section Idempotence.
Context `{Externals}.

(** What is asked of [restore_data_file]: restoring a stored file over the
    result of restoring that same file changes nothing. *)
Hypothesis restore_data_file_idem : forall from compress old,
  restore_data_file_out from compress
    (Some (Reg (restore_data_file_out from compress old)))
  = restore_data_file_out from compress old.

(** What the copy loop leaves at each path. *)
Lemma copy_loop_idem cfg backup k lines : forall (t t' : tree),
  check cfg = false ->
  forM (remove_not_backed_up
          (dir_read_file_list (pgBackupGetPath backup DATABASE_DIR) lines))
       (restore_file cfg backup) t = (Ok tt, t') ->
  t' !! k = if decide (k ∈ path <$> List.filter is_copied lines)
            then Some (Reg (restore_data_file_out
                              (join_path_components (pgBackupGetPath backup DATABASE_DIR) k)
                              (compress_data backup) (t !! k)))
            else t !! k.
Proof.
  induction lines as [|e lines IH]; intros t t' Hcheck Hrun.
  - apply forM_nil_inv in Hrun as ->. rewrite decide_False; [done|]. apply not_elem_of_nil.
  - rewrite remove_not_backed_up_cons in Hrun.
    assert (Hskip : is_copied e = false ->
              forM (remove_not_backed_up
                      (dir_read_file_list (pgBackupGetPath backup DATABASE_DIR) lines))
                   (restore_file cfg backup) t = (Ok tt, t') ->
              t' !! k = if decide (k ∈ path <$> List.filter is_copied (e :: lines))
                        then Some (Reg (restore_data_file_out
                                          (join_path_components
                                             (pgBackupGetPath backup DATABASE_DIR) k)
                                          (compress_data backup) (t !! k)))
                        else t !! k).
    { intros Hc Hrest. simpl. rewrite Hc. by apply IH. }
    destruct (negb (write_size e =? BYTES_INVALID)) eqn:Hw.
    + apply forM_cons_inv in Hrun as (t1 & He & Hrest).
      apply restore_file_ok in He; [|done].
      destruct (is_copied e) eqn:Hc; [|subst t1; by apply Hskip].
      rewrite (IH t1 t' Hcheck Hrest). simpl. rewrite Hc, fmap_cons. subst t1.
      destruct (decide (k = path e)) as [->|Hne].
      * rewrite lookup_insert_eq.
        rewrite (decide_True (P := path e ∈ path e :: _)) by left.
        destruct (decide (path e ∈ path <$> List.filter is_copied lines)); [|done].
        by rewrite restore_data_file_idem.
      * rewrite lookup_insert_ne by done.
        destruct (decide (k ∈ path <$> List.filter is_copied lines)) as [Hin|Hnin].
        -- rewrite decide_True; [done|by right].
        -- rewrite decide_False; [done|]. intros Hin. apply elem_of_cons in Hin. tauto.
    + apply Hskip; [|done]. unfold is_copied. by rewrite Hw.
Qed.

(** What a restore that went through leaves at each path. *)
Lemma restore_database_lookup cfg backup (t t' : tree) k :
  check cfg = false ->
  restore_database cfg backup t = (Ok tt, t') ->
  t' !! k =
    if decide (k = "postmaster.pid") then None
    else if decide (pgdata_exclude k = false /\ k ∉ manifest_keys backup) then None
    else if decide (k ∈ copied_keys backup)
         then Some (Reg (restore_data_file_out
                           (join_path_components (pgBackupGetPath backup DATABASE_DIR) k)
                           (compress_data backup)
                           (if decide (k ∈ mkdirs_sh backup) then Some Dir else t !! k)))
    else if decide (k ∈ mkdirs_sh backup) then Some Dir
    else t !! k.
Proof.
  intros Hcheck Hrun.
  apply restore_database_inv in Hrun as (t1 & t2 & t3 & H1 & H2 & H3 & H4).
  rewrite Hcheck in H1, H3.
  apply remove_postmaster_pid_ok in H4 as ->. rewrite lookup_delete.
  destruct (decide ("postmaster.pid" = k)) as [<-|Hne].
  { by rewrite decide_True. }
  rewrite decide_False by done.
  rewrite (delete_pass_ok _ _ _ _ H3 k).
  destruct (decide (pgdata_exclude k = false /\ k ∉ manifest_keys backup)); [done|].
  rewrite (copy_loop_idem _ _ k _ _ _ Hcheck H2).
  fold (copied_keys backup).
  by rewrite (run_mkdirs_ok _ _ _ H1 k).
Qed.

(** A second application, if it goes through, leaves what the first
    left. *)
Lemma restore_database_twice cfg backup (t t1 t2 : tree) :
  restore_database cfg backup t = (Ok tt, t1) ->
  restore_database cfg backup t1 = (Ok tt, t2) ->
  t2 = t1.
Proof.
  intros Hfirst Hsecond.
  destruct (check cfg) eqn:Hcheck.
  - (* check mode: only postmaster.pid is removed *)
    apply restore_database_inv in Hfirst as (a1 & a2 & a3 & H1 & H2 & H3 & H4).
    apply restore_database_inv in Hsecond as (b1 & b2 & b3 & G1 & G2 & G3 & G4).
    rewrite Hcheck in H1, H3, G1, G3.
    apply (inj (pair (Ok tt))) in H1, H3, G1, G3. subst a1 a3 b1 b3.
    apply copy_loop_check in H2, G2; [|done..]. subst a2 b2.
    apply remove_postmaster_pid_ok in H4, G4. subst t1 t2.
    apply delete_id, lookup_delete_eq.
  - apply map_eq. intros k.
    rewrite (restore_database_lookup _ _ _ _ k Hcheck Hsecond).
    pose proof (restore_database_lookup _ _ _ _ k Hcheck Hfirst) as Hk.
    destruct (decide (k = "postmaster.pid")); [done|].
    destruct (decide (pgdata_exclude k = false /\ k ∉ manifest_keys backup)); [done|].
    destruct (decide (k ∈ copied_keys backup)); [|by destruct (decide (k ∈ mkdirs_sh backup))].
    destruct (decide (k ∈ mkdirs_sh backup)); [done|].
    rewrite Hk. by rewrite restore_data_file_idem.
Qed.

(** The phases of a second application all go through, when no path is
    both a directory of mkdirs.sh and a copied file. *)
Lemma restore_database_again_phases cfg backup (t t1 : tree) :
  dirs_apart_from_files backup ->
  restore_database cfg backup t = (Ok tt, t1) ->
  exists b1 b2 b3 t2,
    (if check cfg then mret tt else run_mkdirs (mkdirs_sh backup)) t1 = (Ok tt, b1)
    /\ forM (remove_not_backed_up
               (dir_read_file_list (pgBackupGetPath backup DATABASE_DIR)
                                   (database_file_list backup)))
            (restore_file cfg backup) b1 = (Ok tt, b2)
    /\ (if check cfg then mret tt else delete_pass cfg backup) b2 = (Ok tt, b3)
    /\ remove_postmaster_pid b3 = (Ok tt, t2).
Proof.
  intros Hapart Hfirst.
  apply restore_database_inv in Hfirst as (a1 & a2 & a3 & H1 & H2 & H3 & H4).
  pose proof (remove_postmaster_pid_empty _ _ H4) as Hpid.
  apply remove_postmaster_pid_ok in H4.
  destruct (check cfg) eqn:Hcheck.
  - (* check mode *)
    destruct (copy_loop_succeeds _ _ _ _ _ H2 t1) as [b2 G2].
    pose proof (copy_loop_check _ _ _ _ _ Hcheck G2) as ->.
    destruct (remove_postmaster_pid_succeeds t1) as [t2 G4].
    { subst t1. by rewrite lookup_delete_eq. }
    by exists t1, t1, t1, t2.
  - pose proof (run_mkdirs_ok _ _ _ H1) as L1.
    pose proof (fun k => copy_loop_idem cfg backup k _ _ _ Hcheck H2) as L2.
    pose proof (delete_pass_ok _ _ _ _ H3) as L3.
    fold (copied_keys backup) in L2.
    assert (Hkeep : forall k, is_Some (t1 !! k) ->
              t1 !! k = a2 !! k /\ ~ deletable backup k).
    { intros k Hk. subst t1.
      destruct (decide ("postmaster.pid" = k)) as [<-|Hne].
      { rewrite lookup_delete_eq in Hk. by destruct Hk. }
      rewrite lookup_delete_ne in Hk |- * by done.
      rewrite L3 in Hk |- *. unfold deletable.
      destruct (decide (pgdata_exclude k = false /\ k ∉ manifest_keys backup));
        [by destruct Hk|done]. }
    assert (Hmk : forall d, d ∈ mkdirs_sh backup -> a2 !! d = Some Dir).
    { intros d Hd. rewrite L2, decide_False by by apply Hapart.
      by rewrite L1, decide_True. }
    destruct (run_mkdirs_succeeds (mkdirs_sh backup) t1) as [b1 G1].
    { intros d Hd. destruct (t1 !! d) as [n|] eqn:Hn; [right|by left].
      destruct (Hkeep d) as [Heq _]; [by eexists|].
      rewrite <- Hn, Heq. by apply Hmk. }
    pose proof (run_mkdirs_ok _ _ _ G1) as M1.
    destruct (copy_loop_succeeds _ _ _ _ _ H2 b1) as [b2 G2].
    pose proof (fun k => copy_loop_idem cfg backup k _ _ _ Hcheck G2) as M2.
    fold (copied_keys backup) in M2.
    assert (Hdom : forall k, is_Some (b2 !! k) -> is_Some (a2 !! k)).
    { intros k Hk.
      destruct (decide (k ∈ copied_keys backup)) as [Hc|Hc].
      { rewrite L2, decide_True by done. by eexists. }
      destruct (decide (k ∈ mkdirs_sh backup)) as [Hd|Hd].
      { rewrite Hmk by done. by eexists. }
      rewrite M2, decide_False, M1, decide_False in Hk by done.
      by destruct (Hkeep k Hk) as [<- _]. }
    assert (Hdir : forall k, b2 !! k = Some Dir -> deletable backup k ->
              a2 !! k = Some Dir).
    { intros k Hk Hdel.
      destruct (decide (k ∈ mkdirs_sh backup)) as [Hd|Hd]; [by apply Hmk|].
      rewrite M2 in Hk. destruct (decide (k ∈ copied_keys backup)); [done|].
      rewrite M1, decide_False in Hk by done.
      destruct (Hkeep k) as [_ Hnot]; [by eexists|done]. }
    destruct (delete_pass_succeeds cfg backup b2) as [b3 G3].
    { intros k k' Hk Hdel Hbelow Hk'.
      apply (delete_pass_children cfg backup a2 a3 H3 k k'); auto. }
    pose proof (delete_pass_ok _ _ _ _ G3) as M3.
    destruct (remove_postmaster_pid_succeeds b3) as [t2 G4].
    { intros Hb3. rewrite M3 in Hb3.
      destruct (decide (pgdata_exclude "postmaster.pid" = false
                        /\ "postmaster.pid" ∉ manifest_keys backup)) as [|Hstay]; [done|].
      assert (Hin : "postmaster.pid" ∈ mkdirs_sh backup).
      { rewrite M2 in Hb3.
        destruct (decide ("postmaster.pid" ∈ copied_keys backup)); [done|].
        rewrite M1 in Hb3.
        destruct (decide ("postmaster.pid" ∈ mkdirs_sh backup)); [done|].
        subst t1. by rewrite lookup_delete_eq in Hb3. }
      assert (Ha3 : has_children "postmaster.pid" a3 = false).
      { apply Hpid. rewrite L3, decide_False by done. by apply Hmk. }
      destruct (has_children "postmaster.pid" b3) eqn:Hch; [exfalso|done].
      apply has_children_true in Hch as (k' & n & Hk' & Hbelow).
      apply not_true_iff_false in Ha3. apply Ha3, has_children_true.
      rewrite M3 in Hk'.
      destruct (decide (pgdata_exclude k' = false /\ k' ∉ manifest_keys backup))
        as [|Hstay']; [done|].
      destruct (Hdom k') as [n' Hn']; [by eexists|].
      exists k', n'. split; [|done]. by rewrite L3, decide_False. }
    by exists b1, b2, b3, t2.
Qed.

(** C8.  Applying [restore_database] a second time with the same backup to
    the destination the first application produced gives that destination
    again: no file is missing, added or left over.  The second application,
    whenever it goes through, ends in the tree the first one left; and it
    does go through when no path is both a directory of mkdirs.sh and a
    file the backup copies. *)
Theorem file_sync_idempotent (cfg : config) (backup : pgBackup) (t t1 : tree) :
  restore_database cfg backup t = (Ok tt, t1) ->
  (forall t2, restore_database cfg backup t1 = (Ok tt, t2) -> t2 = t1)
  /\ (dirs_apart_from_files backup ->
      restore_database cfg backup t1 = (Ok tt, t1)).
Proof.
  intros Hfirst. split.
  - intros t2. by apply (restore_database_twice cfg backup t).
  - intros Hapart.
    destruct (restore_database_again_phases cfg backup t t1 Hapart Hfirst)
      as (b1 & b2 & b3 & t2 & G1 & G2 & G3 & G4).
    assert (Hsecond : restore_database cfg backup t1 = (Ok tt, t2)).
    { unfold restore_database in Hfirst |- *.
      destruct (negb (block_size backup =? BLCKSZ)); [done|].
      destruct (negb (wal_block_size backup =? XLOG_BLCKSZ)); [done|].
      rewrite (bind_ok _ _ _ _ _ G1), (bind_ok _ _ _ _ _ G2), (bind_ok _ _ _ _ _ G3).
      exact G4. }
    by rewrite Hsecond, (restore_database_twice _ _ _ _ _ Hfirst Hsecond).
Qed.

End Idempotence.

(** C8 at the sample incremental and the sample destination. *)
Lemma file_sync_idempotent_witness :
  (forall from compress old,
     restore_data_file_out from compress
       (Some (Reg (restore_data_file_out from compress old)))
     = restore_data_file_out from compress old)
  /\ restore_database sample_config sample_incr
       (restore_database sample_config sample_incr sample_pgdata).2
     = (Ok tt, (restore_database sample_config sample_incr sample_pgdata).2).
Proof.
  assert (Hidem : forall from compress old,
            restore_data_file_out from compress
              (Some (Reg (restore_data_file_out from compress old)))
            = restore_data_file_out from compress old) by reflexivity.
  split; [exact Hidem|].
  apply (file_sync_idempotent Hidem sample_config sample_incr sample_pgdata).
  - vm_compute. reflexivity.
  - intros k Hk Hc. vm_compute in Hk, Hc.
    repeat (apply elem_of_cons in Hk as [->|Hk];
            [repeat (apply elem_of_cons in Hc as [?|Hc]; [done|]);
             by apply elem_of_nil in Hc|]).
    by apply elem_of_nil in Hk.
Defined.

(** ** The deletion pass *)

Section Reconciliation.
Context `{Externals}.

(** In an array sorted by path, descending, what lies below a directory
    stands before the directory. *)
Lemma children_before_parents (t : tree) root exclude i j fp fc :
  parray_qsort (dir_list_file t root exclude) !! i = Some fp ->
  parray_qsort (dir_list_file t root exclude) !! j = Some fc ->
  is_below (rel_path root (path fp)) (rel_path root (path fc)) = true ->
  (j < i)%nat.
Proof.
  intros Hi Hj Hbelow.
  assert (Hfp := Hi). assert (Hfc := Hj).
  apply list_elem_of_lookup_2, parray_qsort_elem_of, elem_of_dir_list_file in Hfp
    as (kp & np & _ & _ & ->).
  apply list_elem_of_lookup_2, parray_qsort_elem_of, elem_of_dir_list_file in Hfc
    as (kc & nc & _ & _ & ->).
  simpl in Hbelow. rewrite !rel_path_join in Hbelow.
  apply is_below_compare in Hbelow.
  destruct (decide (j < i)%nat) as [|Hge]; [done|]. exfalso.
  destruct (decide (i = j)) as [->|Hne].
  - rewrite Hi in Hj. simplify_eq. by rewrite string_compare_refl in Hbelow.
  - pose proof (StronglySorted_lookup _ _ (parray_qsort_sorted _) i j _ _
                  ltac:(lia) Hi Hj) as Hdesc.
    unfold path_desc, pgFileComparePathDesc in Hdesc. simpl in Hdesc.
    by rewrite string_compare_join in Hdesc.
Qed.

(** C3, as amended.  The deletion pass is part of [restore_database]: it
    runs once in every call that restores for real, that is once for each
    entry of the chain, after the files of that entry were copied, against
    the file list of that entry read again under the destination root.  It
    lists the destination without the exclusion set, sorts the file list and
    the listing by path, descending, so that what lies below a directory
    comes before the directory, and deletes exactly the listed entries that
    a binary search does not find in the file list; every other path is
    left as the copy left it.  After the call the destination holds no
    entry, outside the exclusion set, that the file list of the entry just
    applied does not name. *)
Theorem reconciliation_pass (cfg : config) (backup : pgBackup) (t t' : tree) :
  check cfg = false ->
  restore_database cfg backup t = (Ok tt, t') ->
  let root := the (pgdata cfg) in
  let files := parray_qsort (dir_read_file_list root (database_file_list backup)) in
  exists t1 t2 t3,
    run_mkdirs (mkdirs_sh backup) t = (Ok tt, t1)
    /\ forM (remove_not_backed_up
               (dir_read_file_list (pgBackupGetPath backup DATABASE_DIR)
                                   (database_file_list backup)))
            (restore_file cfg backup) t1 = (Ok tt, t2)
    /\ delete_pass cfg backup t2 = (Ok tt, t3)
    /\ remove_postmaster_pid t3 = (Ok tt, t')
    /\ StronglySorted path_desc files
    /\ StronglySorted path_desc (parray_qsort (dir_list_file t2 root pgdata_exclude))
    /\ (forall i j fp fc,
          parray_qsort (dir_list_file t2 root pgdata_exclude) !! i = Some fp ->
          parray_qsort (dir_list_file t2 root pgdata_exclude) !! j = Some fc ->
          is_below (rel_path root (path fp)) (rel_path root (path fc)) = true ->
          (j < i)%nat)
    /\ (forall f, parray_bsearch files f = None <-> forall m, m ∈ files -> path m <> path f)
    /\ (forall k, t3 !! k = if decide (pgdata_exclude k = false /\ k ∉ manifest_keys backup)
                            then None else t2 !! k)
    /\ (forall k, is_Some (t' !! k) -> pgdata_exclude k = true \/ k ∈ manifest_keys backup).
Proof.
  intros Hcheck Hrun root files.
  apply restore_database_inv in Hrun as (t1 & t2 & t3 & H1 & H2 & H3 & H4).
  rewrite Hcheck in H1, H3.
  exists t1, t2, t3. split_and!; try done.
  - apply parray_qsort_sorted.
  - apply parray_qsort_sorted.
  - intros i j fp fc. apply children_before_parents.
  - intros f. apply parray_bsearch_None, parray_qsort_sorted.
  - intros k. apply (delete_pass_ok _ _ _ _ H3).
  - intros k Hk. apply remove_postmaster_pid_ok in H4 as ->.
    destruct (decide ("postmaster.pid" = k)) as [<-|Hne].
    { rewrite lookup_delete_eq in Hk. by destruct Hk. }
    rewrite lookup_delete_ne in Hk by done.
    rewrite (delete_pass_ok _ _ _ _ H3 k) in Hk.
    destruct (decide (pgdata_exclude k = false /\ k ∉ manifest_keys backup)) as [|Hkeep].
    { by destruct Hk. }
    destruct (pgdata_exclude k) eqn:Hex; [by left|right].
    destruct (decide (k ∈ manifest_keys backup)); [done|]. by destruct Hkeep.
Qed.

End Reconciliation.

(** C3 at the sample incremental and the sample destination: base/3, which
    the incremental does not name, is deleted; the file in pg_xlog is not
    listed and stays. *)
Lemma reconciliation_pass_witness :
  check sample_config = false
  /\ restore_database sample_config sample_incr sample_pgdata
     = (Ok tt, {[ "base" := Dir;
                  "base/1" := Reg "copy of /backup/1/database/base/1";
                  "base/2" := Reg "copy of /backup/2/database/base/2";
                  "pg_xlog/000000010000000000000001" := Reg "wal" ]})
  /\ forall k,
       is_Some (({[ "base" := Dir;
                    "base/1" := Reg "copy of /backup/1/database/base/1";
                    "base/2" := Reg "copy of /backup/2/database/base/2";
                    "pg_xlog/000000010000000000000001" := Reg "wal" ]} : tree) !! k) ->
       pgdata_exclude k = true \/ k ∈ manifest_keys sample_incr.
Proof.
  assert (Hrun : restore_database sample_config sample_incr sample_pgdata
                 = (Ok tt, {[ "base" := Dir;
                              "base/1" := Reg "copy of /backup/1/database/base/1";
                              "base/2" := Reg "copy of /backup/2/database/base/2";
                              "pg_xlog/000000010000000000000001" := Reg "wal" ]})).
  { vm_compute. reflexivity. }
  split; [reflexivity|]. split; [exact Hrun|].
  destruct (reconciliation_pass sample_config sample_incr sample_pgdata _ eq_refl Hrun)
    as (t1 & t2 & t3 & _ & _ & _ & _ & _ & _ & _ & _ & _ & Hmirror).
  exact Hmirror.
Defined.

(** C3 as stated fails: the pass does not wait for the end of the chain.
    With the destination holding base/9 only and the chain of the sample
    full backup and an incremental that names base/9, the restore of the
    full backup alone has already deleted base/9, and the chain ends without
    it; one pass after both entries, against the list of the incremental,
    would have kept it. *)
Lemma reconciliation_not_once_per_restore :
  sample_pgdata_stale !! "base/9" = Some (Reg "stale")
  /\ (restore_database sample_config sample_full sample_pgdata_stale).1 = Ok tt
  /\ (restore_database sample_config sample_full sample_pgdata_stale).2 !! "base/9" = None
  /\ (restore_chain sample_config [sample_full; sample_incr_more] sample_pgdata_stale).1
     = Ok tt
  /\ (restore_chain sample_config [sample_full; sample_incr_more] sample_pgdata_stale).2
       !! "base/9" = None
  /\ (restore_chain_reconcile_once sample_config [sample_full; sample_incr_more]
        sample_pgdata_stale).2 !! "base/9" = Some (Reg "stale")
  /\ restore_chain sample_config [sample_full; sample_incr_more] sample_pgdata_stale
     <> restore_chain_reconcile_once sample_config [sample_full; sample_incr_more]
          sample_pgdata_stale.
Proof.
  split_and!; try (vm_compute; reflexivity).
  intros Heq.
  assert (Hk : (restore_chain sample_config [sample_full; sample_incr_more]
                  sample_pgdata_stale).2 !! "base/9"
               = (restore_chain_reconcile_once sample_config [sample_full; sample_incr_more]
                    sample_pgdata_stale).2 !! "base/9") by (by rewrite Heq).
  vm_compute in Hk. discriminate.
Qed.

(** ** The archive restorer *)

Section Archive.
Context `{Externals}.

(** What the body of the loop does with one entry when it restores for
    real and goes through. *)
Lemma restore_archive_file_ok cfg backup file (t t' : tree) :
  check cfg = false ->
  restore_archive_file cfg backup file t = (Ok tt, t') ->
  let k := rel_path (pgBackupGetPath backup ARCLOG_DIR) (path file) in
  t' = if (write_size file =? BYTES_INVALID) || is_history_file (path file) then t
       else if compress_data backup
            then <[k := Reg (copy_file_out (path file) DECOMPRESSION)]> t
            else <[k := Lnk (path file)]> t.
Proof.
  intros Hcheck. unfold restore_archive_file.
  destruct (interrupted cfg); [done|].
  destruct (write_size file =? BYTES_INVALID); simpl; [by intros [=]|].
  destruct (is_history_file (path file)); simpl; [by intros [=]|].
  rewrite Hcheck. destruct (compress_data backup); [by intros [=]|].
  unfold sys_remove, sys_symlink.
  set (k := rel_path (pgBackupGetPath backup ARCLOG_DIR) (path file)).
  destruct (t !! k) as [[| |]|] eqn:Hk.
  - destruct (has_children k t); [done|].
    rewrite lookup_delete_eq. intros [= <-]. by rewrite insert_delete_eq.
  - rewrite lookup_delete_eq. intros [= <-]. by rewrite insert_delete_eq.
  - rewrite lookup_delete_eq. intros [= <-]. by rewrite insert_delete_eq.
  - by intros [= <-].
Qed.

End Archive.

(** C7 at an input where the code leaves the claim.  The catalog is kept
    under /backup/pg.history, so the stored history file of the sample
    archive backup has the path
    /backup/pg.history/3/arclog/00000002.history.  The first occurrence of
    the suffix in that path is in the directory name, the test of lines
    508-509 is false, and the history file is linked into $ARCLOG_PATH like
    a segment.  With the catalog under /backup the same entry is skipped. *)
Lemma history_entry_not_skipped :
  is_history_file "/backup/pg.history/3/arclog/00000002.history" = false
  /\ @restore_archive_logs (externals_at "/backup/pg.history") sample_config sample_archive ∅
     = (Ok tt,
        {[ "00000002.history" := Lnk "/backup/pg.history/3/arclog/00000002.history";
           "000000020000000000000001"
             := Lnk "/backup/pg.history/3/arclog/000000020000000000000001" ]})
  /\ @restore_archive_logs (externals_at "/backup") sample_config sample_archive ∅
     = (Ok tt,
        {[ "000000020000000000000001" := Lnk "/backup/3/arclog/000000020000000000000001" ]}).
Proof. split_and!; vm_compute; reflexivity. Qed.

(** ** Clearing the destination *)

Section Clearing.
Context `{Externals}.

(** Deleting the entries of an array sorted by path, descending, that
    covers the tree never meets a directory that is not empty, and leaves
    nothing. *)
Lemma delete_all_ok root files :
  StronglySorted path_desc files ->
  forall t : tree,
    (forall k, is_Some (t !! k) ->
       exists f, f ∈ files /\ path f = join_path_components root k) ->
    (forall f, f ∈ files -> exists k, path f = join_path_components root k) ->
    forM files (pgFileDelete root) t = (Ok tt, ∅).
Proof.
  induction 1 as [|f files Hsorted IH Hfirst]; intros t Hcover Hform.
  - assert (Hempty : t = ∅); [|by subst t].
    apply map_empty. intros k.
    apply eq_None_not_Some. intros Hk. destruct (Hcover k Hk) as (f & Hin & _).
    by apply elem_of_nil in Hin.
  - destruct (Hform f) as [k Hf]; [by left|].
    assert (Hrest : forall t1 : tree,
              (forall k', t1 !! k' = if decide (k' = k) then None else t !! k') ->
              forM files (pgFileDelete root) t1 = (Ok tt, ∅)).
    { intros t1 Ht1. apply IH.
      - intros k' Hk'. rewrite Ht1 in Hk'. destruct (decide (k' = k)); [by destruct Hk'|].
        destruct (Hcover k' Hk') as (f' & Hin & Hf').
        exists f'. split; [|done]. apply elem_of_cons in Hin as [->|Hin]; [|done].
        rewrite Hf in Hf'. by apply join_path_components_inj in Hf'.
      - intros f' Hin. apply Hform. by right. }
    simpl. unfold mbind, M_bind, pgFileDelete, sys_remove. rewrite Hf, rel_path_join.
    assert (Hdel : forM files (pgFileDelete root) (delete k t) = (Ok tt, ∅)).
    { apply Hrest. intros k'. rewrite lookup_delete.
      destruct (decide (k = k')), (decide (k' = k)); by simplify_eq. }
    destruct (t !! k) as [[| |]|] eqn:Hk; [|done..|].
    + destruct (has_children k t) eqn:Hch; [|done]. exfalso.
      apply has_children_true in Hch as (k' & n & Hk' & Hbelow).
      apply is_below_compare in Hbelow.
      destruct (Hcover k') as (f' & Hin & Hf'); [by eexists|].
      apply elem_of_cons in Hin as [->|Hin].
      * rewrite Hf in Hf'. apply join_path_components_inj in Hf'. subst k'.
        by rewrite string_compare_refl in Hbelow.
      * rewrite Forall_forall in Hfirst. specialize (Hfirst f' Hin).
        unfold path_desc, pgFileComparePathDesc in Hfirst.
        by rewrite Hf, Hf', string_compare_join in Hfirst.
    + apply Hrest. intros k'. destruct (decide (k' = k)) as [->|]; done.
Qed.

(** Lines 107-125 always go through and leave $PGDATA empty. *)
Lemma clear_destination_ok cfg (t : tree) : clear_destination cfg t = (Ok tt, ∅).
Proof.
  unfold clear_destination.
  change (forM (parray_qsort (dir_list_file t (the (pgdata cfg)) no_exclude))
               (pgFileDelete (the (pgdata cfg))) t = (Ok tt, ∅)).
  apply delete_all_ok.
  - apply parray_qsort_sorted.
  - intros k [n Hk].
    exists (mkFile (join_path_components (the (pgdata cfg)) k) (node_kind n) (node_size n) 0).
    split; [|done]. apply parray_qsort_elem_of, elem_of_dir_list_file. by exists k, n.
  - intros f Hin. apply parray_qsort_elem_of, elem_of_dir_list_file in Hin
      as (k & n & _ & _ & ->). by exists k.
Qed.

End Clearing.

(** ** Sub-trees and copies *)

Section Copies.
Context `{Externals}.

Lemma prefix_app_true s r : String.prefix s (s ++ r) = true.
Proof.
  induction s as [|c s IH]; [by destruct r|].
  change (String c s ++ r) with (String c (s ++ r)). simpl.
  by destruct (ascii_dec c c).
Qed.

Lemma string_app_assoc a b c : (a ++ b) ++ c = a ++ (b ++ c).
Proof.
  induction a as [|x a IH]; [done|].
  change ((String x a ++ b) ++ c) with (String x ((a ++ b) ++ c)).
  change (String x a ++ (b ++ c)) with (String x (a ++ (b ++ c))). by rewrite IH.
Qed.

Lemma is_below_join d k : is_below d (join_path_components d k) = true.
Proof.
  unfold is_below, join_path_components.
  rewrite <- string_app_assoc. apply prefix_app_true.
Qed.

Lemma prefix_drop s k : String.prefix s k = true -> s ++ string_drop (String.length s) k = k.
Proof.
  revert k. induction s as [|c s IH]; intros k; [by destruct k|].
  destruct k as [|c' k]; [done|]. simpl.
  destruct (ascii_dec c c') as [->|]; [|done]. intros Hp.
  change (String c' s ++ string_drop (String.length s) k)
    with (String c' (s ++ string_drop (String.length s) k)).
  by rewrite IH.
Qed.

Lemma string_length_app a b : String.length (a ++ b) = (String.length a + String.length b)%nat.
Proof.
  induction a as [|x a IH]; [done|].
  change (String x a ++ b) with (String x (a ++ b)). simpl. by rewrite IH.
Qed.

Lemma is_below_rel d k : is_below d k = true -> join_path_components d (rel_path d k) = k.
Proof.
  unfold is_below, join_path_components, rel_path. intros Hp.
  apply prefix_drop in Hp. rewrite string_length_app in Hp. simpl in Hp.
  by rewrite <- string_app_assoc.
Qed.

(** The sub-tree of a directory holds what the tree holds below it. *)
Lemma lookup_subtree d (t : tree) k : subtree d t !! k = t !! join_path_components d k.
Proof.
  unfold subtree.
  set (g := fun kn : string * node =>
              if is_below d kn.1 then Some (rel_path d kn.1, kn.2) else None).
  assert (Hin : forall y, (k, y) ∈ omap g (map_to_list t) <->
                          t !! join_path_components d k = Some y).
  { intros y. rewrite list_elem_of_omap. split.
    - intros ([k' n] & Hk' & Hg). apply elem_of_map_to_list in Hk'.
      unfold g in Hg. simpl in Hg. destruct (is_below d k') eqn:Hb; [|done].
      simplify_eq. by rewrite is_below_rel.
    - intros Hy. exists (join_path_components d k, y).
      split; [by apply elem_of_map_to_list|].
      unfold g. simpl. by rewrite is_below_join, rel_path_join. }
  destruct (t !! join_path_components d k) as [n|] eqn:Hk.
  - apply elem_of_list_to_map_1'; [|by apply Hin].
    intros y Hy. apply Hin in Hy. congruence.
  - apply not_elem_of_list_to_map. intros Hfst.
    apply list_elem_of_fmap in Hfst as ([k' y] & -> & Hy). simpl in Hy.
    apply Hin in Hy. done.
Qed.

(** A copy that is made for real puts every file of the source in the
    target. *)
Lemma dir_copy_files_reg (src dst : tree) k data :
  src !! k = Some (Reg data) -> dir_copy_files false src dst !! k = Some (Reg data).
Proof.
  intros Hk. unfold dir_copy_files. rewrite lookup_union_with, lookup_fmap, Hk. simpl.
  by destruct (dst !! k).
Qed.

End Copies.

(** ** How a run can end *)

Lemma fails_only_ret {S A} (P : elevel -> Prop) (a : A) : fails_only (S := S) P (mret a).
Proof. intros s e s' [=]. Qed.

Lemma fails_only_elog {S A} (P : elevel -> Prop) e : P e -> fails_only (S := S) (A := A) P (elog e).
Proof. intros He s e' s' [= <- _]. done. Qed.

Lemma fails_only_bind {S A B} (P : elevel -> Prop) (m : M S A) (k : A -> M S B) :
  fails_only P m -> (forall a, fails_only P (k a)) -> fails_only P (m ≫= k).
Proof.
  intros Hm Hk s e s'. unfold mbind, M_bind.
  destruct (m s) as [[a|e0|] s1] eqn:Hms; [apply Hk| |done].
  intros [= <- <-]. by apply (Hm s e0 s1).
Qed.

Lemma fails_only_forM {S A} (P : elevel -> Prop) (l : list A) (body : A -> M S unit) :
  (forall x, fails_only P (body x)) -> fails_only P (forM l body).
Proof.
  intros Hbody. induction l as [|x l IH]; simpl.
  - apply fails_only_ret.
  - apply fails_only_bind; [apply Hbody|]. intros _. apply IH.
Qed.

Lemma fails_only_if {S A} (P : elevel -> Prop) (b : bool) (m1 m2 : M S A) :
  fails_only P m1 -> fails_only P m2 -> fails_only P (if b then m1 else m2).
Proof. by destruct b. Qed.

Lemma fails_only_on_pgdata {A} (P : elevel -> Prop) (m : M tree A) :
  fails_only P m -> fails_only P (on_pgdata m).
Proof.
  intros Hm w e w'. unfold on_pgdata. destruct (m (w_pgdata w)) as [r t] eqn:Hr.
  intros [= -> <-]. by apply (Hm _ _ _ Hr).
Qed.

Lemma fails_only_on_arclog {A} (P : elevel -> Prop) (m : M tree A) :
  fails_only P m -> fails_only P (on_arclog m).
Proof.
  intros Hm w e w'. unfold on_arclog. destruct (m (w_arclog w)) as [r t] eqn:Hr.
  intros [= -> <-]. by apply (Hm _ _ _ Hr).
Qed.

Section Endings.
Context `{Externals}.

Lemma fails_only_pgFileDelete root file : fails_only late_error (pgFileDelete root file).
Proof.
  intros t e t'. unfold pgFileDelete. destruct (sys_remove _ t); intros [= <- _].
  unfold late_error. tauto.
Qed.

Lemma fails_only_restore_database cfg backup :
  fails_only late_error (restore_database cfg backup).
Proof.
  unfold restore_database.
  apply fails_only_if; [apply fails_only_elog; unfold late_error; tauto|].
  apply fails_only_if; [apply fails_only_elog; unfold late_error; tauto|].
  apply fails_only_bind.
  { apply fails_only_if; [apply fails_only_ret|]. apply fails_only_forM.
    intros d t e t'. unfold mkdirs_step. destruct (t !! d) as [[| |]|]; intros [= <- _];
      unfold late_error; tauto. }
  intros _. apply fails_only_bind.
  { apply fails_only_forM. intros f. unfold restore_file.
    apply fails_only_if; [apply fails_only_elog; unfold late_error; tauto|].
    apply fails_only_if; [apply fails_only_ret|].
    apply fails_only_if; [apply fails_only_ret|].
    apply fails_only_if; [apply fails_only_ret|]. by intros t e t' [=]. }
  intros _. apply fails_only_bind.
  { apply fails_only_if; [apply fails_only_ret|]. unfold delete_pass.
    apply fails_only_bind; [by intros t e t' [=]|]. intros t.
    apply fails_only_forM. intros f. unfold delete_unlisted.
    destruct (parray_bsearch _ f); [apply fails_only_ret|apply fails_only_pgFileDelete]. }
  intros _ t e t'. unfold remove_postmaster_pid.
  destruct (sys_remove _ t); intros [= <- _]. unfold late_error. tauto.
Qed.

Lemma fails_only_restore_incrementals {W} (restore : pgBackup -> M W unit)
    tls base_backup n last_restored_index backups :
  (forall backup, fails_only late_error (restore backup)) ->
  fails_only late_error
    (restore_incrementals restore tls base_backup n last_restored_index backups).
Proof.
  intros Hrestore. revert last_restored_index backups.
  induction n as [|i IH]; intros lri backups; simpl; [apply fails_only_ret|].
  destruct (backups !! i) as [backup|];
    [|apply fails_only_elog; unfold late_error; tauto].
  repeat (apply fails_only_if; [apply IH|]).
  apply fails_only_bind; [apply Hrestore|]. intros _. apply IH.
Qed.

Lemma fails_only_restore_archive_logs cfg backup :
  fails_only late_error (restore_archive_logs cfg backup).
Proof.
  unfold restore_archive_logs. apply fails_only_forM. intros f. unfold restore_archive_file.
  apply fails_only_if; [apply fails_only_elog; unfold late_error; tauto|].
  apply fails_only_if; [apply fails_only_ret|].
  apply fails_only_if; [apply fails_only_ret|].
  apply fails_only_if; [apply fails_only_ret|].
  apply fails_only_if; [by intros t e t' [=]|].
  intros t e t'. unfold sys_symlink.
  destruct (sys_remove _ t) as [t1| |].
  - destruct (t1 !! _); intros [= <- _]. unfold late_error. tauto.
  - destruct (t !! _); intros [= <- _]. unfold late_error. tauto.
  - intros [= <- _]. unfold late_error. tauto.
Qed.

(** Outside check mode the archive loop does not search. *)
Lemma fails_only_restore_archives fuel cfg backups n loc :
  check cfg = false ->
  fails_only late_error (restore_archives fuel cfg backups n loc).
Proof.
  intros Hcheck. revert loc. induction n as [|i IH]; intros loc; simpl;
    [apply fails_only_ret|].
  destruct (backups !! i) as [backup|];
    [|apply fails_only_elog; unfold late_error; tauto].
  repeat (apply fails_only_if; [apply IH|]).
  apply fails_only_bind.
  { apply fails_only_on_arclog, fails_only_restore_archive_logs. }
  intros _. rewrite Hcheck. apply fails_only_bind; [apply fails_only_ret|].
  intros loc'. apply IH.
Qed.

Lemma get_fullbackup_timeline_fatal backups e :
  (get_fullbackup_timeline backups).1 = Fatal e -> e = ERROR_NO_BACKUP.
Proof.
  induction backups as [|b backups IH]; simpl; [by intros [=]|].
  destruct (get_fullbackup_timeline backups) as [r rest'].
  destruct (negb (mode_lt (backup_mode b) BACKUP_MODE_FULL)); [|done].
  by destruct (bool_decide _) in |- *; destruct (bool_decide _).
Qed.

End Endings.

(** ** The destructive steps of [do_restore] *)

Section Destructive.
Context `{Externals}.

Lemma bind_lift_ok {S A B} (a : A) (k : A -> M S B) s : (lift (Ok a) ≫= k) s = k a s.
Proof. reflexivity. Qed.

Lemma bind_lift_fatal {S A B} e (k : A -> M S B) s :
  (lift (Fatal e) ≫= k) s = (Fatal e, s).
Proof. reflexivity. Qed.

Lemma bind_get {S B} (k : S -> M S B) s : (get ≫= k) s = k s s.
Proof. reflexivity. Qed.

(** What [backup_online_files] leaves. *)
Lemma backup_online_files_ok cfg inp backup_tli w :
  exists w1,
    backup_online_files cfg inp
      (negb (in_cur_tli inp =? 0) && negb (in_cur_tli inp =? backup_tli)) w = (Ok tt, w1)
    /\ w_pgdata w1 = w_pgdata w
    /\ (snapshot_reused inp backup_tli w = true ->
          w_work_xlog w1 = w_work_xlog w /\ w_work_srvlog w1 = w_work_srvlog w)
    /\ (snapshot_reused inp backup_tli w = false ->
          w_work_xlog w1
          = dir_copy_files (check cfg) (subtree PG_XLOG_DIR (w_pgdata w)) (w_work_xlog w)
          /\ w_work_srvlog w1
             = dir_copy_files (check cfg) (in_srvlog inp) (w_work_srvlog w)).
Proof.
  unfold backup_online_files, snapshot_reused.
  destruct (negb (bool_decide (w_work_xlog w = ∅))
            && negb (negb (in_cur_tli inp =? 0) && negb (in_cur_tli inp =? backup_tli))).
  - exists w. by split_and!.
  - eexists. split; [reflexivity|]. by split_and!.
Qed.

(** C9, as amended.  In every run that restores for real and gets past the
    first checks (the paths are set, the lock is taken, the server is
    stopped, the catalog has a full backup that is OK), two things are done
    before the timeline chain is resolved and before a base backup is
    chosen: [backup_online_files] has run, and it has copied the online WAL
    and the server log into the restore work area unless the work area
    already held a copy of online WAL and the cluster's timeline is unknown
    or that of the last full backup, in which case it copied nothing; and
    $PGDATA has been cleared, leaf first.  So when the run then ends with
    the corrupted-history error, or with the no-usable-backup error of the
    search for the base backup, the process leaves $PGDATA empty: nothing
    was restored and nothing is put back. *)
Theorem destination_cleared_before_resolution (fuel : nat) (cfg : config) (inp : inputs)
    (target_time target_xid target_inclusive : option string) (target_tli : Z)
    (w w' : world) (e : elevel) :
  check cfg = false ->
  do_restore fuel cfg inp target_time target_xid target_inclusive target_tli w
  = (Fatal e, w') ->
  (e = ERROR_CORRUPTED
   \/ (e = ERROR_NO_BACKUP
       /\ (get_fullbackup_timeline (in_backups inp)).1 <> Fatal ERROR_NO_BACKUP)) ->
  exists backup_tli,
    (get_fullbackup_timeline (in_backups inp)).1 = Ok backup_tli
    /\ w_pgdata w' = ∅
    /\ (snapshot_reused inp backup_tli w = true ->
          w_work_xlog w' = w_work_xlog w /\ w_work_srvlog w' = w_work_srvlog w)
    /\ (snapshot_reused inp backup_tli w = false ->
          (forall k data,
             w_pgdata w !! join_path_components PG_XLOG_DIR k = Some (Reg data) ->
             w_work_xlog w' !! k = Some (Reg data))
          /\ (forall k data,
                in_srvlog inp !! k = Some (Reg data) ->
                w_work_srvlog w' !! k = Some (Reg data))).
Proof.
  intros Hcheck Hrun Herr.
  assert (Hearly : e <> ERROR_ARGS /\ e <> ERROR_SYSTEM /\ e <> ERROR_ALREADY_RUNNING
                   /\ e <> ERROR_PG_RUNNING /\ ~ late_error e).
  { unfold late_error. destruct Herr as [->|[-> _]]; split_and!; try done;
      intros [?|[?|[?|?]]]; done. }
  destruct Hearly as (Ha & Hs & Hr & Hp & Hlate).
  unfold do_restore in Hrun. cbv zeta in Hrun.
  destruct (bool_decide (pgdata cfg = None)); [by injection Hrun as <- _|].
  destruct (bool_decide (arclog_path cfg = None)); [by injection Hrun as <- _|].
  destruct (bool_decide (srvlog_path cfg = None)); [by injection Hrun as <- _|].
  destruct (in_catalog_lock inp =? -1); [by injection Hrun as <- _|].
  destruct (in_catalog_lock inp =? 1); [by injection Hrun as <- _|].
  destruct (in_pg_running inp); [by injection Hrun as <- _|].
  destruct (get_fullbackup_timeline (in_backups inp)).1 as [backup_tli|e0|] eqn:Hfull;
    [|rewrite bind_lift_fatal in Hrun|done].
  2: { injection Hrun as <- _. apply get_fullbackup_timeline_fatal in Hfull as ->.
       by destruct Herr as [?|[_ ?]]. }
  rewrite bind_lift_ok in Hrun.
  destruct (backup_online_files_ok cfg inp backup_tli w)
    as (w1 & Hbo & Hpg1 & Hreused & Hcopied).
  rewrite (bind_ok _ _ _ _ _ Hbo) in Hrun. rewrite Hcheck in Hrun.
  assert (Hclear : on_pgdata (clear_destination cfg) w1
                   = (Ok tt, mkWorld ∅ (w_arclog w1) (w_work_xlog w1) (w_work_srvlog w1)
                                     (w_stdout w1))).
  { unfold on_pgdata. by rewrite clear_destination_ok. }
  rewrite (bind_ok _ _ _ _ _ Hclear) in Hrun.
  set (w3 := mkWorld ∅ (dir_copy_files false (in_timeline_history inp) (w_arclog w1))
                     (w_work_xlog w1) (w_work_srvlog w1) (w_stdout w1)).
  assert (Hhist : on_arclog (modify (dir_copy_files false (in_timeline_history inp)))
                    (mkWorld ∅ (w_arclog w1) (w_work_xlog w1) (w_work_srvlog w1) (w_stdout w1))
                  = (Ok tt, w3)) by reflexivity.
  rewrite (bind_ok _ _ _ _ _ Hhist) in Hrun. rewrite bind_get in Hrun.
  assert (Hleft : exists backup_tli0,
            Ok backup_tli = Ok backup_tli0
            /\ w_pgdata w3 = ∅
            /\ (snapshot_reused inp backup_tli0 w = true ->
                  w_work_xlog w3 = w_work_xlog w /\ w_work_srvlog w3 = w_work_srvlog w)
            /\ (snapshot_reused inp backup_tli0 w = false ->
                  (forall k data,
                     w_pgdata w !! join_path_components PG_XLOG_DIR k = Some (Reg data) ->
                     w_work_xlog w3 !! k = Some (Reg data))
                  /\ (forall k data,
                        in_srvlog inp !! k = Some (Reg data) ->
                        w_work_srvlog w3 !! k = Some (Reg data)))).
  { exists backup_tli. split; [done|]. split; [done|]. split; [exact Hreused|].
    intros Hfresh. destruct (Hcopied Hfresh) as [Hx Hsrv]. simpl.
    rewrite Hx, Hsrv, Hcheck. split.
    - intros k data Hk. apply dir_copy_files_reg. by rewrite lookup_subtree.
    - intros k data Hk. by apply dir_copy_files_reg. }
  destruct (readTimeLineHistory (w_arclog w3) (w_work_xlog w3) _) as [tls|e1|];
    [|rewrite bind_lift_fatal in Hrun; by injection Hrun as _ <-|done].
  rewrite bind_lift_ok in Hrun.
  destruct (find_base_backup (have_libz cfg) tls 0 _) as [found|e1|];
    [|rewrite bind_lift_fatal in Hrun; by injection Hrun as _ <-|done].
  rewrite bind_lift_ok in Hrun.
  (* from here on the run cannot end with either of the two errors *)
  exfalso. apply Hlate. revert Hrun.
  match goal with |- ?m w3 = _ -> _ => cut (fails_only late_error m) end.
  { intros Htail Hrun. by apply (Htail _ _ _ Hrun). }
  apply fails_only_bind.
  { apply fails_only_on_pgdata, fails_only_restore_database. }
  intros _. apply fails_only_bind.
  { apply fails_only_restore_incrementals. intros backup.
    apply fails_only_on_pgdata, fails_only_restore_database. }
  intros restored. apply fails_only_bind.
  { unfold first_needed. rewrite Hcheck. apply fails_only_ret. }
  intros loc. apply fails_only_bind.
  { by apply fails_only_restore_archives. }
  intros loc'. apply fails_only_bind; [by intros ? ? ? [=]|].
  intros _. apply fails_only_bind; [apply fails_only_ret|].
  intros _. apply fails_only_bind; [|intros _; apply fails_only_ret].
  apply fails_only_on_pgdata. intros t e2 t'. unfold create_recovery_conf.
  rewrite Hcheck. destruct (t !! "recovery.conf") as [[| |]|]; intros [= <- _];
    unfold late_error; tauto.
Qed.

End Destructive.

(** C9 at the sample run with an empty work area: the history file of
    timeline 1 is corrupted, the run ends there, $PGDATA is empty and the
    live segment is in the work area. *)
Lemma destination_cleared_before_resolution_witness :
  check sample_config = false
  /\ (do_restore 0 sample_config sample_inputs_corrupted None None None 0
        sample_world_fresh).1 = Fatal ERROR_CORRUPTED
  /\ w_pgdata (do_restore 0 sample_config sample_inputs_corrupted None None None 0
                 sample_world_fresh).2 = ∅.
Proof.
  split; [reflexivity|]. split; [vm_compute; reflexivity|].
  destruct (destination_cleared_before_resolution 0 sample_config sample_inputs_corrupted
              None None None 0 sample_world_fresh
              (do_restore 0 sample_config sample_inputs_corrupted None None None 0
                 sample_world_fresh).2
              ERROR_CORRUPTED eq_refl)
    as (backup_tli & _ & Hempty & _).
  - vm_compute. reflexivity.
  - by left.
  - exact Hempty.
Defined.

(** C9 as stated fails: a run that restores for real does not always take
    a snapshot of the online WAL.  The work area holds the copy an earlier
    run made and the cluster is on the timeline of the full backup, so
    [backup_online_files] returns at once; $PGDATA is then cleared, and the
    run ends with the corrupted-history error.  The live segment
    000000010000000000000007 is neither in $PGDATA nor in the work area. *)
Lemma online_snapshot_not_always_taken :
  check sample_config = false
  /\ w_pgdata sample_world_live !! "pg_xlog/000000010000000000000007"
     = Some (Reg "live wal")
  /\ (do_restore 0 sample_config sample_inputs_corrupted None None None 0
        sample_world_live).1 = Fatal ERROR_CORRUPTED
  /\ w_pgdata (do_restore 0 sample_config sample_inputs_corrupted None None None 0
                 sample_world_live).2 = ∅
  /\ w_work_xlog (do_restore 0 sample_config sample_inputs_corrupted None None None 0
                    sample_world_live).2
     = w_work_xlog sample_world_live
  /\ w_work_xlog (do_restore 0 sample_config sample_inputs_corrupted None None None 0
                    sample_world_live).2 !! "000000010000000000000007" = None.
Proof. split_and!; vm_compute; reflexivity. Qed.

(* ===================================================================== *)
(** * Part III: further properties of the code                            *)
(* ===================================================================== *)

(** ** The latest full backup *)

Section Catalog.
Context `{Externals}.

(** X1.  [get_fullbackup_timeline] returns the timeline of the first full backup
    of the catalog that is OK, or that is DONE and validates as OK; the
    full backups it passed on the way that were DONE are left validated,
    that one included, and nothing behind it is touched.  With no such
    backup, the empty catalog included, it ends with the no-backup error,
    and then every DONE full backup of the catalog has been validated. *)
Theorem get_fullbackup_timeline_first_usable (backups : list pgBackup) :
  get_fullbackup_timeline backups
  = match list_find (fun backup => usable_full backup = true) backups with
    | Some (i, backup) =>
        (Ok (tli backup), (passed <$> take (S i) backups) ++ drop (S i) backups)%list
    | None => (Fatal ERROR_NO_BACKUP, passed <$> backups)
    end.
Proof.
  induction backups as [|b backups IH]; [done|].
  cbn [get_fullbackup_timeline list_find]. rewrite IH. clear IH.
  set (found := list_find (fun backup => usable_full backup = true) backups).
  assert (Hrest : forall b0 : pgBackup,
            (let '(r, rest') :=
               match found with
               | Some (i, backup) =>
                   (Ok (tli backup),
                    (passed <$> take (S i) backups) ++ drop (S i) backups)%list
               | None => (Fatal ERROR_NO_BACKUP, passed <$> backups)
               end in (r, b0 :: rest'))
            = match prod_map S id <$> found with
              | Some (i, backup) =>
                  (Ok (tli backup),
                   (b0 :: (passed <$> take i backups) ++ drop i backups)%list)
              | None => (Fatal ERROR_NO_BACKUP, b0 :: (passed <$> backups))
              end).
  { intros b0. by destruct found as [[i b']|]. }
  assert (Hshape : forall r : option (nat * pgBackup),
            match r with
            | Some (i, backup) =>
                (Ok (tli backup),
                 (passed <$> take (S i) (b :: backups)) ++ drop (S i) (b :: backups))%list
            | None => (Fatal ERROR_NO_BACKUP, passed <$> b :: backups)
            end
            = match r with
              | Some (i, backup) =>
                  (Ok (tli backup),
                   (passed b :: (passed <$> take i backups) ++ drop i backups)%list)
              | None => (Fatal ERROR_NO_BACKUP, passed b :: (passed <$> backups))
              end).
  { by intros [[i b']|]. }
  rewrite Hshape. clear Hshape.
  assert (Hp : passed b
               = if negb (mode_lt (backup_mode b) BACKUP_MODE_FULL)
                    && bool_decide (status b = BACKUP_STATUS_DONE)
                 then validated b else b) by done.
  rewrite Hp. clear Hp.
  destruct (decide (usable_full b = true)) as [Hu|Hu]; unfold usable_full in Hu;
    destruct (negb (mode_lt (backup_mode b) BACKUP_MODE_FULL)); simpl in *;
    try done; try (by rewrite Hrest);
    destruct (bool_decide (status b = BACKUP_STATUS_DONE)) eqn:Hdone; simpl in *.
  - apply bool_decide_eq_true in Hdone.
    rewrite (bool_decide_eq_false_2 (status b = BACKUP_STATUS_OK)) in Hu by congruence.
    simpl in Hu. by rewrite Hu.
  - rewrite orb_false_r in Hu. by rewrite Hu.
  - apply bool_decide_eq_true in Hdone.
    rewrite (bool_decide_eq_false_2 (status b = BACKUP_STATUS_OK)) in Hu by congruence.
    simpl in Hu. apply not_true_is_false in Hu. by rewrite Hu, Hrest.
  - rewrite orb_false_r in Hu. apply not_true_is_false in Hu. by rewrite Hu, Hrest.
Qed.

End Catalog.

(** ** The timeline chain *)

Section Chain.
Context `{Externals}.

Lemma fopen_rt_no_error (t : tree) name : fopen_rt t name <> FError.
Proof. unfold fopen_rt. by destruct (t !! name) as [[| |]|]. Qed.

Lemma parse_history_shape fd targetTLI :
  match parse_history fd targetTLI with
  | Ok chain =>
      head chain = Some (mkTimeLine targetTLI max_lsn)
      /\ StronglySorted desc (map tl_tli chain)
  | Fatal e => e = ERROR_CORRUPTED /\ is_Some fd
  | OutOfFuel => False
  end.
Proof.
  destruct fd as [content|].
  - pose proof (parse_history_inv content targetTLI) as Hinv.
    destruct (parse_history (Some content) targetTLI) as [chain|e|]; [| |done].
    + destruct Hinv as (-> & _ & Hs). split; [done|].
      apply Sorted_StronglySorted; [|done]. intros x y z. unfold desc. lia.
    + split; [done|by eexists].
  - cbn. split; [done|]. repeat constructor.
Qed.

(** X2.  Whatever the history file holds, a chain that [readTimeLineHistory]
    returns starts with the target timeline, whose end is the largest
    position there is, and the timeline ids go strictly down from there; so
    every backup of the target timeline whose stop position is not that
    largest one is accepted by [satisfy_timeline].  On trees the function
    ends the process only with the corrupted-history error, and only when
    a history file was there to read. *)
Theorem timeline_chain_shape (arclog work_xlog : tree) (targetTLI : Z) :
  match readTimeLineHistory arclog work_xlog targetTLI with
  | Ok chain =>
      head chain = Some (mkTimeLine targetTLI max_lsn)
      /\ (forall i j a b, (i < j)%nat -> chain !! i = Some a -> chain !! j = Some b ->
            tl_tli b < tl_tli a)
      /\ (forall backup,
            tli backup = targetTLI ->
            is_uint32 (xlogid (stop_lsn backup)) -> is_uint32 (xrecoff (stop_lsn backup)) ->
            stop_lsn backup <> max_lsn ->
            satisfy_timeline chain backup = true)
  | Fatal e =>
      e = ERROR_CORRUPTED
      /\ (is_Some (arclog !! history_file_name targetTLI)
          \/ is_Some (work_xlog !! history_file_name targetTLI))
  | OutOfFuel => False
  end.
Proof.
  assert (Hshape : forall fd,
            (is_Some fd -> is_Some (arclog !! history_file_name targetTLI)
                           \/ is_Some (work_xlog !! history_file_name targetTLI)) ->
            match parse_history fd targetTLI with
            | Ok chain =>
                head chain = Some (mkTimeLine targetTLI max_lsn)
                /\ (forall i j a b, (i < j)%nat -> chain !! i = Some a ->
                      chain !! j = Some b -> tl_tli b < tl_tli a)
                /\ (forall backup,
                      tli backup = targetTLI ->
                      is_uint32 (xlogid (stop_lsn backup)) ->
                      is_uint32 (xrecoff (stop_lsn backup)) ->
                      stop_lsn backup <> max_lsn ->
                      satisfy_timeline chain backup = true)
            | Fatal e =>
                e = ERROR_CORRUPTED
                /\ (is_Some (arclog !! history_file_name targetTLI)
                    \/ is_Some (work_xlog !! history_file_name targetTLI))
            | OutOfFuel => False
            end).
  { intros fd Hfd. pose proof (parse_history_shape fd targetTLI) as Hp.
    destruct (parse_history fd targetTLI) as [chain|e|]; [| |done].
    - destruct Hp as [Hhead Hs]. split; [done|]. split.
      + intros i j a b Hlt Ha Hb.
        assert (Hi : map tl_tli chain !! i = Some (tl_tli a)).
        { by rewrite list_lookup_fmap, Ha. }
        assert (Hj : map tl_tli chain !! j = Some (tl_tli b)).
        { by rewrite list_lookup_fmap, Hb. }
        apply (StronglySorted_lookup desc _ Hs i j (tl_tli a) (tl_tli b) Hlt Hi Hj).
      + intros backup Htli Hid Hoff Hne. apply satisfy_timeline_spec.
        exists (mkTimeLine targetTLI max_lsn). split; [|split; [done|]].
        * destruct chain as [|c chain]; simplify_eq/=. by left.
        * destruct (stop_lsn backup) as [i o].
          unfold lsn_lt, is_uint32, max_lsn in *. simpl in *.
          destruct (decide (i = UINT32_MAX)) as [->|Hi']; [|left; lia].
          right. split; [done|].
          destruct (decide (o = UINT32_MAX)) as [->|Ho']; [done|lia].
    - destruct Hp as [-> Hsome]. split; [done|]. by apply Hfd. }
  unfold readTimeLineHistory, readTimeLineHistory_from.
  pose proof (fopen_rt_no_error arclog (history_file_name targetTLI)) as Hno1.
  pose proof (fopen_rt_no_error work_xlog (history_file_name targetTLI)) as Hno2.
  assert (Hopen : forall (t : tree) content,
            fopen_rt t (history_file_name targetTLI) = FOpened content ->
            is_Some (t !! history_file_name targetTLI)).
  { intros t content. unfold fopen_rt.
    destruct (t !! history_file_name targetTLI) as [n|]; [by eexists|done]. }
  destruct (fopen_rt arclog (history_file_name targetTLI)) as [c| |] eqn:H1; [| |done].
  { apply Hshape. intros _. left. by apply (Hopen _ c). }
  destruct (fopen_rt work_xlog (history_file_name targetTLI)) as [c| |] eqn:H2; [| |done].
  { apply Hshape. intros _. right. by apply (Hopen _ c). }
  apply Hshape. by intros [? ?].
Qed.

End Chain.

(** ** The older timelines during the search *)

Lemma half_of_older (k : nat) :
  (k - (k + 1) / 2 = k / 2)%nat /\ ((k / 2 = 0)%nat <-> (k <= 1)%nat).
Proof.
  assert (Hdiv : forall a q r, (r < 2)%nat -> (a = 2 * q + r)%nat -> (a / 2 = q)%nat).
  { intros a q r Hr Ha. symmetry. by apply (Nat.div_unique a 2 q r). }
  destruct (Nat.Even_or_Odd k) as [[m ->]|[m ->]].
  - rewrite (Hdiv (2 * m + 1) m 1)%nat, (Hdiv (2 * m) m 0)%nat by lia. lia.
  - rewrite (Hdiv (2 * m + 1 + 1) (m + 1) 0)%nat, (Hdiv (2 * m + 1) m 1)%nat by lia. lia.
Qed.

(** X3.  When [search_next_wal] finds a segment at entry [i] of the chain, the
    loop of lines 965-966 keeps the entries up to [i] and removes, of the
    [k] older entries behind it, only the first [(k + 1) / 2]: its bound
    shrinks while its index grows.  So [k / 2] older entries stay, and all
    of them go only when there is at most one. *)
Theorem old_timelines_half_removed (i : nat) (tls : list pgTimeLine) :
  (i < length tls)%nat ->
  let k := (length tls - S i)%nat in
  delete_old_tli i tls = (take (S i) tls ++ drop (S i + (k + 1) / 2) tls)%list
  /\ length (delete_old_tli i tls) = (S i + k / 2)%nat
  /\ (delete_old_tli i tls = take (S i) tls <-> (k <= 1)%nat).
Proof.
  intros Hi k.
  assert (Hspec : delete_old_tli i tls
                  = (take (S i) tls ++ drop (S i + (k + 1) / 2) tls)%list).
  { rewrite delete_old_tli_spec.
    by replace (length tls - i)%nat with (k + 1)%nat by (unfold k; lia). }
  assert (Hlen : length (drop (S i + (k + 1) / 2) tls) = (k / 2)%nat).
  { rewrite length_drop. pose proof (proj1 (half_of_older k)) as Hhalf.
    rewrite <- Hhalf. unfold k. lia. }
  split; [done|]. split.
  - rewrite Hspec, length_app, Hlen, length_take_le by lia. done.
  - rewrite Hspec. split.
    + intros Heq. apply (f_equal length) in Heq.
      rewrite length_app, Hlen in Heq.
      apply half_of_older. lia.
    + intros Hk. assert (Hnil : drop (S i + (k + 1) / 2) tls = []).
      { apply length_zero_iff_nil. rewrite Hlen. by apply half_of_older. }
      by rewrite Hnil, app_nil_r.
Qed.

(** At a chain of five entries with the segment found at the second: of
    the three older entries the last one stays. *)
Lemma old_timelines_half_removed_witness :
  delete_old_tli 1 [mkTimeLine 5 max_lsn; mkTimeLine 4 (mkLSN 0 40);
                    mkTimeLine 3 (mkLSN 0 30); mkTimeLine 2 (mkLSN 0 20);
                    mkTimeLine 1 (mkLSN 0 10)]
  = [mkTimeLine 5 max_lsn; mkTimeLine 4 (mkLSN 0 40); mkTimeLine 1 (mkLSN 0 10)].
Proof.
  refine (proj1 (old_timelines_half_removed 1
                   [mkTimeLine 5 max_lsn; mkTimeLine 4 (mkLSN 0 40);
                    mkTimeLine 3 (mkLSN 0 30); mkTimeLine 2 (mkLSN 0 20);
                    mkTimeLine 1 (mkLSN 0 10)] _)).
  simpl. lia.
Defined.

(** ** [restore_database]: what a run that does not complete leaves *)

Section Restore.
Context `{Externals}.

(** The only ways the copy loop ends, and what it has written when it was
    interrupted: nothing. *)
Lemma copy_loop_outcome cfg backup files : forall (t t' : tree) r,
  forM files (restore_file cfg backup) t = (r, t') ->
  (exists u, r = Ok u) \/ (r = Fatal ERROR_INTERRUPTED /\ interrupted cfg = true /\ t' = t).
Proof.
  induction files as [|f files IH]; intros t t' r Hrun.
  - injection Hrun as <- <-. left. by eexists.
  - simpl in Hrun. unfold mbind, M_bind in Hrun. unfold restore_file at 1 in Hrun.
    destruct (interrupted cfg) eqn:Hint.
    { injection Hrun as <- <-. by right. }
    destruct (S_ISDIR f); [by apply (IH t)|].
    destruct (write_size f =? BYTES_INVALID); [by apply (IH t)|].
    destruct (check cfg); [by apply (IH t)|].
    destruct (IH _ _ _ Hrun) as [?|(_ & ? & _)]; [by left|done].
Qed.

Lemma remove_postmaster_pid_outcome (t t' : tree) (r : res unit) :
  remove_postmaster_pid t = (r, t') ->
  (r = Ok tt /\ t' = delete "postmaster.pid" t) \/ (r = Fatal ERROR_SYSTEM /\ t' = t).
Proof.
  unfold remove_postmaster_pid, sys_remove.
  destruct (t !! "postmaster.pid") as [[| |]|] eqn:Hk.
  - destruct (has_children "postmaster.pid" t); intros [= <- <-]; [by right|by left].
  - intros [= <- <-]. by left.
  - intros [= <- <-]. by left.
  - intros [= <- <-]. left. by rewrite delete_id.
Qed.

(** In check mode the steps of [restore_database] before the removal of
    postmaster.pid leave the tree as it is. *)
Lemma restore_database_checked_steps cfg backup (t t' : tree) (r : res unit) :
  check cfg = true ->
  restore_database cfg backup t = (r, t') ->
  (exists e, r = Fatal e /\ t' = t /\ (e = ERROR_PG_INCOMPATIBLE \/ e = ERROR_INTERRUPTED))
  \/ remove_postmaster_pid t = (r, t').
Proof.
  intros Hcheck. unfold restore_database. rewrite Hcheck.
  destruct (negb (block_size backup =? BLCKSZ)).
  { intros [= <- <-]. left. exists ERROR_PG_INCOMPATIBLE. tauto. }
  destruct (negb (wal_block_size backup =? XLOG_BLCKSZ)).
  { intros [= <- <-]. left. exists ERROR_PG_INCOMPATIBLE. tauto. }
  unfold mbind at 1, M_bind at 1. cbn [mret M_ret].
  unfold mbind at 1, M_bind at 1.
  destruct (forM _ (restore_file cfg backup) t) as [r2 t2] eqn:H2.
  pose proof (copy_loop_outcome _ _ _ _ _ _ H2) as Hout.
  destruct r2 as [[]|e|].
  - apply copy_loop_check in H2 as ->; [|done]. intros Hrun. by right.
  - destruct Hout as [[u ?]|(-> & _ & ->)]; [done|].
    intros [= <- <-]. left. exists ERROR_INTERRUPTED. tauto.
  - by destruct Hout as [[u ?]|(? & _)].
Qed.

(** X4.  In check mode [restore_database] creates, copies and deletes nothing,
    yet it removes postmaster.pid: a run that completes leaves $PGDATA
    without that file and otherwise as it was, and a run that ends the
    process (a block size that does not fit, an interrupt, a postmaster.pid
    that cannot be removed) leaves it untouched. *)
Theorem restore_database_check_mode (cfg : config) (backup : pgBackup) (t t' : tree)
    (r : res unit) :
  check cfg = true ->
  restore_database cfg backup t = (r, t') ->
  (r = Ok tt /\ t' = delete "postmaster.pid" t)
  \/ (exists e, r = Fatal e /\ t' = t
        /\ (e = ERROR_PG_INCOMPATIBLE \/ e = ERROR_INTERRUPTED \/ e = ERROR_SYSTEM)).
Proof.
  intros Hcheck Hrun.
  destruct (restore_database_checked_steps _ _ _ _ _ Hcheck Hrun)
    as [(e & -> & -> & He)|Hpid].
  - right. exists e. tauto.
  - destruct (remove_postmaster_pid_outcome _ _ _ Hpid) as [[-> ->]|[-> ->]].
    + by left.
    + right. exists ERROR_SYSTEM. tauto.
Qed.

(** With block sizes that fit, the process can end only with a system
    error or on an interrupt. *)
Lemma restore_database_late cfg backup (t t' : tree) e :
  block_size backup = BLCKSZ -> wal_block_size backup = XLOG_BLCKSZ ->
  restore_database cfg backup t = (Fatal e, t') ->
  e = ERROR_SYSTEM \/ e = ERROR_INTERRUPTED.
Proof.
  intros Hb Hw. unfold restore_database.
  rewrite Hb, Hw, !Z.eqb_refl. cbn [negb].
  revert t e t'.
  change (fails_only (fun e => e = ERROR_SYSTEM \/ e = ERROR_INTERRUPTED)
            ((if check cfg then mret tt else run_mkdirs (mkdirs_sh backup));;
             forM (remove_not_backed_up
                     (dir_read_file_list (pgBackupGetPath backup DATABASE_DIR)
                                         (database_file_list backup)))
                  (restore_file cfg backup);;
             (if check cfg then mret tt else delete_pass cfg backup);;
             remove_postmaster_pid)).
  apply fails_only_bind.
  { apply fails_only_if; [apply fails_only_ret|]. apply fails_only_forM.
    intros d t e t'. unfold mkdirs_step.
    destruct (t !! d) as [[| |]|]; intros [= <- _]; tauto. }
  intros _. apply fails_only_bind.
  { apply fails_only_forM. intros f. unfold restore_file.
    apply fails_only_if; [apply fails_only_elog; tauto|].
    apply fails_only_if; [apply fails_only_ret|].
    apply fails_only_if; [apply fails_only_ret|].
    apply fails_only_if; [apply fails_only_ret|]. by intros t e t' [=]. }
  intros _. apply fails_only_bind.
  { apply fails_only_if; [apply fails_only_ret|]. unfold delete_pass.
    apply fails_only_bind; [by intros t e t' [=]|]. intros t.
    apply fails_only_forM. intros f. unfold delete_unlisted.
    destruct (parray_bsearch _ f); [apply fails_only_ret|].
    intros t0 e t'. unfold pgFileDelete. destruct (sys_remove _ t0); intros [= <- _]. tauto. }
  intros _ t e t'. unfold remove_postmaster_pid.
  destruct (sys_remove _ t); intros [= <- _]. tauto.
Qed.

(** X5.  A backup taken with another block size, of data pages or of WAL pages,
    is refused before anything is touched; and the incompatible-server
    error is raised for no other reason. *)
Theorem restore_database_block_size (cfg : config) (backup : pgBackup) (t : tree) :
  (block_size backup <> BLCKSZ \/ wal_block_size backup <> XLOG_BLCKSZ ->
   restore_database cfg backup t = (Fatal ERROR_PG_INCOMPATIBLE, t))
  /\ (forall t', restore_database cfg backup t = (Fatal ERROR_PG_INCOMPATIBLE, t') ->
        block_size backup <> BLCKSZ \/ wal_block_size backup <> XLOG_BLCKSZ).
Proof.
  split.
  - intros Hne. unfold restore_database.
    destruct (block_size backup =? BLCKSZ) eqn:Hb; [|done].
    destruct (wal_block_size backup =? XLOG_BLCKSZ) eqn:Hw; [|done].
    apply Z.eqb_eq in Hb, Hw. tauto.
  - intros t' Hrun.
    destruct (decide (block_size backup = BLCKSZ)) as [Hb|Hb]; [|by left].
    destruct (decide (wal_block_size backup = XLOG_BLCKSZ)) as [Hw|Hw]; [|by right].
    by destruct (restore_database_late _ _ _ _ _ Hb Hw Hrun).
Qed.

(** All that mkdirs.sh changes, also when it fails on the way: paths of
    its list that held nothing are directories. *)
Lemma run_mkdirs_outcome dirs : forall (t t' : tree) r,
  run_mkdirs dirs t = (r, t') ->
  (r = Ok tt \/ r = Fatal ERROR_SYSTEM)
  /\ forall k, t' !! k = t !! k
               \/ (t !! k = None /\ t' !! k = Some Dir /\ k ∈ dirs).
Proof.
  unfold run_mkdirs. induction dirs as [|d dirs IH]; intros t t' r Hrun.
  - injection Hrun as <- <-. split; [by left|]. by left.
  - simpl in Hrun. unfold mbind, M_bind, mkdirs_step at 1 in Hrun.
    destruct (t !! d) as [[| |]|] eqn:Hd.
    + destruct (IH _ _ _ Hrun) as [Hr Hk]. split; [done|].
      intros k. destruct (Hk k) as [?|(? & ? & ?)]; [by left|right].
      split_and!; [done..|by right].
    + injection Hrun as <- <-. split; [by right|]. by left.
    + injection Hrun as <- <-. split; [by right|]. by left.
    + destruct (IH _ _ _ Hrun) as [Hr Hk]. split; [done|].
      intros k. destruct (decide (k = d)) as [->|Hne].
      * right. destruct (Hk d) as [Heq|(Hnone & _)].
        -- rewrite lookup_insert_eq in Heq. split_and!; [done..|by left].
        -- by rewrite lookup_insert_eq in Hnone.
      * destruct (Hk k) as [Heq|(Hnone & Hdir & Hin)].
        -- left. by rewrite lookup_insert_ne in Heq.
        -- right. rewrite lookup_insert_ne in Hnone by done.
           split_and!; [done..|by right].
Qed.

(** X6.  When the interrupt flag is up and the file list of the backup has an
    entry that was captured, [restore_database] does not complete, and it
    has copied and deleted nothing when the process ends: at most, outside
    check mode, directories of mkdirs.sh were created where there was
    nothing. *)
Theorem restore_database_interrupted (cfg : config) (backup : pgBackup) (t t' : tree)
    (r : res unit) :
  interrupted cfg = true ->
  Exists (fun e => write_size e <> BYTES_INVALID) (database_file_list backup) ->
  restore_database cfg backup t = (r, t') ->
  (exists e, r = Fatal e
     /\ (e = ERROR_PG_INCOMPATIBLE \/ e = ERROR_SYSTEM \/ e = ERROR_INTERRUPTED))
  /\ forall k, t' !! k = t !! k
               \/ (check cfg = false /\ t !! k = None /\ t' !! k = Some Dir
                   /\ k ∈ mkdirs_sh backup).
Proof.
  intros Hint Hcaptured.
  assert (Hfiles : exists f files,
            remove_not_backed_up
              (dir_read_file_list (pgBackupGetPath backup DATABASE_DIR)
                                  (database_file_list backup)) = f :: files).
  { induction Hcaptured as [e lines He|e lines _ IH].
    - rewrite remove_not_backed_up_cons.
      apply Z.eqb_neq in He. rewrite He. by eexists _, _.
    - rewrite remove_not_backed_up_cons.
      destruct (negb (write_size e =? BYTES_INVALID)); [by eexists _, _|done]. }
  destruct Hfiles as (f & files & Hfiles).
  unfold restore_database. rewrite Hfiles.
  destruct (negb (block_size backup =? BLCKSZ)).
  { intros [= <- <-]. split; [eexists; split; [done|tauto]|]. by left. }
  destruct (negb (wal_block_size backup =? XLOG_BLCKSZ)).
  { intros [= <- <-]. split; [eexists; split; [done|tauto]|]. by left. }
  unfold mbind at 1, M_bind at 1.
  assert (Hloop : forall s : tree,
            (forM (f :: files) (restore_file cfg backup) ≫= fun _ =>
               (if check cfg then mret tt else delete_pass cfg backup);;
               remove_postmaster_pid) s
            = (Fatal ERROR_INTERRUPTED, s)).
  { intros s. simpl. unfold mbind, M_bind, restore_file. by rewrite Hint. }
  destruct (check cfg) eqn:Hcheck.
  - cbn [mret M_ret]. rewrite Hloop. intros [= <- <-].
    split; [eexists; split; [done|tauto]|]. by left.
  - destruct (run_mkdirs (mkdirs_sh backup) t) as [r1 t1] eqn:H1.
    destruct (run_mkdirs_outcome _ _ _ _ H1) as [Hr1 Hk1].
    destruct Hr1 as [->| ->].
    + rewrite Hloop. intros [= <- <-].
      split; [eexists; split; [done|tauto]|].
      intros k. destruct (Hk1 k) as [?|(? & ? & ?)]; [by left|by right].
    + intros [= <- <-]. split; [eexists; split; [done|tauto]|].
      intros k. destruct (Hk1 k) as [?|(? & ? & ?)]; [by left|by right].
Qed.

End Restore.

(** In check mode the sample incremental only takes postmaster.pid out of
    the destination. *)
Lemma restore_database_check_mode_witness :
  check sample_config_check = true
  /\ restore_database sample_config_check sample_incr
       (<["postmaster.pid" := Reg "4242"]> sample_pgdata)
     = (Ok tt, sample_pgdata).
Proof.
  split; [reflexivity|].
  destruct (restore_database_check_mode sample_config_check sample_incr
              (<["postmaster.pid" := Reg "4242"]> sample_pgdata)
              sample_pgdata (Ok tt) eq_refl) as [[_ Ht]|(e & Hr & _)].
  - vm_compute. reflexivity.
  - vm_compute. reflexivity.
  - discriminate Hr.
Defined.

(** The sample incremental, interrupted: the directory of mkdirs.sh is
    there, the stale file is still there, nothing was copied. *)
Lemma restore_database_interrupted_witness :
  restore_database (mkConfig (Some "/pgdata") (Some "/arclog") (Some "/srvlog") "/backup"
                             false false true true)
                   sample_incr sample_pgdata_stale
  = (Fatal ERROR_INTERRUPTED, <["base" := Dir]> sample_pgdata_stale)
  /\ forall k,
       (<["base" := Dir]> sample_pgdata_stale : tree) !! k = sample_pgdata_stale !! k
       \/ (false = false /\ sample_pgdata_stale !! k = None
           /\ (<["base" := Dir]> sample_pgdata_stale : tree) !! k = Some Dir
           /\ k ∈ mkdirs_sh sample_incr).
Proof.
  split; [vm_compute; reflexivity|].
  apply (restore_database_interrupted
           (mkConfig (Some "/pgdata") (Some "/arclog") (Some "/srvlog") "/backup"
                     false false true true)
           sample_incr sample_pgdata_stale (<["base" := Dir]> sample_pgdata_stale)
           (Fatal ERROR_INTERRUPTED) eq_refl).
  - apply Exists_cons_tl, Exists_cons_tl, Exists_cons_hd. done.
  - vm_compute. reflexivity.
Defined.

(** ** When the deletion pass fails *)

Section PassCriterion.
Context `{Externals}.

Lemma delete_loop_outcome cfg files files_now : forall (t t' : tree) r,
  forM files_now (delete_unlisted cfg files) t = (r, t') ->
  r = Ok tt \/ r = Fatal ERROR_SYSTEM.
Proof.
  induction files_now as [|f files_now IH]; intros t t' r Hrun.
  - injection Hrun as <- _. by left.
  - simpl in Hrun. unfold mbind, M_bind, delete_unlisted at 1 in Hrun.
    destruct (parray_bsearch files f); [by apply (IH t t')|].
    unfold pgFileDelete in Hrun.
    destruct (sys_remove _ t) as [t1| |]; [by apply (IH t1 t')|by apply (IH t t')|].
    injection Hrun as <- _. by right.
Qed.

(** X7.  The deletion pass of [restore_database] deletes leaf first, so a
    directory it is to delete is empty by then unless it holds an entry
    that stays: one the file list of the backup names or the listing of
    $PGDATA leaves out.  The pass goes through exactly when there is no
    such directory, and then it has removed every entry it was to delete
    and nothing else; otherwise [rmdir] fails on that directory and the
    process ends with a system error. *)
Theorem delete_pass_criterion (cfg : config) (backup : pgBackup) (t : tree) :
  let nothing_stays_below_deleted :=
    forall k k', t !! k = Some Dir -> deletable backup k ->
                 is_below k k' = true -> is_Some (t !! k') -> deletable backup k' in
  match delete_pass cfg backup t with
  | (Ok _, t') =>
      nothing_stays_below_deleted
      /\ forall k, t' !! k = if decide (deletable backup k) then None else t !! k
  | (Fatal e, _) => e = ERROR_SYSTEM /\ ~ nothing_stays_below_deleted
  | (OutOfFuel, _) => False
  end.
Proof.
  intros closed.
  destruct (delete_pass cfg backup t) as [r t'] eqn:Hrun.
  assert (Hr : r = Ok tt \/ r = Fatal ERROR_SYSTEM).
  { unfold delete_pass in Hrun.
    change (forM (parray_qsort (dir_list_file t (the (pgdata cfg)) pgdata_exclude))
              (delete_unlisted cfg
                 (parray_qsort (dir_read_file_list (the (pgdata cfg))
                                  (database_file_list backup)))) t = (r, t')) in Hrun.
    by apply (delete_loop_outcome _ _ _ _ _ _ Hrun). }
  destruct Hr as [-> | ->].
  - split.
    + intros k k'. by apply (delete_pass_children cfg backup t t').
    + intros k. rewrite (delete_pass_ok _ _ _ _ Hrun k). unfold deletable.
      by destruct (decide _).
  - split; [done|]. intros Hclosed.
    destruct (delete_pass_succeeds cfg backup t Hclosed) as [t'' Hok]. congruence.
Qed.

End PassCriterion.

(** ** [restore_archive_logs] *)

Section ArchiveLogs.
Context `{Externals}.

Lemma restore_archive_entry_ok cfg backup e (t t' : tree) :
  check cfg = false ->
  restore_archive_file cfg backup
    (mkFile (join_path_components (pgBackupGetPath backup ARCLOG_DIR) (path e))
            (mode e) (size e) (write_size e)) t = (Ok tt, t') ->
  t' = if is_archived backup e then <[path e := archived_node backup (path e)]> t else t.
Proof.
  intros Hcheck Hrun. apply restore_archive_file_ok in Hrun; [|done].
  cbn [path write_size] in Hrun. rewrite rel_path_join in Hrun.
  unfold is_archived, archived_node.
  destruct (write_size e =? BYTES_INVALID); [done|].
  destruct (is_history_file _); [done|]. simpl in *.
  by destruct (compress_data backup).
Qed.

Lemma restore_archive_loop_lookup cfg backup k lines : forall (t t' : tree),
  check cfg = false ->
  forM (dir_read_file_list (pgBackupGetPath backup ARCLOG_DIR) lines)
       (restore_archive_file cfg backup) t = (Ok tt, t') ->
  t' !! k = if decide (k ∈ path <$> List.filter (is_archived backup) lines)
            then Some (archived_node backup k) else t !! k.
Proof.
  induction lines as [|e lines IH]; intros t t' Hcheck Hrun.
  - apply forM_nil_inv in Hrun as ->. rewrite decide_False; [done|]. apply not_elem_of_nil.
  - change (dir_read_file_list (pgBackupGetPath backup ARCLOG_DIR) (e :: lines))
      with (mkFile (join_path_components (pgBackupGetPath backup ARCLOG_DIR) (path e))
                   (mode e) (size e) (write_size e)
            :: dir_read_file_list (pgBackupGetPath backup ARCLOG_DIR) lines) in Hrun.
    apply forM_cons_inv in Hrun as (t1 & He & Hrest).
    apply restore_archive_entry_ok in He; [|done].
    rewrite (IH t1 t' Hcheck Hrest). simpl.
    destruct (is_archived backup e) eqn:Ha; [|by subst t1].
    rewrite fmap_cons. subst t1.
    destruct (decide (k = path e)) as [->|Hne].
    + rewrite (decide_True (P := path e ∈ path e :: _)) by left.
      rewrite lookup_insert_eq. by destruct (decide _).
    + rewrite lookup_insert_ne by done.
      destruct (decide (k ∈ path <$> List.filter (is_archived backup) lines)) as [Hin|Hnin].
      * rewrite decide_True; [done|by right].
      * rewrite decide_False; [done|]. intros Hin. apply elem_of_cons in Hin. tauto.
Qed.

(** On a destination that already holds what the loop puts there, the loop
    changes nothing. *)
Lemma restore_archive_loop_settled cfg backup lines : forall s : tree,
  interrupted cfg = false ->
  (forall e, e ∈ lines -> is_archived backup e = true ->
     s !! path e = Some (archived_node backup (path e))) ->
  forM (dir_read_file_list (pgBackupGetPath backup ARCLOG_DIR) lines)
       (restore_archive_file cfg backup) s = (Ok tt, s).
Proof.
  intros s Hint. induction lines as [|e lines IH]; intros Hs; [done|].
  change (dir_read_file_list (pgBackupGetPath backup ARCLOG_DIR) (e :: lines))
    with (mkFile (join_path_components (pgBackupGetPath backup ARCLOG_DIR) (path e))
                 (mode e) (size e) (write_size e)
          :: dir_read_file_list (pgBackupGetPath backup ARCLOG_DIR) lines).
  simpl. unfold mbind, M_bind.
  assert (Hstep : restore_archive_file cfg backup
                    (mkFile (join_path_components (pgBackupGetPath backup ARCLOG_DIR) (path e))
                            (mode e) (size e) (write_size e)) s = (Ok tt, s)).
  { specialize (Hs e (list_elem_of_here _ _)).
    unfold restore_archive_file, is_archived, archived_node in *. rewrite Hint.
    cbn [path write_size] in *. rewrite rel_path_join.
    destruct (write_size e =? BYTES_INVALID); [done|].
    destruct (is_history_file _); [done|].
    destruct (check cfg); [done|]. specialize (Hs eq_refl).
    destruct (compress_data backup).
    - unfold modify. by rewrite insert_id.
    - unfold sys_remove, sys_symlink. rewrite Hs, lookup_delete_eq.
      by rewrite insert_delete_eq, insert_id. }
  rewrite Hstep. apply IH. intros e' Hin. apply Hs. by right.
Qed.

(** X8.  Outside check mode, a run of [restore_archive_logs] that completes
    leaves, at the name of every captured entry of the backup's list of
    archived WAL that is not taken for a history file, a link to the stored
    file (the decompressed file when the backup is compressed), whatever
    was there before, and leaves every other name of $ARCLOG_PATH as it
    was.  Running it again on the result completes and changes nothing. *)
Theorem restore_archive_logs_result (cfg : config) (backup : pgBackup) (t t' : tree) :
  check cfg = false ->
  restore_archive_logs cfg backup t = (Ok tt, t') ->
  (forall k, t' !! k = if decide (k ∈ archived_keys backup)
                       then Some (archived_node backup k) else t !! k)
  /\ restore_archive_logs cfg backup t' = (Ok tt, t').
Proof.
  intros Hcheck Hrun. unfold restore_archive_logs in *.
  pose proof (fun k => restore_archive_loop_lookup cfg backup k _ _ _ Hcheck Hrun) as Hlook.
  split; [exact Hlook|].
  destruct (arclog_file_list backup) as [|e lines] eqn:Hlines; [done|].
  apply restore_archive_loop_settled.
  - simpl in Hrun. unfold mbind, M_bind, restore_archive_file at 1 in Hrun.
    by destruct (interrupted cfg).
  - intros e' Hin Ha. rewrite Hlook, decide_True; [done|].
    apply list_elem_of_fmap. exists e'. split; [done|].
    apply list_elem_of_In, filter_In. split; [by apply list_elem_of_In|done].
Qed.

End ArchiveLogs.

(** The sample archive backup, restored over a file of the segment's name. *)
Lemma restore_archive_logs_result_witness :
  restore_archive_logs sample_config sample_archive
    {[ "000000020000000000000001" := Reg "left over" ]}
  = (Ok tt, {[ "000000020000000000000001"
                 := Lnk "/backup/3/arclog/000000020000000000000001" ]})
  /\ restore_archive_logs sample_config sample_archive
       {[ "000000020000000000000001" := Lnk "/backup/3/arclog/000000020000000000000001" ]}
     = (Ok tt, {[ "000000020000000000000001"
                    := Lnk "/backup/3/arclog/000000020000000000000001" ]}).
Proof.
  split; [vm_compute; reflexivity|].
  apply (restore_archive_logs_result sample_config sample_archive
           {[ "000000020000000000000001" := Reg "left over" ]}).
  - reflexivity.
  - vm_compute. reflexivity.
Defined.

(** ** The archived WAL of the chain *)

Section Archives.
Context `{Externals}.

(** X9.  Outside check mode the loop of lines 216-240 is one call of
    [restore_archive_logs] for each backup, from the last restored one to
    the newest of the catalog, that is OK, carries archived WAL and is
    admitted by the chain, the oldest first; backups of any mode and of any
    timeline count, and the needed segment and the chain are handed on as
    they were. *)
Theorem restore_archives_selection (fuel : nat) (cfg : config) (backups : list pgBackup)
    (n : nat) (loc : wal_locals) (w : world) :
  check cfg = false ->
  (n <= length backups)%nat ->
  restore_archives fuel cfg backups n loc w
  = (forM (selected_archives loc.2 backups n)
          (fun backup => on_arclog (restore_archive_logs cfg backup));;
     mret loc) w.
Proof.
  intros Hcheck. revert w. induction n as [|i IH]; intros w Hn; [done|].
  unfold selected_archives. rewrite positions_below_S. cbn [omap list_omap].
  fold (selected_archives loc.2 backups i).
  destruct (lookup_lt_is_Some_2 backups i) as [backup Hb]; [lia|].
  cbn [restore_archives]. rewrite Hb. unfold archive_match, status_ne.
  destruct (bool_decide (status backup = BACKUP_STATUS_OK)); cbn [negb andb];
    [|apply IH; lia].
  destruct (have_arclog backup); cbn [negb andb]; [|apply IH; lia].
  destruct (satisfy_timeline loc.2 backup); cbn [negb]; [|apply IH; lia].
  rewrite Hcheck. cbn [forM]. unfold mbind, M_bind.
  destruct (on_arclog (restore_archive_logs cfg backup) w) as [[[]|e|] w1]; [|done..].
  cbn [mret M_ret]. apply IH. lia.
Qed.

End Archives.

(** With the sample archive backup above the sample full backup, and a
    chain that admits both: the WAL of the full backup first. *)
Lemma restore_archives_selection_witness :
  selected_archives [mkTimeLine 2 max_lsn; mkTimeLine 1 (mkLSN 0 20)]
                    [sample_archive; sample_full] 2
  = [sample_full; sample_archive]
  /\ restore_archives 0 sample_config [sample_archive; sample_full] 2
       (0, 0, [mkTimeLine 2 max_lsn; mkTimeLine 1 (mkLSN 0 20)]) sample_world_fresh
     = (forM (selected_archives [mkTimeLine 2 max_lsn; mkTimeLine 1 (mkLSN 0 20)]
                                [sample_archive; sample_full] 2)
             (fun backup => on_arclog (restore_archive_logs sample_config backup));;
        mret (0, 0, [mkTimeLine 2 max_lsn; mkTimeLine 1 (mkLSN 0 20)])) sample_world_fresh.
Proof.
  split; [vm_compute; reflexivity|].
  apply (restore_archives_selection 0 sample_config [sample_archive; sample_full] 2
           (0, 0, [mkTimeLine 2 max_lsn; mkTimeLine 1 (mkLSN 0 20)]) sample_world_fresh).
  - reflexivity.
  - simpl. lia.
Defined.

(** ** What a run in check mode writes *)

Lemma preserves_ret {S A} (R : S -> S -> Prop) `{!Reflexive R} (a : A) :
  preserves R (mret a).
Proof. intros s r s' [= _ <-]. done. Qed.

Lemma preserves_elog {S A} (R : S -> S -> Prop) `{!Reflexive R} e :
  preserves (A := A) R (elog e).
Proof. intros s r s' [= _ <-]. done. Qed.


Lemma preserves_bind {S A B} (R : S -> S -> Prop) `{!Transitive R}
    (m : M S A) (k : A -> M S B) :
  preserves R m -> (forall a, preserves R (k a)) -> preserves R (m ≫= k).
Proof.
  intros Hm Hk s r s'. unfold mbind, M_bind.
  destruct (m s) as [[a|e|] s1] eqn:Hms.
  - intros Hrun. transitivity s1; [by apply (Hm _ _ _ Hms)|by apply (Hk a _ _ _ Hrun)].
  - intros [= _ <-]. by apply (Hm _ _ _ Hms).
  - intros [= _ <-]. by apply (Hm _ _ _ Hms).
Qed.


Lemma preserves_forM {S A} (R : S -> S -> Prop) `{!Reflexive R} `{!Transitive R}
    (l : list A) (body : A -> M S unit) :
  (forall x, preserves R (body x)) -> preserves R (forM l body).
Proof.
  intros Hbody. induction l as [|x l IH]; simpl.
  - by apply preserves_ret.
  - apply preserves_bind; [done|apply Hbody|]. intros _. apply IH.
Qed.

Lemma preserves_if {S A} (R : S -> S -> Prop) (b : bool) (m1 m2 : M S A) :
  preserves R m1 -> preserves R m2 -> preserves R (if b then m1 else m2).
Proof. by destruct b. Qed.

#[global] Instance nothing_but_pid_refl : Reflexive nothing_but_pid.
Proof. intros w. unfold nothing_but_pid. tauto. Qed.

#[global] Instance nothing_but_pid_trans : Transitive nothing_but_pid.
Proof.
  intros w1 w2 w3 (Hp & Ha & Hx & Hs) (Hp' & Ha' & Hx' & Hs').
  unfold nothing_but_pid. split_and!; [|congruence..].
  destruct Hp as [Hp|Hp], Hp' as [Hp'|Hp']; rewrite Hp', Hp; [by left|by right..|].
  right. apply delete_id, lookup_delete_eq.
Qed.


Section CheckMode.
Context `{Externals}.




Lemma restore_incrementals_frame {W} (R : W -> W -> Prop)
    `{!Reflexive R} `{!Transitive R} (restore : pgBackup -> M W unit)
    tls base_backup n last_restored_index backups :
  (forall backup, preserves R (restore backup)) ->
  preserves R (restore_incrementals restore tls base_backup n last_restored_index backups).
Proof.
  intros Hrestore. revert last_restored_index backups.
  induction n as [|i IH]; intros lri backups; simpl; [by apply preserves_ret|].
  destruct (backups !! i) as [backup|]; [|by apply preserves_elog].
  repeat (apply preserves_if; [apply IH|]).
  apply preserves_bind; [done|apply Hrestore|]. intros _. apply IH.
Qed.



End CheckMode.


(** ** What a completed restore leaves *)

Section Completed.
Context `{Externals}.

(** The steps of a run that restores for real and completes, with the
    worlds between them. *)
Lemma do_restore_inv fuel cfg inp target_time target_xid target_inclusive target_tli
    (w w' : world) (z : Z) :
  check cfg = false ->
  do_restore fuel cfg inp target_time target_xid target_inclusive target_tli w = (Ok z, w') ->
  exists backup_tli w1 w2 w4 w5 w6 w7 tls found restored loc,
    (get_fullbackup_timeline (in_backups inp)).1 = Ok backup_tli
    /\ backup_online_files cfg inp
         (negb (in_cur_tli inp =? 0) && negb (in_cur_tli inp =? backup_tli)) w = (Ok tt, w1)
    /\ on_pgdata (clear_destination cfg) w1 = (Ok tt, w2)
    /\ readTimeLineHistory
         (dir_copy_files false (in_timeline_history inp) (w_arclog w2)) (w_work_xlog w2)
         (resolved_target target_tli (in_cur_tli inp) backup_tli) = Ok tls
    /\ find_base_backup (have_libz cfg) tls 0 (get_fullbackup_timeline (in_backups inp)).2
       = Ok found
    /\ on_pgdata (restore_database cfg found.2)
         (mkWorld (w_pgdata w2)
                  (dir_copy_files false (in_timeline_history inp) (w_arclog w2))
                  (w_work_xlog w2) (w_work_srvlog w2) (w_stdout w2)) = (Ok tt, w4)
    /\ restore_incrementals (fun backup => on_pgdata (restore_database cfg backup))
         tls found.2 found.1 found.1
         (<[found.1 := validated found.2]> (get_fullbackup_timeline (in_backups inp)).2) w4
       = (Ok restored, w5)
    /\ restore_archives fuel cfg restored.2 (S restored.1) (0, 0, tls) w5 = (Ok loc, w6)
    /\ restore_online_files cfg w6 = (Ok tt, w7)
    /\ on_pgdata (create_recovery_conf cfg target_time target_xid target_inclusive
                    (resolved_target target_tli (in_cur_tli inp) backup_tli)) w7
       = (Ok tt, w')
    /\ z = 0.
Proof.
  intros Hcheck Hrun. unfold do_restore in Hrun. cbv zeta in Hrun.
  repeat match type of Hrun with
         | (if ?b then elog _ else _) _ = _ => destruct b; [discriminate Hrun|]
         end.
  rewrite Hcheck in Hrun.
  destruct (get_fullbackup_timeline (in_backups inp)).1 as [backup_tli|e|] eqn:Hfull;
    [|discriminate Hrun..].
  rewrite bind_lift_ok in Hrun.
  assert (Htarget : (if target_tli =? 0
                     then if negb (in_cur_tli inp =? 0) then in_cur_tli inp else backup_tli
                     else target_tli)
                    = resolved_target target_tli (in_cur_tli inp) backup_tli).
  { unfold resolved_target.
    destruct (target_tli =? 0) eqn:Ht; [apply Z.eqb_eq in Ht|apply Z.eqb_neq in Ht].
    - rewrite decide_False by (intros ?; done).
      destruct (in_cur_tli inp =? 0) eqn:Hc; [apply Z.eqb_eq in Hc|apply Z.eqb_neq in Hc];
        simpl.
      + by rewrite decide_False by (intros ?; done).
      + by rewrite decide_True.
    - by rewrite decide_True. }
  rewrite Htarget in Hrun.
  apply bind_inv_ok in Hrun as ([] & w1 & Hbo & Hrun).
  apply bind_inv_ok in Hrun as ([] & w2 & Hclear & Hrun).
  apply bind_inv_ok in Hrun as ([] & w3 & Hhist & Hrun).
  injection Hhist as <-.
  rewrite bind_get in Hrun. cbn [w_arclog w_work_xlog] in Hrun.
  destruct (readTimeLineHistory _ _ _) as [tls|e|] eqn:Htls; [|discriminate Hrun..].
  rewrite bind_lift_ok in Hrun.
  destruct (find_base_backup _ tls 0 _) as [found|e|] eqn:Hfound; [|discriminate Hrun..].
  rewrite bind_lift_ok in Hrun.
  apply bind_inv_ok in Hrun as ([] & w4 & Hbase & Hrun).
  apply bind_inv_ok in Hrun as (restored & w5 & Hincr & Hrun).
  unfold first_needed in Hrun. rewrite Hcheck in Hrun.
  apply bind_inv_ok in Hrun as (loc0 & w5' & Hloc & Hrun).
  injection Hloc as <- <-.
  apply bind_inv_ok in Hrun as (loc & w6 & Harch & Hrun).
  apply bind_inv_ok in Hrun as ([] & w7 & Honline & Hrun).
  apply bind_inv_ok in Hrun as ([] & w7' & Hskip & Hrun).
  injection Hskip as <-.
  apply bind_inv_ok in Hrun as ([] & w8 & Hconf & Hrun).
  injection Hrun as <- <-.
  exists backup_tli, w1, w2, w4, w5, w6, w7, tls, found, restored, loc.
  split_and!; done.
Qed.


End Completed.


(** ** The online WAL *)

#[global] Instance same_work_area_refl : Reflexive same_work_area.
Proof. by intros w. Qed.

#[global] Instance same_work_area_trans : Transitive same_work_area.
Proof. intros w1 w2 w3 [Hx Hs] [Hx' Hs']. unfold same_work_area. split; congruence. Qed.

Lemma on_pgdata_work {A} (m : M tree A) : preserves same_work_area (on_pgdata m).
Proof.
  intros w r w'. unfold on_pgdata. destruct (m (w_pgdata w)). by intros [= _ <-].
Qed.

Lemma on_arclog_work {A} (m : M tree A) : preserves same_work_area (on_arclog m).
Proof.
  intros w r w'. unfold on_arclog. destruct (m (w_arclog w)). by intros [= _ <-].
Qed.

Section OnlineWal.
Context `{Externals}.

Lemma search_wal_work fuel dir loc : preserves same_work_area (search_wal fuel dir loc).
Proof.
  intros w r w'. unfold search_wal.
  by destruct (search_next_wal fuel dir _) as [[[]|e|] st]; intros [= _ <-].
Qed.

Lemma restore_archives_work fuel cfg backups n loc :
  preserves same_work_area (restore_archives fuel cfg backups n loc).
Proof.
  revert loc. induction n as [|i IH]; intros loc; simpl.
  { apply preserves_ret. apply _. }
  destruct (backups !! i) as [backup|]; [|apply preserves_elog; apply _].
  repeat (apply preserves_if; [apply IH|]).
  apply preserves_bind; [apply _|apply on_arclog_work|]. intros _.
  apply preserves_bind; [apply _| |intros loc'; apply IH].
  apply preserves_if; [apply search_wal_work|]. apply preserves_ret. apply _.
Qed.

(** A tree keyed as the entries of a directory holds, below the directory,
    what the tree holds. *)
Lemma lookup_under d (t : tree) k : under d t !! join_path_components d k = t !! k.
Proof.
  unfold under.
  set (g := fun kn : string * node => (join_path_components d kn.1, kn.2)).
  assert (Hin : forall y, (join_path_components d k, y) ∈ map g (map_to_list t) <->
                          t !! k = Some y).
  { intros y. rewrite list_elem_of_In, in_map_iff. split.
    - intros ([k' n] & Hg & Hk'). apply list_elem_of_In, elem_of_map_to_list in Hk'.
      unfold g in Hg. simpl in Hg. injection Hg as Hk <-.
      apply join_path_components_inj in Hk. by subst k'.
    - intros Hy. exists (k, y). split; [done|].
      by apply list_elem_of_In, elem_of_map_to_list. }
  destruct (t !! k) as [n|] eqn:Hk.
  - apply elem_of_list_to_map_1'; [|by apply Hin].
    intros y Hy. apply Hin in Hy. congruence.
  - apply not_elem_of_list_to_map. intros Hfst.
    apply list_elem_of_fmap in Hfst as ([k' y] & Heq & Hy). simpl in Heq.
    subst k'. apply Hin in Hy. congruence.
Qed.

(** X12.  In a run that restores for real and completes, every file the restore
    work area holds for pg_xlog at the end is in $PGDATA/pg_xlog with the
    same content, whatever the backups put there: the online WAL is copied
    back after the backups and the archived WAL are restored, and only
    recovery.conf is written after that.  When the run started with an
    empty work area, these are the files $PGDATA/pg_xlog held before the
    destination was cleared: the online WAL of the cluster survives the
    restore. *)
Theorem online_wal_survives (fuel : nat) (cfg : config) (inp : inputs)
    (target_time target_xid target_inclusive : option string) (target_tli : Z)
    (w w' : world) (z : Z) :
  check cfg = false ->
  do_restore fuel cfg inp target_time target_xid target_inclusive target_tli w = (Ok z, w') ->
  (forall k data,
     w_work_xlog w' !! k = Some (Reg data) ->
     w_pgdata w' !! join_path_components PG_XLOG_DIR k = Some (Reg data))
  /\ (w_work_xlog w = ∅ ->
      forall k data,
        w_pgdata w !! join_path_components PG_XLOG_DIR k = Some (Reg data) ->
        w_pgdata w' !! join_path_components PG_XLOG_DIR k = Some (Reg data)).
Proof.
  intros Hcheck Hrun.
  destruct (do_restore_inv _ _ _ _ _ _ _ _ _ _ Hcheck Hrun)
    as (backup_tli & w1 & w2 & w4 & w5 & w6 & w7 & tls & found & restored & loc
        & Hfull & Hbo & Hclear & _ & _ & Hbase & Hincr & Harch & Honline & Hconf & _).
  assert (Hcopied : forall k data,
            w_work_xlog w7 !! k = Some (Reg data) ->
            w_pgdata w' !! join_path_components PG_XLOG_DIR k = Some (Reg data)).
  { intros k data Hk.
    assert (Hpg7 : w_pgdata w7
                   = dir_copy_files false (under PG_XLOG_DIR (w_work_xlog w6)) (w_pgdata w6)
                   /\ w_work_xlog w7 = w_work_xlog w6).
    { unfold restore_online_files in Honline. rewrite Hcheck in Honline.
      by injection Honline as <-. }
    destruct Hpg7 as [Hpg7 Hx7]. rewrite Hx7 in Hk.
    assert (Hthere : w_pgdata w7 !! join_path_components PG_XLOG_DIR k = Some (Reg data)).
    { rewrite Hpg7. apply dir_copy_files_reg. by rewrite lookup_under. }
    unfold on_pgdata, create_recovery_conf in Hconf. rewrite Hcheck in Hconf.
    destruct (w_pgdata w7 !! "recovery.conf") as [[| |]|]; [discriminate Hconf|..];
      injection Hconf as <-; cbn [w_pgdata]; by rewrite lookup_insert_ne. }
  assert (Hwork : same_work_area w1 w7).
  { transitivity w2; [by apply (on_pgdata_work _ _ _ _ Hclear)|].
    transitivity w4; [by apply (on_pgdata_work _ _ _ _ Hbase)|].
    transitivity w5.
    { apply (restore_incrementals_frame same_work_area _ _ _ _ _ _
               (fun backup => on_pgdata_work _) _ _ _ Hincr). }
    transitivity w6; [by apply (restore_archives_work _ _ _ _ _ _ _ _ Harch)|].
    unfold restore_online_files in Honline. by injection Honline as <-. }
  assert (Hend : same_work_area w7 w') by apply (on_pgdata_work _ _ _ _ Hconf).
  destruct Hwork as [Hwork _], Hend as [Hend _].
  split.
  - intros k data Hk. apply Hcopied. by rewrite <- Hend.
  - intros Hempty k data Hk. apply Hcopied. rewrite Hwork.
    unfold backup_online_files in Hbo. rewrite Hempty in Hbo.
    rewrite bool_decide_eq_true_2 in Hbo by done. simpl in Hbo.
    injection Hbo as <-. simpl. rewrite Hcheck.
    apply dir_copy_files_reg. by rewrite lookup_subtree.
Qed.

End OnlineWal.

(** The live segment of the stopped cluster is back in pg_xlog after the
    sample catalog was restored. *)
Lemma online_wal_survives_witness :
  check sample_config = false
  /\ w_work_xlog sample_world_stopped = ∅
  /\ w_pgdata sample_world_stopped
       !! join_path_components PG_XLOG_DIR "000000010000000000000007"
     = Some (Reg "live wal")
  /\ w_pgdata (do_restore 10 sample_config sample_inputs None None None 0
                          sample_world_stopped).2
       !! join_path_components PG_XLOG_DIR "000000010000000000000007"
     = Some (Reg "live wal").
Proof.
  split; [reflexivity|]. split; [reflexivity|]. split; [reflexivity|].
  apply (online_wal_survives 10 sample_config sample_inputs None None None 0
           sample_world_stopped _ 0 eq_refl).
  - vm_compute. reflexivity.
  - reflexivity.
  - reflexivity.
Defined.

(** ** How a run of [do_restore] can end *)

Lemma fails_only_mono {S A} (P Q : elevel -> Prop) (m : M S A) :
  (forall e, P e -> Q e) -> fails_only P m -> fails_only Q m.
Proof. intros HPQ Hm s e s' Hrun. apply HPQ. by apply (Hm s e s'). Qed.

(** The rest of a run may count on what the step before it returned. *)
Lemma fails_only_bind_val {S A B} (P : elevel -> Prop) (m : M S A) (k : A -> M S B) :
  fails_only P m -> (forall a, returns m a -> fails_only P (k a)) -> fails_only P (m ≫= k).
Proof.
  intros Hm Hk s e s'. unfold mbind, M_bind.
  destruct (m s) as [[a|e0|] s1] eqn:Hms; [|by intros [= <- <-]; apply (Hm s e0 s1)|done].
  apply Hk. by exists s, s1.
Qed.

Lemma fails_only_lift {S A} (P : elevel -> Prop) (x : res A) :
  (forall e, x = Fatal e -> P e) -> fails_only (S := S) P (lift x).
Proof. intros Hx s e s' [= -> _]. by apply Hx. Qed.

Lemma returns_lift {S A} (x : res A) (a : A) : returns (S := S) (lift x) a -> x = Ok a.
Proof. by intros (s & s' & [= -> _]). Qed.

Lemma catalog_after_length `{Externals} sel backups :
  length (catalog_after sel backups) = length backups.
Proof.
  unfold catalog_after. revert backups.
  induction sel as [|ib sel IH]; intros backups; [done|].
  simpl. by rewrite IH, length_insert.
Qed.

Section Endings2.
Context `{Externals}.

Lemma readTimeLineHistory_fatal (arclog work_xlog : tree) targetTLI e :
  readTimeLineHistory arclog work_xlog targetTLI = Fatal e -> e = ERROR_CORRUPTED.
Proof.
  unfold readTimeLineHistory, readTimeLineHistory_from.
  pose proof (fopen_rt_no_error arclog (history_file_name targetTLI)) as Hno1.
  pose proof (fopen_rt_no_error work_xlog (history_file_name targetTLI)) as Hno2.
  assert (Hparse : forall fd, parse_history fd targetTLI = Fatal e -> e = ERROR_CORRUPTED).
  { intros fd Hp. pose proof (parse_history_shape fd targetTLI) as Hs.
    rewrite Hp in Hs. by destruct Hs. }
  destruct (fopen_rt arclog _) as [c| |]; [apply Hparse| |done].
  destruct (fopen_rt work_xlog _) as [c| |]; [apply Hparse|apply Hparse|done].
Qed.

Lemma restore_database_errors cfg backup :
  fails_only stop_error (restore_database cfg backup).
Proof.
  intros t e t' Hrun. unfold stop_error.
  destruct (decide (block_size backup = BLCKSZ)) as [Hb|Hb].
  - destruct (decide (wal_block_size backup = XLOG_BLCKSZ)) as [Hw|Hw].
    + destruct (restore_database_late _ _ _ _ _ Hb Hw Hrun); tauto.
    + unfold restore_database in Hrun. apply Z.eqb_neq in Hw.
      rewrite Hb, Z.eqb_refl, Hw in Hrun. injection Hrun as <- _. tauto.
  - unfold restore_database in Hrun. apply Z.eqb_neq in Hb. rewrite Hb in Hrun.
    injection Hrun as <- _. tauto.
Qed.

Lemma restore_archive_logs_errors cfg backup :
  fails_only stop_error (restore_archive_logs cfg backup).
Proof.
  unfold restore_archive_logs. apply fails_only_forM. intros f. unfold restore_archive_file.
  apply fails_only_if; [apply fails_only_elog; unfold stop_error; tauto|].
  apply fails_only_if; [apply fails_only_ret|].
  apply fails_only_if; [apply fails_only_ret|].
  apply fails_only_if; [apply fails_only_ret|].
  apply fails_only_if; [by intros t e t' [=]|].
  intros t e t'. unfold sys_symlink.
  destruct (sys_remove _ t) as [t1| |].
  - destruct (t1 !! _); intros [= <- _]. unfold stop_error. tauto.
  - destruct (t !! _); intros [= <- _]. unfold stop_error. tauto.
  - intros [= <- _]. unfold stop_error. tauto.
Qed.

(** The search prints and moves on; it does not end the process. *)
Lemma search_next_wal_loop_no_error fuel dir : forall count pre st e st',
  search_next_wal_loop fuel dir count pre st <> (Fatal e, st').
Proof.
  induction fuel as [|fuel IH]; intros count pre st e st'; simpl; [done|].
  destruct (first_wal dir (needId st) (needSeg st) 0 (timelines st)) as [[i name]|].
  - apply IH.
  - by destruct (count =? 1)%nat, (1 <? count)%nat.
Qed.

Lemma search_wal_errors (P : elevel -> Prop) fuel dir loc :
  fails_only P (search_wal fuel dir loc).
Proof.
  intros w e w'. unfold search_wal, search_next_wal.
  destruct (search_next_wal_loop fuel dir 0 EmptyString _) as [[[]|e0|] st] eqn:Hs;
    [done| |done].
  by apply search_next_wal_loop_no_error in Hs.
Qed.

(** With its index inside the catalog the loop over the archived WAL never
    reads outside of it. *)
Lemma restore_archives_errors fuel cfg backups n loc :
  (n <= length backups)%nat ->
  fails_only stop_error (restore_archives fuel cfg backups n loc).
Proof.
  revert loc. induction n as [|i IH]; intros loc Hn; simpl; [apply fails_only_ret|].
  destruct (lookup_lt_is_Some_2 backups i) as [backup ->]; [lia|].
  repeat (apply fails_only_if; [apply IH; lia|]).
  apply fails_only_bind.
  { apply fails_only_on_arclog, restore_archive_logs_errors. }
  intros _. apply fails_only_bind.
  { apply fails_only_if; [apply search_wal_errors|apply fails_only_ret]. }
  intros loc'. apply IH. lia.
Qed.

(** With its index inside the catalog the loop over the incrementals never
    reads outside of it, and what it returns is inside as well. *)
Lemma restore_incrementals_errors {W} (restore : pgBackup -> M W unit)
    tls base_backup n last_restored_index backups :
  (n <= length backups)%nat ->
  (forall backup, fails_only stop_error (restore backup)) ->
  fails_only stop_error
    (restore_incrementals restore tls base_backup n last_restored_index backups).
Proof.
  intros Hn Hrestore w e w'. rewrite restore_incrementals_run by done.
  revert w e w'. apply fails_only_bind; [by apply fails_only_forM|].
  intros _. apply fails_only_ret.
Qed.

Lemma restore_incrementals_returns {W} (restore : pgBackup -> M W unit)
    tls base_backup n last_restored_index backups restored :
  (n <= length backups)%nat ->
  (last_restored_index < length backups)%nat ->
  returns (restore_incrementals restore tls base_backup n last_restored_index backups)
          restored ->
  (restored.1 < length restored.2)%nat.
Proof.
  intros Hn Hlri (w & w' & Hrun). rewrite restore_incrementals_run in Hrun by done.
  apply bind_inv_ok in Hrun as ([] & w1 & _ & Hret). injection Hret as <- _.
  cbn [fst snd]. rewrite catalog_after_length, last_restored_fst.
  destruct (selected_incrementals_descending tls backups base_backup n) as [_ Hbelow].
  destruct (last _) as [m|] eqn:Hlast; simpl; [|done].
  apply last_Some_elem_of in Hlast. rewrite Forall_forall in Hbelow.
  specialize (Hbelow m Hlast). lia.
Qed.

Lemma stop_error_restore_error e : stop_error e -> restore_error e.
Proof. unfold restore_error. tauto. Qed.

(** Once it has the lock and knows the server is stopped, [do_restore]
    ends the process only in the ways of [restore_error]. *)
Lemma do_restore_body_errors fuel cfg inp target_time target_xid target_inclusive
    target_tli (w w' : world) e :
  paths_set cfg ->
  in_catalog_lock inp <> -1 -> in_catalog_lock inp <> 1 -> in_pg_running inp = false ->
  do_restore fuel cfg inp target_time target_xid target_inclusive target_tli w
  = (Fatal e, w') ->
  restore_error e.
Proof.
  intros (Hp & Ha & Hs) Hl1 Hl2 Hrunning. unfold do_restore. cbv zeta.
  rewrite !bool_decide_eq_false_2 by done.
  apply Z.eqb_neq in Hl1, Hl2. rewrite Hl1, Hl2, Hrunning.
  revert w e w'.
  match goal with
  | |- forall w e w', ?m w = _ -> _ => change (fails_only restore_error m)
  end.
  apply fails_only_bind.
  { apply fails_only_lift. intros e He. apply get_fullbackup_timeline_fatal in He as ->.
    unfold restore_error. tauto. }
  intros backup_tli. apply fails_only_bind.
  { intros w e w'. unfold backup_online_files. by destruct (_ && _). }
  intros _. apply fails_only_bind.
  { apply fails_only_if; [apply fails_only_ret|].
    apply fails_only_on_pgdata. unfold clear_destination.
    apply fails_only_bind; [by intros t e t' [=]|]. intros t.
    apply fails_only_forM. intros f t0 e t'. unfold pgFileDelete.
    destruct (sys_remove _ t0); intros [= <- _]. unfold restore_error, stop_error. tauto. }
  intros _. apply fails_only_bind; [by intros w e w' [=]|].
  intros _. apply fails_only_bind; [by intros w e w' [=]|]. intros w0.
  apply fails_only_bind.
  { apply fails_only_lift. intros e He. apply readTimeLineHistory_fatal in He as ->.
    unfold restore_error. tauto. }
  intros tls. apply fails_only_bind_val.
  { apply fails_only_lift. intros e He.
    pose proof (find_base_backup_from (have_libz cfg) tls
                  (get_fullbackup_timeline (in_backups inp)).2 0) as Hfrom.
    rewrite He in Hfrom. unfold restore_error. destruct Hfrom as [[-> _]|[-> _]]; tauto. }
  intros found Hfound. apply returns_lift in Hfound.
  assert (Hbase : (found.1 < length (get_fullbackup_timeline (in_backups inp)).2)%nat).
  { pose proof (find_base_backup_from (have_libz cfg) tls
                  (get_fullbackup_timeline (in_backups inp)).2 0) as Hfrom.
    rewrite Hfound in Hfrom. destruct found as [i b].
    destruct Hfrom as (j & -> & Hj & _). simpl. by apply lookup_lt_Some in Hj. }
  apply fails_only_bind.
  { apply fails_only_on_pgdata.
    apply (fails_only_mono stop_error); [apply stop_error_restore_error|].
    apply restore_database_errors. }
  intros _. apply fails_only_bind_val.
  { apply (fails_only_mono stop_error); [apply stop_error_restore_error|].
    apply restore_incrementals_errors.
    - rewrite length_insert. lia.
    - intros backup. apply fails_only_on_pgdata, restore_database_errors. }
  intros restored Hrestored.
  apply restore_incrementals_returns in Hrestored; [|rewrite length_insert; lia..].
  apply fails_only_bind.
  { unfold first_needed.
    destruct (lookup_lt_is_Some_2 restored.2 restored.1 Hrestored) as [backup ->].
    apply fails_only_if; apply fails_only_ret. }
  intros loc. apply fails_only_bind.
  { apply (fails_only_mono stop_error); [apply stop_error_restore_error|].
    apply restore_archives_errors. lia. }
  intros loc'. apply fails_only_bind; [by intros w e w' [=]|].
  intros _. apply fails_only_bind.
  { apply fails_only_if; [|apply fails_only_ret].
    apply fails_only_bind; [by intros w e w' [=]|]. intros w1.
    apply fails_only_bind; [apply search_wal_errors|]. intros loc1.
    apply fails_only_bind; [by intros w e w' [=]|]. intros w2.
    apply fails_only_bind; [apply search_wal_errors|]. intros _. apply fails_only_ret. }
  intros _. apply fails_only_bind; [|intros _; apply fails_only_ret].
  apply fails_only_on_pgdata. intros t e t'. unfold create_recovery_conf.
  destruct (check cfg); [done|].
  destruct (t !! "recovery.conf") as [[| |]|]; intros [= <- _].
  unfold restore_error, stop_error. tauto.
Qed.

(** A run that ended at one of the first checks. *)
Ltac ended_early :=
  split_and!;
  [ done
  | split; [try done; tauto | try done; tauto]
  | split; [try done; tauto | intros [? ?]; first [done | tauto | lia | congruence]]
  | split; [try done; tauto
           | intros (? & ? & ? & ?); first [done | tauto | lia | congruence]]
  | done ].

(** X13.  When [do_restore] ends the process: the catalog was never read outside
    its bounds.  The code for a missing argument means that $PGDATA,
    $ARCLOG_PATH or the server log path is not set; the code for a pg_rman
    that is already running, that the paths are set and the catalog is
    locked by another process; the code for a running server, that the
    paths are set, the lock was taken and the server is up.  With any of
    these three nothing at all was written. *)
Theorem do_restore_endings (fuel : nat) (cfg : config) (inp : inputs)
    (target_time target_xid target_inclusive : option string) (target_tli : Z)
    (w w' : world) (e : elevel) :
  do_restore fuel cfg inp target_time target_xid target_inclusive target_tli w
  = (Fatal e, w') ->
  e <> SIGSEGV
  /\ (e = ERROR_ARGS <-> ~ paths_set cfg)
  /\ (e = ERROR_ALREADY_RUNNING <-> paths_set cfg /\ in_catalog_lock inp = 1)
  /\ (e = ERROR_PG_RUNNING <->
        paths_set cfg /\ in_catalog_lock inp <> -1 /\ in_catalog_lock inp <> 1
        /\ in_pg_running inp = true)
  /\ (e = ERROR_ARGS \/ e = ERROR_ALREADY_RUNNING \/ e = ERROR_PG_RUNNING -> w' = w).
Proof.
  intros Hrun.
  destruct (decide (pgdata cfg = None)) as [Hp|Hp].
  { unfold do_restore in Hrun. rewrite bool_decide_eq_true_2 in Hrun by done.
    injection Hrun as <- <-. unfold paths_set. ended_early. }
  destruct (decide (arclog_path cfg = None)) as [Ha|Ha].
  { unfold do_restore in Hrun.
    rewrite bool_decide_eq_false_2, bool_decide_eq_true_2 in Hrun by done.
    injection Hrun as <- <-. unfold paths_set. ended_early. }
  destruct (decide (srvlog_path cfg = None)) as [Hs|Hs].
  { unfold do_restore in Hrun.
    rewrite !bool_decide_eq_false_2, bool_decide_eq_true_2 in Hrun by done.
    injection Hrun as <- <-. unfold paths_set. ended_early. }
  assert (Hpaths : paths_set cfg) by done.
  destruct (decide (in_catalog_lock inp = -1)) as [Hl1|Hl1].
  { unfold do_restore in Hrun. rewrite !bool_decide_eq_false_2 in Hrun by done.
    rewrite Hl1 in Hrun. injection Hrun as <- <-. ended_early. }
  destruct (decide (in_catalog_lock inp = 1)) as [Hl2|Hl2].
  { unfold do_restore in Hrun. rewrite !bool_decide_eq_false_2 in Hrun by done.
    rewrite Hl2 in Hrun. injection Hrun as <- <-. ended_early. }
  destruct (in_pg_running inp) eqn:Hrunning.
  { unfold do_restore in Hrun. rewrite !bool_decide_eq_false_2 in Hrun by done.
    assert (Hl1' := Hl1). assert (Hl2' := Hl2).
    apply Z.eqb_neq in Hl1', Hl2'. rewrite Hl1', Hl2', Hrunning in Hrun.
    injection Hrun as <- <-. ended_early. }
  pose proof (do_restore_body_errors _ _ _ _ _ _ _ _ _ _ Hpaths Hl1 Hl2 Hrunning Hrun)
    as Herr.
  unfold restore_error, stop_error in Herr.
  split_and!.
  - intros ->. repeat destruct Herr as [Herr|Herr]; done.
  - split; [|done]. intros ->. repeat destruct Herr as [Herr|Herr]; done.
  - split; [|tauto]. intros ->. repeat destruct Herr as [Herr|Herr]; done.
  - split; [|by intros (_ & _ & _ & ?)].
    intros ->. repeat destruct Herr as [Herr|Herr]; done.
  - intros [->|[->| ->]]; repeat destruct Herr as [Herr|Herr]; done.
Qed.

End Endings2.

(** A second pg_rman holds the lock: the run ends there and the cluster is
    as it was. *)
Lemma do_restore_endings_witness :
  do_restore 0 sample_config (mkInputs 1 false [sample_full] 1 ∅ ∅) None None None 0
             sample_world_stopped
  = (Fatal ERROR_ALREADY_RUNNING, sample_world_stopped)
  /\ (ERROR_ALREADY_RUNNING = ERROR_ALREADY_RUNNING <->
      paths_set sample_config
      /\ in_catalog_lock (mkInputs 1 false [sample_full] 1 ∅ ∅) = 1).
Proof.
  split; [reflexivity|].
  refine (proj1 (proj2 (proj2
            (do_restore_endings 0 sample_config (mkInputs 1 false [sample_full] 1 ∅ ∅)
               None None None 0 sample_world_stopped sample_world_stopped
               ERROR_ALREADY_RUNNING _)))).
  reflexivity.
Defined.

(** ** What of the old cluster a restore depends on *)

Section CleanSlate.
Context `{Externals}.



End CleanSlate.


(** ** The base backup when no timeline is asked for *)

Section DefaultBase.
Context `{Externals}.

Lemma passed_fields backup :
  tli (passed backup) = tli backup
  /\ stop_lsn (passed backup) = stop_lsn backup
  /\ backup_mode (passed backup) = backup_mode backup
  /\ compress_data (passed backup) = compress_data backup
  /\ have_database (passed backup) = have_database backup
  /\ have_arclog (passed backup) = have_arclog backup.
Proof. unfold passed. by destruct (_ && _). Qed.

Lemma passed_status backup :
  (mode_lt (backup_mode (passed backup)) BACKUP_MODE_FULL
   || status_ne (status (passed backup)) BACKUP_STATUS_OK)
  = negb (usable_full backup).
Proof.
  destruct (passed_fields backup) as (_ & _ & -> & _).
  unfold passed, usable_full, status_ne.
  destruct (mode_lt (backup_mode backup) BACKUP_MODE_FULL); [done|]. simpl.
  destruct (bool_decide (status backup = BACKUP_STATUS_DONE)) eqn:Hdone; simpl.
  - apply bool_decide_eq_true in Hdone.
    rewrite (bool_decide_eq_false_2 (status backup = BACKUP_STATUS_OK)) by congruence.
    done.
  - by rewrite orb_false_r.
Qed.

Lemma get_fullbackup_timeline_cons backup rest :
  get_fullbackup_timeline (backup :: rest)
  = if usable_full backup then (Ok (tli backup), passed backup :: rest)
    else (let '(r, rest') := get_fullbackup_timeline rest in (r, passed backup :: rest')).
Proof.
  cbn [get_fullbackup_timeline]. unfold usable_full, passed.
  destruct (negb (mode_lt (backup_mode backup) BACKUP_MODE_FULL)); [|done]. simpl.
  destruct (bool_decide (status backup = BACKUP_STATUS_DONE)) eqn:Hdone; simpl.
  - apply bool_decide_eq_true in Hdone.
    rewrite (bool_decide_eq_false_2 (status backup = BACKUP_STATUS_OK)) by congruence.
    done.
  - by rewrite orb_false_r.
Qed.

Lemma find_base_after_scan have_libz tls backups : forall i0 i b0,
  list_find (fun backup => usable_full backup = true) backups = Some (i, b0) ->
  satisfy_timeline tls b0 = true ->
  find_base_backup have_libz tls i0 (get_fullbackup_timeline backups).2
  = if negb have_libz && (compress_data b0 && (have_database b0 || have_arclog b0))
    then Fatal EXIT_NOT_SUPPORTED else Ok ((i0 + i)%nat, passed b0).
Proof.
  induction backups as [|b backups IH]; intros i0 i b0 Hfind Hsat; [done|].
  rewrite get_fullbackup_timeline_cons. cbn [list_find] in Hfind.
  pose proof (passed_status b) as Hst.
  destruct (passed_fields b) as (Htli & Hstop & _ & Hc & Hd & Ha).
  destruct (decide (usable_full b = true)) as [Hu|Hu].
  - injection Hfind as <- <-. rewrite Hu in Hst |- *. cbn [snd find_base_backup].
    rewrite Hst, Hc, Hd, Ha. cbn [negb].
    destruct (negb have_libz && _); [done|].
    assert (Hsat' : satisfy_timeline tls (passed b) = true).
    { apply satisfy_timeline_spec. apply satisfy_timeline_spec in Hsat.
      destruct Hsat as (t & Hin & Ht & Hlt). exists t. by rewrite Htli, Hstop. }
    rewrite Hsat'. by rewrite Nat.add_0_r.
  - apply not_true_is_false in Hu. rewrite Hu in Hst |- *.
    destruct (list_find _ backups) as [[j b1]|] eqn:Hrest; [|done].
    injection Hfind as <- <-.
    specialize (IH (S i0) j b1 eq_refl Hsat).
    destruct (get_fullbackup_timeline backups) as [r rest'].
    cbn [snd find_base_backup] in IH |- *. rewrite Hst. cbn [negb].
    rewrite IH. by replace (S i0 + j)%nat with (i0 + S j)%nat by lia.
Qed.

(** X15.  When no target timeline is asked for and the timeline of the cluster
    is not known, [do_restore] reads the history of the timeline
    [get_fullbackup_timeline] returned; the search for the base backup then
    stops at the very backup that scan stopped at, the first full backup
    that is OK or validates as OK: it is taken as the base, or, when it is
    compressed and the build has no zlib, the restore is refused. *)
Theorem default_base_is_latest_full (have_libz : bool) (backups : list pgBackup)
    (arclog work_xlog : tree) (i : nat) (b0 : pgBackup) (tls : list pgTimeLine) :
  list_find (fun backup => usable_full backup = true) backups = Some (i, b0) ->
  is_uint32 (xlogid (stop_lsn b0)) -> is_uint32 (xrecoff (stop_lsn b0)) ->
  stop_lsn b0 <> max_lsn ->
  (get_fullbackup_timeline backups).1 = Ok (tli b0)
  /\ resolved_target 0 0 (tli b0) = tli b0
  /\ (readTimeLineHistory arclog work_xlog (tli b0) = Ok tls ->
      find_base_backup have_libz tls 0 (get_fullbackup_timeline backups).2
      = if negb have_libz && (compress_data b0 && (have_database b0 || have_arclog b0))
        then Fatal EXIT_NOT_SUPPORTED else Ok (i, passed b0)).
Proof.
  intros Hfind Hid Hoff Hmax. split_and!.
  - clear Hid Hoff Hmax. revert i Hfind.
    induction backups as [|b backups IH]; intros i Hfind; [done|].
    rewrite get_fullbackup_timeline_cons. cbn [list_find] in Hfind.
    destruct (decide (usable_full b = true)) as [Hu|Hu].
    + injection Hfind as <- <-. by rewrite Hu.
    + apply not_true_is_false in Hu. rewrite Hu.
      destruct (list_find _ backups) as [[j b1]|] eqn:Hrest; [|done].
      injection Hfind as <- <-. specialize (IH j eq_refl).
      by destruct (get_fullbackup_timeline backups) as [r rest'].
  - done.
  - intros Htls. apply (find_base_after_scan have_libz tls backups 0 i b0 Hfind).
    assert (Hhead : head tls = Some (mkTimeLine (tli b0) max_lsn)).
    { unfold readTimeLineHistory, readTimeLineHistory_from in Htls.
      assert (Hp : forall fd, parse_history fd (tli b0) = Ok tls ->
                head tls = Some (mkTimeLine (tli b0) max_lsn)).
      { intros fd Hfd. pose proof (parse_history_shape fd (tli b0)) as Hs.
        rewrite Hfd in Hs. by destruct Hs. }
      destruct (fopen_rt arclog _) as [c| |]; [by apply (Hp (Some c))| |done].
      destruct (fopen_rt work_xlog _) as [c| |];
        [by apply (Hp (Some c))|by apply (Hp None)|done]. }
    apply satisfy_timeline_spec. exists (mkTimeLine (tli b0) max_lsn).
    split; [|split; [done|]].
    + destruct tls as [|t tls]; simplify_eq/=. by left.
    + destruct (stop_lsn b0) as [x o].
      unfold lsn_lt, is_uint32, max_lsn in *. simpl in *.
      destruct (decide (x = UINT32_MAX)) as [->|Hx]; [|left; lia].
      right. split; [done|].
      destruct (decide (o = UINT32_MAX)) as [->|Ho]; [done|lia].
Qed.

End DefaultBase.

(** The sample catalog: the scan stops at the full backup behind the
    incremental, and that one is the base. *)
Lemma default_base_is_latest_full_witness :
  list_find (fun backup => usable_full backup = true) [sample_incr; sample_full]
  = Some (1%nat, sample_full)
  /\ find_base_backup true [mkTimeLine 1 max_lsn] 0
       (get_fullbackup_timeline [sample_incr; sample_full]).2
     = Ok (1%nat, passed sample_full).
Proof.
  split; [reflexivity|].
  refine (proj2 (proj2 (default_base_is_latest_full true [sample_incr; sample_full] ∅ ∅
                          1 sample_full [mkTimeLine 1 max_lsn] eq_refl _ _ _)) eq_refl).
  - unfold is_uint32, UINT32_MAX. simpl. lia.
  - unfold is_uint32, UINT32_MAX. simpl. lia.
  - discriminate.
Defined.

(** ** The test for history files *)

Lemma substring_past_prefix (s t : string) n :
  substring (String.length s) n (s ++ t) = substring 0 n t.
Proof.
  induction s as [|c s IH]; [done|].
  change (String c s ++ t) with (String c (s ++ t)). simpl. exact IH.
Qed.

(** X16.  The test of lines 508-509 compares the first occurrence of ".history"
    in the stored path with the place where the suffix would start.  So an
    entry is skipped exactly when its path ends in ".history" and holds
    ".history" nowhere before: nothing else is ever skipped, and a history
    file is skipped unless the text ".history" is also in a directory name
    of its path or earlier in its name. *)
Theorem history_suffix_test (p : string) :
  (is_history_file p = true <->
   (8 <= String.length p)%nat
   /\ substring (String.length p - 8) 8 p = ".history"
   /\ forall m, (m < String.length p - 8)%nat -> substring m 8 p <> ".history")
  /\ (forall s, p = s ++ ".history" ->
        (is_history_file p = true <->
         forall m, (m < String.length s)%nat -> substring m 8 p <> ".history")).
Proof.
  assert (Htest : is_history_file p = true <->
            (8 <= String.length p)%nat
            /\ substring (String.length p - 8) 8 p = ".history"
            /\ forall m, (m < String.length p - 8)%nat -> substring m 8 p <> ".history").
  { unfold is_history_file.
    destruct (String.index 0 ".history" p) as [off|] eqn:Hi.
    - pose proof (String.index_correct1 _ _ _ _ Hi) as Hat.
      pose proof (String.index_correct2 _ _ _ _ Hi) as Hbefore.
      change (String.length ".history") with 8%nat in *.
      rewrite Z.eqb_eq. split.
      + intros Hoff. assert (Heq : off = (String.length p - 8)%nat) by lia.
        split; [lia|]. rewrite <- Heq. split; [done|].
        intros m Hm. apply Hbefore; lia.
      + intros (Hlen & Hend & Hnone).
        destruct (Nat.lt_trichotomy off (String.length p - 8)) as [Hlt|[Heq|Hgt]].
        * by destruct (Hnone off Hlt).
        * lia.
        * destruct (Hbefore (String.length p - 8)%nat); [lia|done..].
    - split; [done|]. intros (Hlen & Hend & _).
      by destruct (String.index_correct3 0 (String.length p - 8) _ _ Hi); [|lia|]. }
  split; [exact Htest|].
  intros s ->. rewrite Htest, string_length_app.
  change (String.length ".history") with 8%nat.
  replace (String.length s + 8 - 8)%nat with (String.length s) by lia.
  rewrite substring_past_prefix. split; [by intros (_ & _ & ?)|].
  intros Hnone. split; [lia|]. by split.
Qed.
